(** * Airkeys: the playback and gating engine

    A shallow embedding of the score model, the hit detector and the
    timeline controller of the Airkeys rhythm game, with the properties
    its specification states about them, and further properties of the
    code: of the loaders, the hand tracker's callback, the controls, the
    sample player and the end screen.

    Conventions of the embedding.
    - JavaScript numbers that carry times, durations and pixel
      coordinates are exact rationals ([Q]); MIDI key numbers are
      integers ([Z]); counters are natural numbers. Where a property
      depends on how an operation on numbers rounds its result, the
      operation is a parameter of the definition.
    - A note id, the string [`${trackIndex}:${idx}`], is the pair
      [(trackIndex, idx)]: the rendering of a pair is injective.
    - [playedMelodyIds], a JavaScript [Set], is a [gset].
    - [Array.prototype.sort] is stable, so its result is determined by
      the comparator; it is modelled by a stable insertion sort.
    - A [while] loop is a fixpoint with fuel; running out of fuel, or a
      loop iteration that makes no progress, is [None].
    - A statement that throws makes the function that runs it [None].
    - A whole number in a template string is its decimal numeral, as
      it is in JavaScript for whole numbers below 2^53. *)

From Stdlib Require Import QArith Qabs Qminmax Lqa ZArith List Permutation String Bool Lia.
From Stdlib Require Import Sorted Qround Ascii.
From stdpp Require Import gmap pretty.

Open Scope Q_scope.

(** ** Notes *)

Definition NoteId : Type := (nat * nat)%type.

Module Note.
Record t : Type := mk {
  id : NoteId;
  midi : Z;
  time : Q;
  duration : Q;
  velocity : Q;
  name : string;
  trackIndex : nat
}.
End Note.

(** What [@tonejs/midi] hands back: tracks of notes, and the length of
    the song. *)
Record RawNote : Type := {
  raw_midi : Z;
  raw_time : Q;
  raw_duration : Q;
  raw_velocity : Q;
  raw_name : string
}.

Module Midi.
Record t : Type := mk {
  tracks : list (list RawNote);
  duration : Q
}.
End Midi.

(** ** Stable sort with a comparator *)

Section StableSort.
Context {A : Type}.
(** [before a b] holds when the comparator does not put [b] first,
    that is [compare(a, b) <= 0]. *)
Variable before : A -> A -> bool.

Fixpoint insertSorted (x : A) (l : list A) : list A :=
  match l with
  | [] => [x]
  | y :: l' => if before x y then x :: l else y :: insertSorted x l'
  end.

Definition sortBy (l : list A) : list A := foldr insertSorted [] l.
End StableSort.

(** [notes.sort((a, b) => a.time - b.time)] *)
Definition byTime (a b : Note.t) : bool := Qle_bool (Note.time a) (Note.time b).

(** [group.sort((a, b) => b.midi - a.midi)] *)
Definition byPitchDesc (a b : Note.t) : bool := (Note.midi b <=? Note.midi a)%Z.

(** ** script.js: loadMIDI (lines 67-112) *)

Definition epsilon : Q := 0.05.

(** [Math.abs(notes[j].time - groupStart) <= epsilon] *)
Definition nearStart (groupStart : Q) (n : Note.t) : bool :=
  Qle_bool (Qabs (Note.time n - groupStart)) epsilon.

(** The inner [while] (lines 99-102): from position [i], push notes onto
    [group] while they pass the test; the result is the group and the
    notes from [j]. *)
Fixpoint takeGroup (groupStart : Q) (rest : list Note.t)
  : list Note.t * list Note.t :=
  match rest with
  | [] => ([], [])
  | n :: rest' =>
      if nearStart groupStart n
      then let '(group, after) := takeGroup groupStart rest' in (n :: group, after)
      else ([], rest)
  end.

(** [group.reduce((acc, n) => (n.midi > acc.midi ? n : acc), group[0])] *)
Definition pickMelody (group : list Note.t) (first : Note.t) : Note.t :=
  fold_left (fun acc n => if (Note.midi acc <? Note.midi n)%Z then n else acc)
            group first.

Definition sameId (a b : Note.t) : bool :=
  bool_decide (Note.id a = Note.id b).

(** [group.forEach(n => { if (n.id !== melody.id) harmonyNotes.push(n); })] *)
Definition others (melody : Note.t) (group : list Note.t) : list Note.t :=
  List.filter (fun n => negb (sameId n melody)) group.

(** The outer [while (i < notes.length)] (lines 95-109), on the notes
    from [i] on. An empty group leaves [i] where it was: the loop would
    not end. *)
Fixpoint separate (fuel : nat) (rest melodyNotes harmonyNotes : list Note.t)
  : option (list Note.t * list Note.t) :=
  match rest with
  | [] => Some (melodyNotes, harmonyNotes)
  | first :: _ =>
      match fuel with
      | O => None
      | S fuel' =>
          let '(group, after) := takeGroup (Note.time first) rest in
          match group with
          | [] => None
          | g0 :: _ =>
              let melody := pickMelody group g0 in
              separate fuel' after
                       (melodyNotes ++ [melody])
                       (harmonyNotes ++ others melody group)
          end
      end
  end.

(** The groups the loop goes through, in order (the values of [group]
    at line 103). *)
Fixpoint groupsOf (fuel : nat) (rest : list Note.t) : option (list (list Note.t)) :=
  match rest with
  | [] => Some []
  | first :: _ =>
      match fuel with
      | O => None
      | S fuel' =>
          let '(group, after) := takeGroup (Note.time first) rest in
          match group with
          | [] => None
          | _ :: _ => cons group <$> groupsOf fuel' after
          end
      end
  end.

(** Lines 74-87: one note per note of each track, in track order. *)
Definition extractNotes (m : Midi.t) (TEMPO_MULTIPLIER : Q) : list Note.t :=
  concat (imap (fun trackIndex track =>
            imap (fun idx note =>
                    {| Note.id := (trackIndex, idx);
                       Note.midi := raw_midi note;
                       Note.time := raw_time note * TEMPO_MULTIPLIER;
                       Note.duration := raw_duration note * TEMPO_MULTIPLIER;
                       Note.velocity := raw_velocity note;
                       Note.name := raw_name note;
                       Note.trackIndex := trackIndex |})
                 track)
          (Midi.tracks m)).

(** The part of the page state that [loadMIDI] assigns. *)
Record Score : Type := {
  sc_notes : list Note.t;
  sc_melodyNotes : list Note.t;
  sc_harmonyNotes : list Note.t;
  sc_duration : Q
}.

(** Lines 72-110, once the file is parsed. *)
Definition parseScore (m : Midi.t) (currentSpeed : Q) : option Score :=
  let TEMPO_MULTIPLIER := 1 / currentSpeed in
  let notes := sortBy byTime (extractNotes m TEMPO_MULTIPLIER) in
  match separate (length notes) notes [] [] with
  | Some (melodyNotes, harmonyNotes) =>
      Some {| sc_notes := notes;
              sc_melodyNotes := melodyNotes;
              sc_harmonyNotes := harmonyNotes;
              sc_duration := Midi.duration m * TEMPO_MULTIPLIER |}
  | None => None
  end.

(** ** The page state of script.js *)

Record Point : Type := { pt_x : Q; pt_y : Q }.

(** The two fields of [getBoundingClientRect()] that the code reads. *)
Record Rect : Type := { rect_left : Q; rect_width : Q }.

(** An entry of [pianoKeys]; the rectangle of its [element] is read
    from the page when it is needed. *)
Record PianoKey : Type := { key_midi : Z; isWhite : bool }.

(** What the code reads from the document: the height of the canvas,
    the left edge of the canvas and the rectangle of each piano key. *)
Record Page : Type := {
  canvasHeight : Q;
  canvasLeft : Q;
  keyRect : Z -> Rect
}.

(** A call [synth.triggerAttackRelease(Tone.Frequency(midi, 'midi'),
    duration, time, velocity)]; [None] is [undefined], that is now. *)
Record Trigger : Type := {
  tr_midi : Z;
  tr_duration : Q;
  tr_time : option Q;
  tr_velocity : Q
}.

(** The call [synth.triggerAttackRelease(Tone.Frequency(note.midi,
    'midi'), duration, undefined, note.velocity)]. *)
Definition attackRelease (note : Note.t) (duration : Q) : Trigger :=
  {| tr_midi := Note.midi note;
     tr_duration := duration;
     tr_time := None;
     tr_velocity := Note.velocity note |}.

(** A callback registered by [Tone.Transport.schedule(callback, at)],
    with the values its closure captured. *)
Record Scheduled : Type := {
  sch_at : Q;
  sch_midi : Z;
  sch_duration : Q;
  sch_velocity : Q
}.

(** [Tone.Transport]: its position, whether it runs, and its timeline. *)
Record Transport : Type := {
  seconds : Q;
  started : bool;
  timeline : list Scheduled
}.

(** Pending timers: the [setInterval] of a countdown with the value of
    its counter, and the [setTimeout] of [seekTo]. *)
Inductive Timer : Type :=
| Countdown (countdown : Z)
| Restart.

Record State : Type := mkState {
  notes : list Note.t;
  melodyNotes : list Note.t;
  harmonyNotes : list Note.t;
  duration : Q;
  isPlaying : bool;
  gatedPause : bool;
  currentTime : Q;
  currentSpeed : Q;
  currentSong : string;
  pianoKeys : list PianoKey;
  allFingerPoints : list Point;
  playedMelodyIds : gset NoteId;
  touchedMelodyCount : nat;
  finalScore : Q;
  synth : list Trigger;
  transport : Transport;
  timers : list Timer;
  animating : bool;
  page : Page
}.

Definition set_score (sc : Score) (s : State) : State :=
  mkState (sc_notes sc) (sc_melodyNotes sc) (sc_harmonyNotes sc)
    (sc_duration sc) (isPlaying s) (gatedPause s) (currentTime s)
    (currentSpeed s) (currentSong s) (pianoKeys s) (allFingerPoints s)
    (playedMelodyIds s) (touchedMelodyCount s) (finalScore s) (synth s)
    (transport s) (timers s) (animating s) (page s).

Definition set_isPlaying (v : bool) (s : State) : State :=
  mkState (notes s) (melodyNotes s) (harmonyNotes s) (duration s) v
    (gatedPause s) (currentTime s) (currentSpeed s) (currentSong s)
    (pianoKeys s) (allFingerPoints s) (playedMelodyIds s)
    (touchedMelodyCount s) (finalScore s) (synth s) (transport s) (timers s)
    (animating s) (page s).

Definition set_gatedPause (v : bool) (s : State) : State :=
  mkState (notes s) (melodyNotes s) (harmonyNotes s) (duration s) (isPlaying
    s) v (currentTime s) (currentSpeed s) (currentSong s) (pianoKeys s)
    (allFingerPoints s) (playedMelodyIds s) (touchedMelodyCount s)
    (finalScore s) (synth s) (transport s) (timers s) (animating s) (page s).

Definition set_currentTime (v : Q) (s : State) : State :=
  mkState (notes s) (melodyNotes s) (harmonyNotes s) (duration s) (isPlaying
    s) (gatedPause s) v (currentSpeed s) (currentSong s) (pianoKeys s)
    (allFingerPoints s) (playedMelodyIds s) (touchedMelodyCount s)
    (finalScore s) (synth s) (transport s) (timers s) (animating s) (page s).

Definition set_currentSpeed (v : Q) (s : State) : State :=
  mkState (notes s) (melodyNotes s) (harmonyNotes s) (duration s) (isPlaying
    s) (gatedPause s) (currentTime s) v (currentSong s) (pianoKeys s)
    (allFingerPoints s) (playedMelodyIds s) (touchedMelodyCount s)
    (finalScore s) (synth s) (transport s) (timers s) (animating s) (page s).

Definition set_currentSong (v : string) (s : State) : State :=
  mkState (notes s) (melodyNotes s) (harmonyNotes s) (duration s) (isPlaying
    s) (gatedPause s) (currentTime s) (currentSpeed s) v (pianoKeys s)
    (allFingerPoints s) (playedMelodyIds s) (touchedMelodyCount s)
    (finalScore s) (synth s) (transport s) (timers s) (animating s) (page s).

Definition set_pianoKeys (v : list PianoKey) (s : State) : State :=
  mkState (notes s) (melodyNotes s) (harmonyNotes s) (duration s) (isPlaying
    s) (gatedPause s) (currentTime s) (currentSpeed s) (currentSong s) v
    (allFingerPoints s) (playedMelodyIds s) (touchedMelodyCount s)
    (finalScore s) (synth s) (transport s) (timers s) (animating s) (page s).

Definition set_allFingerPoints (v : list Point) (s : State) : State :=
  mkState (notes s) (melodyNotes s) (harmonyNotes s) (duration s) (isPlaying
    s) (gatedPause s) (currentTime s) (currentSpeed s) (currentSong s)
    (pianoKeys s) v (playedMelodyIds s) (touchedMelodyCount s) (finalScore
    s) (synth s) (transport s) (timers s) (animating s) (page s).

Definition set_playedMelodyIds (v : gset NoteId) (s : State) : State :=
  mkState (notes s) (melodyNotes s) (harmonyNotes s) (duration s) (isPlaying
    s) (gatedPause s) (currentTime s) (currentSpeed s) (currentSong s)
    (pianoKeys s) (allFingerPoints s) v (touchedMelodyCount s) (finalScore
    s) (synth s) (transport s) (timers s) (animating s) (page s).

Definition set_touchedMelodyCount (v : nat) (s : State) : State :=
  mkState (notes s) (melodyNotes s) (harmonyNotes s) (duration s) (isPlaying
    s) (gatedPause s) (currentTime s) (currentSpeed s) (currentSong s)
    (pianoKeys s) (allFingerPoints s) (playedMelodyIds s) v (finalScore s)
    (synth s) (transport s) (timers s) (animating s) (page s).

Definition set_finalScore (v : Q) (s : State) : State :=
  mkState (notes s) (melodyNotes s) (harmonyNotes s) (duration s) (isPlaying
    s) (gatedPause s) (currentTime s) (currentSpeed s) (currentSong s)
    (pianoKeys s) (allFingerPoints s) (playedMelodyIds s)
    (touchedMelodyCount s) v (synth s) (transport s) (timers s) (animating
    s) (page s).

Definition set_synth (v : list Trigger) (s : State) : State :=
  mkState (notes s) (melodyNotes s) (harmonyNotes s) (duration s) (isPlaying
    s) (gatedPause s) (currentTime s) (currentSpeed s) (currentSong s)
    (pianoKeys s) (allFingerPoints s) (playedMelodyIds s)
    (touchedMelodyCount s) (finalScore s) v (transport s) (timers s)
    (animating s) (page s).

Definition set_transport (v : Transport) (s : State) : State :=
  mkState (notes s) (melodyNotes s) (harmonyNotes s) (duration s) (isPlaying
    s) (gatedPause s) (currentTime s) (currentSpeed s) (currentSong s)
    (pianoKeys s) (allFingerPoints s) (playedMelodyIds s)
    (touchedMelodyCount s) (finalScore s) (synth s) v (timers s) (animating
    s) (page s).

Definition set_timers (v : list Timer) (s : State) : State :=
  mkState (notes s) (melodyNotes s) (harmonyNotes s) (duration s) (isPlaying
    s) (gatedPause s) (currentTime s) (currentSpeed s) (currentSong s)
    (pianoKeys s) (allFingerPoints s) (playedMelodyIds s)
    (touchedMelodyCount s) (finalScore s) (synth s) (transport s) v
    (animating s) (page s).

Definition set_animating (v : bool) (s : State) : State :=
  mkState (notes s) (melodyNotes s) (harmonyNotes s) (duration s) (isPlaying
    s) (gatedPause s) (currentTime s) (currentSpeed s) (currentSong s)
    (pianoKeys s) (allFingerPoints s) (playedMelodyIds s)
    (touchedMelodyCount s) (finalScore s) (synth s) (transport s) (timers s)
    v (page s).

Definition set_page (v : Page) (s : State) : State :=
  mkState (notes s) (melodyNotes s) (harmonyNotes s) (duration s) (isPlaying
    s) (gatedPause s) (currentTime s) (currentSpeed s) (currentSong s)
    (pianoKeys s) (allFingerPoints s) (playedMelodyIds s)
    (touchedMelodyCount s) (finalScore s) (synth s) (transport s) (timers s)
    (animating s) v.


(** *** Tone.Transport *)

Definition transport_cancel (t : Transport) : Transport :=
  {| seconds := seconds t; started := started t; timeline := [] |}.

Definition transport_schedule (e : Scheduled) (t : Transport) : Transport :=
  {| seconds := seconds t; started := started t; timeline := timeline t ++ [e] |}.

Definition transport_start (t : Transport) : Transport :=
  {| seconds := seconds t; started := true; timeline := timeline t |}.

(** [stop()] also takes the position back to the start. *)
Definition transport_stop (t : Transport) : Transport :=
  {| seconds := 0; started := false; timeline := timeline t |}.

Definition transport_set_seconds (v : Q) (t : Transport) : Transport :=
  {| seconds := v; started := started t; timeline := timeline t |}.

Definition Qltb (x y : Q) : bool := negb (Qle_bool y x).

(** *** Loading *)

Section Controller.
(** [fetch(filename)] followed by [new Midi(arrayBuffer)]; [None] when
    either fails. *)
Variable fetchMidi : string -> option Midi.t.

Inductive Load : Type :=
| Loaded (s : State)
| Failed
| Looping.

Definition loadMIDI (filename : string) (s : State) : Load :=
  match fetchMidi filename with
  | None => Failed
  | Some m =>
      match parseScore m (currentSpeed s) with
      | Some sc => Loaded (set_score sc s)
      | None => Looping
      end
  end.

(** *** The keyboard *)

Definition whiteKeyPattern : list Z := [0; 2; 4; 5; 7; 9; 11]%Z.

Definition isWhiteKey (midiNote : Z) : bool :=
  existsb (Z.eqb (midiNote mod 12)) whiteKeyPattern.

(** [minNote .. maxNote]; [Math.min()] of no numbers is [Infinity], and
    then neither loop runs. *)
Definition keyRange (ns : list Note.t) : list Z :=
  match map Note.midi ns with
  | [] => []
  | p :: ps =>
      let minNote := Z.max 21 (foldr Z.min p ps - 3) in
      let maxNote := Z.min 108 (foldr Z.max p ps + 3) in
      map (fun k => (minNote + Z.of_nat k)%Z)
          (seq 0 (Z.to_nat (maxNote - minNote + 1)))
  end.

(** script.js:197-237. *)
Definition createPianoKeyboard (s : State) : State :=
  let range := keyRange (notes s) in
  let whites := List.filter isWhiteKey range in
  let blacks := List.filter (fun k => negb (isWhiteKey k)) range in
  set_pianoKeys
    (pianoKeys s
       ++ map (fun k => {| key_midi := k; isWhite := true |}) whites
       ++ map (fun k => {| key_midi := k; isWhite := false |}) blacks)
    s.

(** *** Playback *)

(** script.js:391-406. *)
Definition scheduleNotes (s : State) : State :=
  let t0 := transport_cancel (transport s) in
  let t1 :=
    fold_left
      (fun t note =>
         if Qle_bool (currentTime s) (Note.time note)
         then transport_schedule
                {| sch_at := Note.time note;
                   sch_midi := Note.midi note;
                   sch_duration := Note.duration note;
                   sch_velocity := Note.velocity note |} t
         else t)
      (harmonyNotes s) t0 in
  set_transport (transport_start t1) s.

(** script.js:322-360: [startPlayback] only arms the countdown. *)
Definition startPlayback (s : State) : State :=
  set_timers (timers s ++ [Countdown 3]) s.

(** The body of [if (countdown < 0)] in the interval callback
    (script.js:347-358). *)
Definition beginPlaying (s : State) : State :=
  let s1 := set_gatedPause false (set_isPlaying true s) in
  let s2 := set_transport (transport_set_seconds (currentTime s1) (transport s1)) s1 in
  scheduleNotes s2.

(** script.js:362-370. *)
Definition pausePlayback (s : State) : State :=
  let s1 := set_isPlaying false s in
  let s2 := set_currentTime (seconds (transport s1)) s1 in
  set_transport (transport_cancel (transport_stop (transport s2))) s2.

(** script.js:314-320. *)
Definition togglePlayback (s : State) : State :=
  if negb (isPlaying s) && negb (gatedPause s)
  then startPlayback s
  else pausePlayback s.

(** [melodyNotes.forEach(n => { if (n.time < currentTime - 0.1)
    playedMelodyIds.add(n.id); })] *)
Definition markBefore (s : State) : State :=
  fold_left
    (fun st n =>
       if Qltb (Note.time n) (currentTime st - 0.1)
       then set_playedMelodyIds (playedMelodyIds st ∪ {[ Note.id n ]}) st
       else st)
    (melodyNotes s) s.

(** script.js:372-389. *)
Definition seekTo (time : Q) (s : State) : State :=
  let s1 := set_currentTime (Qmax 0 (Qmin time (duration s))) s in
  let s2 := set_transport (transport_set_seconds (currentTime s1) (transport s1)) s1 in
  let s3 := set_touchedMelodyCount 0 (set_playedMelodyIds ∅ s2) in
  let s4 := markBefore s3 in
  if isPlaying s4
  then let s5 := pausePlayback s4 in set_timers (timers s5 ++ [Restart]) s5
  else s4.

(** *** The hit detector *)

Definition WHITE_KEY_WIDTH : Q := 30.
Definition BLACK_KEY_WIDTH : Q := 20.
Definition hitZoneTolerance : Q := 50.
Definition lookAhead : Q := 3.
Definition lookBehind : Q := 0.5.

Definition hitZoneY (s : State) : Q := canvasHeight (page s) * 0.6.
Definition pixelsPerSecond (s : State) : Q := (canvasHeight (page s) - 140) * 0.5.
Definition pianoTopY (s : State) : Q := canvasHeight (page s) - 140.

Definition noteBottom (s : State) (note : Note.t) : Q :=
  pianoTopY s - (Note.time note - currentTime s) * pixelsPerSecond s.

Definition noteHeight (s : State) (note : Note.t) : Q :=
  Qmax 10 (Note.duration note * pixelsPerSecond s).

Definition noteTop (s : State) (note : Note.t) : Q :=
  noteBottom s note - noteHeight s note.

Definition keyX (s : State) (k : PianoKey) : Q :=
  let keyRect := keyRect (page s) (key_midi k) in
  rect_left keyRect - canvasLeft (page s) + rect_width keyRect / 2.

Definition noteWidth (k : PianoKey) : Q :=
  if isWhite k then WHITE_KEY_WIDTH - 4 else BLACK_KEY_WIDTH - 2.

(** The body of the inner [for] (script.js:456-481): does the finger
    point touch this note? *)
Definition touches (s : State) (fingerPoint : Point) (note : Note.t) : bool :=
  if bool_decide (Note.id note ∈ playedMelodyIds s) then false
  else
    let timeDiff := Note.time note - currentTime s in
    if Qltb (- lookBehind) timeDiff && Qltb timeDiff lookAhead then
      match find (fun k => (key_midi k =? Note.midi note)%Z) (pianoKeys s) with
      | None => false
      | Some keyData =>
          if Qle_bool (hitZoneY s - hitZoneTolerance) (noteBottom s note)
             && Qle_bool (noteTop s note) (hitZoneY s + hitZoneTolerance)
          then
            let noteLeft := keyX s keyData - noteWidth keyData / 2 in
            let noteRight := keyX s keyData + noteWidth keyData / 2 in
            Qle_bool noteLeft (pt_x fingerPoint)
            && Qle_bool (pt_x fingerPoint) noteRight
            && Qle_bool (noteTop s note) (pt_y fingerPoint)
            && Qle_bool (pt_y fingerPoint) (noteBottom s note)
          else false
      end
    else false.

(** The outer [for] over the finger points. *)
Fixpoint firstTouched (s : State) (points : list Point) : option Note.t :=
  match points with
  | [] => None
  | fingerPoint :: points' =>
      match find (touches s fingerPoint) (melodyNotes s) with
      | Some note => Some note
      | None => firstTouched s points'
      end
  end.

(** script.js:439-485; js/game.js (src/unnamed/part_001:136-182) has the
    same function, with the globals read from [state]. *)
Definition getTouchedNote (s : State) : option Note.t :=
  match allFingerPoints s, pianoKeys s with
  | [], _ => None
  | _, [] => None
  | _, _ => firstTouched s (allFingerPoints s)
  end.

(** *** The melody gate *)

(** script.js:506-510. *)
Definition playMelodyNote (note : Note.t) (s : State) : State :=
  let s1 := set_synth (synth s ++ [attackRelease note (Note.duration note)]) s in
  let s2 := set_playedMelodyIds (playedMelodyIds s1 ∪ {[ Note.id note ]}) s1 in
  set_touchedMelodyCount (S (touchedMelodyCount s2)) s2.

(** script.js:493-496. *)
Definition simultaneousNotes (touchedNote : Note.t) (s : State) : list Note.t :=
  List.filter
    (fun note =>
       negb (bool_decide (Note.id note ∈ playedMelodyIds s))
       && Qle_bool (Qabs (Note.time note - Note.time touchedNote)) epsilon)
    (melodyNotes s).

(** script.js:487-504. *)
Definition handleMelodyGate (s : State) : State :=
  match getTouchedNote s with
  | None => s
  | Some touchedNote =>
      let simultaneous := simultaneousNotes touchedNote s in
      if gatedPause s then
        startPlayback (fold_left (fun st note => playMelodyNote note st) simultaneous s)
      else if isPlaying s then
        fold_left (fun st note => playMelodyNote note st) simultaneous s
      else s
  end.

(** *** The frame callback *)

(** script.js:692-693; the drawing is left out. *)
Definition showEndScreen (s : State) : State :=
  set_finalScore
    (if (0 <? length (melodyNotes s))%nat
     then inject_Z (Z.of_nat (touchedMelodyCount s))
          / inject_Z (Z.of_nat (length (melodyNotes s))) * 100
     else 0)
    s.

(** [melodyNotes.forEach(note => { if (!playedMelodyIds.has(note.id)
    && note.time < currentTime - 0.1) playedMelodyIds.add(note.id); })] *)
Definition autoMark (s : State) : State :=
  fold_left
    (fun st note =>
       if negb (bool_decide (Note.id note ∈ playedMelodyIds st))
          && Qltb (Note.time note) (currentTime st - 0.1)
       then set_playedMelodyIds (playedMelodyIds st ∪ {[ Note.id note ]}) st
       else st)
    (melodyNotes s) s.

(** The rest of [animate] after the first [if]: the gate, the drawing
    (which changes nothing here) and the request of the next frame. *)
Definition gateAndDraw (s : State) : State :=
  let s1 := if isPlaying s || gatedPause s then handleMelodyGate s else s in
  set_animating true s1.

(** script.js:408-437; [animate] of js/game.js (src/unnamed/part_001:
    203-232) has the same statements up to the gate. *)
Definition animate (s : State) : State :=
  let s0 := set_animating false s in
  if isPlaying s0 then
    let s1 := set_currentTime (seconds (transport s0)) s0 in
    if Qle_bool (duration s1) (currentTime s1) then
      showEndScreen (pausePlayback (set_currentTime (duration s1) s1))
    else gateAndDraw (autoMark s1)
  else gateAndDraw s0.

(** *** The controls *)

Definition resetGame (s : State) : State :=
  set_touchedMelodyCount 0 (set_playedMelodyIds ∅ (set_currentTime 0 s)).

(** script.js:253-275 and 277-296.
    The handlers that reload the score give [None] when [loadMIDI]
    does not come back; a failed download is caught and leaves the
    state as the handler had it by then. *)
Definition songChange (song : string) (s : State) : option State :=
  let s1 := set_currentSong song s in
  let s2 := if isPlaying s1 then pausePlayback s1 else s1 in
  let s3 := set_pianoKeys [] s2 in
  match loadMIDI song s3 with
  | Loaded s4 => Some (resetGame (createPianoKeyboard s4))
  | Failed => Some s3
  | Looping => None
  end.

Definition speedChange (speed : Q) (s : State) : option State :=
  let s1 := set_currentSpeed speed s in
  match loadMIDI (currentSong s1) s1 with
  | Loaded s2 =>
      let s3 := resetGame s2 in
      Some (if isPlaying s3 then startPlayback (pausePlayback s3) else s3)
  | Failed => Some s1
  | Looping => None
  end.

(** script.js:303-311: [setInstrument] replaces the synth and empties
    the timeline. *)
Definition instrumentChange (s : State) : State :=
  let s1 := if isPlaying s then pausePlayback s else s in
  set_transport (transport_cancel (transport s1)) s1.

(** The callback of a pending timer. *)
Definition timerFire (i : nat) (s : State) : State :=
  match timers s !! i with
  | None => s
  | Some Restart => startPlayback (set_timers (delete i (timers s)) s)
  | Some (Countdown countdown) =>
      let countdown' := (countdown - 1)%Z in
      if (countdown' <? 0)%Z
      then beginPlaying (set_timers (delete i (timers s)) s)
      else set_timers (<[ i := Countdown countdown' ]> (timers s)) s
  end.

(** *** The page as a transition system *)

Inductive Event : Type :=
| Frame                              (* requestAnimationFrame calls animate *)
| Clock (dt : Q)                     (* time passes on the transport *)
| HandsResults (points : list Point) (* the tracker delivers a frame *)
| Layout (p : Page)                  (* the window is resized *)
| PlayClick
| TimerFire (i : nat)
| ProgressInput (value : Q)
| SongSelect (song : string)
| SpeedSelect (speed : Q)
| InstrumentSelect.

Definition clockAdvance (dt : Q) (s : State) : State :=
  if started (transport s)
  then set_transport
         (transport_set_seconds (seconds (transport s) + Qmax 0 dt) (transport s)) s
  else s.

Definition handle (e : Event) (s : State) : option State :=
  match e with
  | Frame => Some (if animating s then animate s else s)
  | Clock dt => Some (clockAdvance dt s)
  | HandsResults points => Some (set_allFingerPoints points s)
  | Layout p => Some (set_page p s)
  | PlayClick => Some (togglePlayback s)
  | TimerFire i => Some (timerFire i s)
  | ProgressInput value => Some (seekTo (value / 100 * duration s) s)
  | SongSelect song => songChange song s
  | SpeedSelect speed => speedChange speed s
  | InstrumentSelect => Some (instrumentChange s)
  end.

(** The state before [init]: the initial values of the globals. *)
Definition blank (p : Page) : State :=
  {| notes := []; melodyNotes := []; harmonyNotes := []; duration := 0;
     isPlaying := false; gatedPause := false; currentTime := 0;
     currentSpeed := 1; currentSong := "Kiss The Rain.mid";
     pianoKeys := []; allFingerPoints := []; playedMelodyIds := ∅;
     touchedMelodyCount := 0; finalScore := 0; synth := [];
     transport := {| seconds := 0; started := false; timeline := [] |};
     timers := []; animating := false; page := p |}.

(** [init], up to its first call of [animate]. *)
Definition init (p : Page) : option State :=
  match loadMIDI (currentSong (blank p)) (blank p) with
  | Loaded s => Some (set_animating true (createPianoKeyboard s))
  | Failed | Looping => None
  end.

Inductive reachable : State -> Prop :=
| reachable_init p s : init p = Some s -> reachable s
| reachable_step s e s' : reachable s -> handle e s = Some s' -> reachable s'.
End Controller.

(** ** js/midi.js: separateMelodyHarmony (lines 87-127) *)

Module MidiJs.
Definition timeWindow : Q := 0.05.

(** The variables of the scan over [state.notes]. *)
Record Scan : Type := {
  groups : list (list Note.t);
  currentGroup : list Note.t;
  currentGroupTime : Q
}.

Definition pushGroup (group : list Note.t) (gs : list (list Note.t))
  : list (list Note.t) :=
  if (0 <? length group)%nat then gs ++ [group] else gs.

Definition scanNote (sc : Scan) (note : Note.t) : Scan :=
  if Qltb (currentGroupTime sc) 0
     || Qltb (Qabs (Note.time note - currentGroupTime sc)) timeWindow
  then {| groups := groups sc;
          currentGroup := currentGroup sc ++ [note];
          currentGroupTime := Note.time note |}
  else {| groups := pushGroup (currentGroup sc) (groups sc);
          currentGroup := [note];
          currentGroupTime := Note.time note |}.

Definition groupNotes (notes : list Note.t) : list (list Note.t) :=
  let sc := fold_left scanNote notes
              {| groups := []; currentGroup := []; currentGroupTime := -1 |} in
  pushGroup (currentGroup sc) (groups sc).

(** The body of [groups.forEach]. A group is never empty here; were
    it, [group[0]] would be [undefined]. *)
Definition splitGroup (acc : list Note.t * list Note.t) (group : list Note.t)
  : list Note.t * list Note.t :=
  match group with
  | [only] => (fst acc ++ [only], snd acc)
  | _ =>
      match sortBy byPitchDesc group with
      | [] => acc
      | highest :: rest => (fst acc ++ [highest], snd acc ++ rest)
      end
  end.

(** The result is [(state.melodyNotes, state.harmonyNotes)]. *)
Definition separateMelodyHarmony (notes : list Note.t)
  : list Note.t * list Note.t :=
  fold_left splitGroup (groupNotes notes) ([], []).
End MidiJs.

(** ** js/audio.js: the synth variant (lines 78-101) *)

Module AudioJs.
Definition scheduleNotes (s : State) : State :=
  let t0 := transport_cancel (transport s) in
  let t1 :=
    fold_left
      (fun t note =>
         if Qle_bool (currentTime s) (Note.time note)
         then let safeDuration := Qmax 0.1 (Note.duration note) in
              transport_schedule
                {| sch_at := Note.time note;
                   sch_midi := Note.midi note;
                   sch_duration := safeDuration;
                   sch_velocity := Note.velocity note |} t
         else t)
      (harmonyNotes s) t0 in
  set_transport (transport_start t1) s.

Definition playMelodyNote (note : Note.t) (s : State) : State :=
  let safeDuration := Qmax 0.1 (Note.duration note) in
  let s1 := set_synth (synth s ++ [attackRelease note safeDuration]) s in
  let s2 := set_playedMelodyIds (playedMelodyIds s1 ∪ {[ Note.id note ]}) s1 in
  set_touchedMelodyCount (S (touchedMelodyCount s2)) s2.
End AudioJs.

(** ** js/game.js (src/unnamed/part_001), where it differs from script.js *)

Module GameJs.
(** Lines 184-201. [playMelodyNote] is imported from js/audio.js;
    [getTouchedNote] (lines 136-182) and the countdown are those of
    script.js, with the globals read from [state]. *)
Definition handleMelodyGate (s : State) : State :=
  match getTouchedNote s with
  | None => s
  | Some touchedNote =>
      let simultaneous := simultaneousNotes touchedNote s in
      if gatedPause s then
        startPlayback
          (fold_left (fun st note => AudioJs.playMelodyNote note st) simultaneous s)
      else if isPlaying s then
        fold_left (fun st note => AudioJs.playMelodyNote note st) simultaneous s
      else s
  end.
End GameJs.

(** ** script.js: the hand tracker's callback (lines 136-195) *)

(** What [mapCoordinates] reads from the document: the size of the
    container of the canvas and the size of the frames of the camera,
    which is 0 by 0 until the video has loaded. *)
Record Viewport : Type := {
  clientWidth : Q;
  clientHeight : Q;
  videoWidth : Q;
  videoHeight : Q
}.

(** [a || b] on numbers: [b] when [a] is 0. *)
Definition orElse (a b : Q) : Q := if Qeq_bool a 0 then b else a.

(** script.js:136-163. *)
Definition mapCoordinates (v : Viewport) (x y : Q) : Point :=
  let mirroredX := 1 - x in
  let cw := clientWidth v in
  let ch := clientHeight v in
  let vw := orElse (videoWidth v) 1280 in
  let vh := orElse (videoHeight v) 720 in
  let videoRatio := vw / vh in
  let screenRatio := cw / ch in
  let '(scaledWidth, scaledHeight) :=
    if Qltb videoRatio screenRatio
    then (cw, cw / videoRatio)
    else (ch * videoRatio, ch) in
  let offsetX := (cw - scaledWidth) / 2 in
  let offsetY := (ch - scaledHeight) / 2 in
  {| pt_x := offsetX + mirroredX * scaledWidth;
     pt_y := offsetY + y * scaledHeight |}.

(** A landmark of the tracker; the code tests that its coordinates are
    not [undefined]. *)
Record Landmark : Type := { lm_x : option Q; lm_y : option Q }.

(** [if (tip && tip.x !== undefined && tip.y !== undefined)
    allFingerPoints.push(mapCoordinates(tip.x, tip.y))]: the points
    pushed for [landmarks[index]]. *)
Definition pushMapped (v : Viewport) (tip : option Landmark) : list Point :=
  match tip with
  | Some {| lm_x := Some x; lm_y := Some y |} => [mapCoordinates v x y]
  | _ => []
  end.

Definition fingertipIndices : list nat := [4; 8; 12; 16; 20]%nat.

(** The body of [multiHandLandmarks.forEach] (script.js:170-193): the
    points pushed for one hand. A hand is [None] when it is null or
    undefined, and an entry of a hand likewise. *)
Definition handPoints (v : Viewport) (currentPlaystyle : string)
           (landmarks : option (list (option Landmark))) : list Point :=
  match landmarks with
  | None => []
  | Some landmarks =>
      if (length landmarks <? 21)%nat then []
      else if String.eqb currentPlaystyle "fingers" then
        flat_map (fun index => pushMapped v (mjoin (landmarks !! index)))
                 fingertipIndices
      else if String.eqb currentPlaystyle "palm" then
        flat_map (fun i => pushMapped v (mjoin (landmarks !! i))) (seq 0 21)
      else []
  end.

(** script.js:165-195: the value of [allFingerPoints] after the
    callback; [allHandsLandmarks], which only the drawing reads, is
    left out. *)
Definition onHandsResults (v : Viewport) (currentPlaystyle : string)
           (multiHandLandmarks : option (list (option (list (option Landmark)))))
  : list Point :=
  match multiHandLandmarks with
  | None => []
  | Some hands => flat_map (handPoints v currentPlaystyle) hands
  end.

(** ** script.js: the end screen (lines 692-731) *)

(** The texts of the rating, without their emoji. *)
Inductive Rating : Type :=
| Perfect | Excellent | Great | Good | NiceTry | KeepPracticing.

(** script.js:718-724. *)
Definition rating (finalScore : Q) : Rating :=
  if Qle_bool 95 finalScore then Perfect
  else if Qle_bool 90 finalScore then Excellent
  else if Qle_bool 80 finalScore then Great
  else if Qle_bool 70 finalScore then Good
  else if Qle_bool 50 finalScore then NiceTry
  else KeepPracticing.

(** script.js:708: the colour of the score. *)
Definition scoreColor (finalScore : Q) : string :=
  if Qle_bool 90 finalScore then "#22c55e"
  else if Qle_bool 70 finalScore then "#facc15"
  else if Qle_bool 50 finalScore then "#f97316"
  else "#ef4444".

(** ** script.js: formatTime (lines 739-743) *)

(** [Math.trunc]: towards zero. *)
Definition truncate (x : Q) : Z := if Qle_bool 0 x then Qfloor x else Qceiling x.

(** [a % b] on numbers: the remainder has the sign of [a]. *)
Definition remainder (a b : Q) : Q := a - b * inject_Z (truncate (a / b)).

Fixpoint repeatChar (c : Ascii.ascii) (n : nat) : string :=
  match n with
  | O => EmptyString
  | S n' => String c (repeatChar c n')
  end.

(** [s.padStart(targetLength, '0')] *)
Definition padStart (targetLength : nat) (s : string) : string :=
  (repeatChar "0"%char (targetLength - String.length s) ++ s)%string.

(** script.js:739-743. A whole number prints as its decimal numeral,
    as it does in JavaScript below 2^53; from there on JavaScript
    numbers no longer hold every whole number, and print the shortest
    digits that give the number back. *)
Definition formatTime (seconds : Q) : string :=
  let mins := Qfloor (seconds / 60) in
  let secs := Qfloor (remainder seconds 60) in
  (pretty mins ++ ":" ++ padStart 2 (pretty secs))%string.

(** ** js/audio.js: the sample player (lines 102-324) *)

Module WebAudio.
Definition noteNames : list string :=
  ["C"; "C#"; "D"; "D#"; "E"; "F"; "F#"; "G"; "G#"; "A"; "A#"; "B"]%string.

(** The inner [for] of [loadSamples] (lines 152-157), on the names from
    index [i] on: it stops once it has pushed C7. *)
Fixpoint octaveNotes (octave : Z) (names : list string) : list string :=
  match names with
  | [] => []
  | name :: names' =>
      let noteName := (name ++ pretty octave)%string in
      noteName :: (if String.eqb noteName "C7" then [] else octaveNotes octave names')
  end.

(** The array [notes] of [loadSamples] (lines 148-158): the samples
    that are asked for. *)
Definition sampleNotes : list string :=
  flat_map (fun octave => octaveNotes octave noteNames) [2; 3; 4; 5; 6; 7]%Z.

(** Lines 315-324. *)
Definition midiToNoteName (midi : Z) : string :=
  let clampedMidi := Z.max 36 (Z.min midi 96) in
  let octave := (clampedMidi / 12 - 1)%Z in
  let noteName := nth (Z.to_nat (clampedMidi mod 12)) noteNames "undefined"%string in
  (noteName ++ pretty octave)%string.

(** A buffer source that was started: the sample it plays, the value
    of its gain node and the time given to [start]. *)
Record Source : Type := {
  src_buffer : string;
  src_gain : Q;
  src_when : Q
}.

(** What the player reads and writes besides the page state:
    [state.audioContext], which is null ([None]) or has a
    [currentTime]; the note names that have a buffer in
    [instrumentBuffers[currentInstrument]]; [state.startTime];
    [state.scheduledNotes]; and the sources started for melody notes,
    which are kept nowhere. *)
Record Audio : Type := {
  audioContext : option Q;
  hasBuffer : string -> bool;
  startTime : Q;
  scheduledNotes : list Source;
  melodySources : list Source
}.

(** Lines 226-256. *)
Definition playMelodyNote (note : Note.t) (st : Audio * State) : Audio * State :=
  let '(a, s) := st in
  match audioContext a with
  | None => st
  | Some now =>
      let noteName := midiToNoteName (Note.midi note) in
      if negb (hasBuffer a noteName) then st
      else
        let velocity := orElse (Note.velocity note) 0.5 in
        let source := {| src_buffer := noteName;
                         src_gain := Qmin (velocity * 3.0) 2.0;
                         src_when := now |} in
        let s1 := set_playedMelodyIds (playedMelodyIds s ∪ {[ Note.id note ]}) s in
        ({| audioContext := audioContext a; hasBuffer := hasBuffer a;
            startTime := startTime a; scheduledNotes := scheduledNotes a;
            melodySources := melodySources a ++ [source] |},
         set_touchedMelodyCount (S (touchedMelodyCount s1)) s1)
  end.

(** Lines 301-312. *)
Definition stopAllNotes (a : Audio) : Audio :=
  {| audioContext := audioContext a; hasBuffer := hasBuffer a;
     startTime := startTime a; scheduledNotes := [];
     melodySources := melodySources a |}.

(** The body of [harmonyNotes.forEach] (lines 270-298), with
    [currentTime] the time of the audio context. [plus] is the [+] of
    JavaScript numbers, which rounds its result. *)
Definition scheduleNote (plus : Q -> Q -> Q) (now : Q) (a : Audio) (note : Note.t)
  : Audio :=
  let noteTime := plus (startTime a) (Note.time note) in
  if Qltb now noteTime then
    let noteName := midiToNoteName (Note.midi note) in
    if negb (hasBuffer a noteName) then a
    else
      let velocity := orElse (Note.velocity note) 0.4 in
      {| audioContext := audioContext a; hasBuffer := hasBuffer a;
         startTime := startTime a;
         scheduledNotes :=
           scheduledNotes a
           ++ [{| src_buffer := noteName;
                  src_gain := Qmin (velocity * 2.0) 1.5;
                  src_when := noteTime |}];
         melodySources := melodySources a |}
  else a.

(** Lines 258-299. [minus] and [plus] are the [-] and the [+] of
    JavaScript numbers, which round their results. *)
Definition scheduleNotes (minus plus : Q -> Q -> Q) (st : Audio * State)
  : Audio * State :=
  let '(a, s) := st in
  match audioContext a with
  | None => st
  | Some now =>
      let a1 := stopAllNotes a in
      let a2 := {| audioContext := audioContext a1; hasBuffer := hasBuffer a1;
                   startTime := minus now (currentTime s);
                   scheduledNotes := scheduledNotes a1;
                   melodySources := melodySources a1 |} in
      (fold_left (scheduleNote plus now) (harmonyNotes s) a2, s)
  end.
End WebAudio.

(** ** js/game.js with the sample player (src/unnamed/part_002) *)

Module WebGame.
(** Lines 148-157; [state.pauseTime], which nothing reads, is left out. *)
Definition pausePlayback (st : WebAudio.Audio * State) : WebAudio.Audio * State :=
  let '(a, s) := st in
  (WebAudio.stopAllNotes a, set_isPlaying false s).

(** Lines 225-242. *)
Definition handleMelodyGate (st : WebAudio.Audio * State) : WebAudio.Audio * State :=
  let '(a, s) := st in
  match getTouchedNote s with
  | None => st
  | Some touchedNote =>
      let simultaneous := simultaneousNotes touchedNote s in
      if gatedPause s then
        let '(a1, s1) :=
          fold_left (fun st note => WebAudio.playMelodyNote note st) simultaneous st in
        (a1, startPlayback s1)
      else if isPlaying s then
        fold_left (fun st note => WebAudio.playMelodyNote note st) simultaneous st
      else st
  end.

(** The rest of [animate] after the first [if]: the gate, the drawing
    and the request of the next frame. *)
Definition gateAndDraw (st : WebAudio.Audio * State) : WebAudio.Audio * State :=
  let '(a, s) := st in
  let '(a1, s1) := if isPlaying s || gatedPause s then handleMelodyGate st else st in
  (a1, set_animating true s1).

(** Lines 244-275, with [showEndScreen] of js/ui.js, which computes
    the score as that of script.js does. *)
Definition animate (st : WebAudio.Audio * State) : WebAudio.Audio * State :=
  let '(a, s) := st in
  let s0 := set_animating false s in
  match isPlaying s0, WebAudio.audioContext a with
  | true, Some now =>
      let s1 := set_currentTime (now - WebAudio.startTime a) s0 in
      if Qle_bool (duration s1) (currentTime s1) then
        let '(a2, s2) := pausePlayback (a, set_currentTime (duration s1) s1) in
        (a2, showEndScreen s2)
      else gateAndDraw (a, autoMark s1)
  | _, _ => gateAndDraw (a, s0)
  end.
End WebGame.

(** ** js/midi.js: loadMIDI (lines 3-85) *)

Module MidiLoad.
(** [event.data] as midi-parser-js gives it: absent, a number, or an
    array of numbers. *)
Inductive EventData : Type :=
| NoData
| Number (n : Z)
| Bytes (bytes : list Z).

Record MidiEvent : Type := {
  deltaTime : Z;
  type : Z;
  data : EventData
}.

(** The result of [MidiParser.parse]: [timeDivision], and for each
    entry of [track] its [event] array. *)
Record Parsed : Type := {
  timeDivision : Z;
  track : list (list MidiEvent)
}.

(** A note of [state.notes]; its id, the string
    [`${trackIndex}-${pitch}-${currentTime}`], is the triple. *)
Record LoadedNote : Type := {
  id : nat * Z * Q;
  midi : Z;
  velocity : Q;
  time : Q;
  track_ : nat;
  duration : Q
}.

(** The conversion of a number to a 32-bit integer that [<<] and [|]
    apply to their operands and results. *)
Definition toInt32 (z : Z) : Z :=
  let m := (z mod 2 ^ 32)%Z in
  if (m <? 2 ^ 31)%Z then m else (m - 2 ^ 32)%Z.

(** [(data[0] << 16) | (data[1] << 8) | data[2]] *)
Definition microsecondsPerBeat (d0 d1 d2 : Z) : Z :=
  toInt32 (Z.lor (toInt32 (Z.lor (toInt32 (Z.shiftl (toInt32 d0) 16))
                                 (toInt32 (Z.shiftl (toInt32 d1) 8))))
                 (toInt32 d2)).

(** Lines 11-22: the tempo of the first track whose first event of
    type 81 has an array of at least three numbers as its data. *)
Fixpoint findTempo (tracks : list (list MidiEvent)) : option Q :=
  match tracks with
  | [] => None
  | events :: tracks' =>
      match find (fun e => (type e =? 81)%Z) events with
      | Some {| data := Bytes (d0 :: d1 :: d2 :: _) |} =>
          Some (60000000 / inject_Z (microsecondsPerBeat d0 d1 d2))
      | _ => findTempo tracks'
      end
  end.

(** Lines 11-29. *)
Definition secondsPerTick (m : Parsed) (currentSpeed : Q) : Q :=
  let tempo := default 120 (findTempo (track m)) * currentSpeed in
  let ticksPerBeat := inject_Z (timeDivision m) in
  60 / (tempo * ticksPerBeat).

(** [activeNotes], a [Map] from [`${trackIndex}-${pitch}`] to the note
    that is sounding, in the order in which the keys were first set. *)
Definition ActiveNotes : Type := list (nat * Z * LoadedNote).

Definition sameKey (k1 k2 : nat * Z) : bool :=
  (fst k1 =? fst k2)%nat && (snd k1 =? snd k2)%Z.

Definition mapGet (key : nat * Z) (m : ActiveNotes) : option LoadedNote :=
  snd <$> find (fun entry => sameKey (fst entry) key) m.

Fixpoint mapSet (key : nat * Z) (note : LoadedNote) (m : ActiveNotes) : ActiveNotes :=
  match m with
  | [] => [(key, note)]
  | entry :: m' =>
      if sameKey (fst entry) key then (key, note) :: m'
      else entry :: mapSet key note m'
  end.

Definition mapDelete (key : nat * Z) (m : ActiveNotes) : ActiveNotes :=
  List.filter (fun entry => negb (sameKey (fst entry) key)) m.

(** The variables of the loop over the events: [currentTime] of the
    track, [activeNotes] and [state.notes]. *)
Record Scan : Type := {
  currentTime : Q;
  activeNotes : ActiveNotes;
  notes : list LoadedNote
}.

Definition withDuration (note : LoadedNote) (d : Q) : LoadedNote :=
  {| id := id note; midi := midi note; velocity := velocity note;
     time := time note; track_ := track_ note; duration := d |}.

(** The body of [track.event.forEach] (lines 39-62). An event of type
    8 without data makes [event.data[0]] throw: [None]. A note that is
    sounding has no duration yet; it is 0 here until it is assigned. *)
Definition scanEvent (secondsPerTick : Q) (trackIndex : nat) (sc : Scan)
           (event : MidiEvent) : option Scan :=
  let currentTime := currentTime sc + inject_Z (deltaTime event) * secondsPerTick in
  let unchanged := {| currentTime := currentTime;
                      activeNotes := activeNotes sc;
                      notes := notes sc |} in
  let noteOff (pitch : option Z) :=
    match pitch with
    | None => unchanged
    | Some pitch =>
        match mapGet (trackIndex, pitch) (activeNotes sc) with
        | None => unchanged
        | Some note =>
            {| currentTime := currentTime;
               activeNotes := mapDelete (trackIndex, pitch) (activeNotes sc);
               notes := notes sc
                        ++ [withDuration note (Qmax 0.05 (currentTime - time note))] |}
        end
    end in
  match type event, data event with
  | 9%Z, Bytes (pitch :: v :: _) =>
      if (0 <? v)%Z then
        Some {| currentTime := currentTime;
                activeNotes :=
                  mapSet (trackIndex, pitch)
                         {| id := (trackIndex, pitch, currentTime);
                            midi := pitch;
                            velocity := inject_Z v / 127;
                            time := currentTime;
                            track_ := trackIndex;
                            duration := 0 |}
                         (activeNotes sc);
                notes := notes sc |}
      else if (v =? 0)%Z then Some (noteOff (Some pitch))
      else Some unchanged
  | 8%Z, NoData => None
  | 8%Z, Number _ => Some (noteOff None)
  | 8%Z, Bytes bytes => Some (noteOff (head bytes))
  | _, _ => Some unchanged
  end.

(** The loop over the events of one track, which starts at time 0. *)
Definition scanTrack (secondsPerTick : Q) (trackIndex : nat)
           (acc : option (ActiveNotes * list LoadedNote)) (events : list MidiEvent)
  : option (ActiveNotes * list LoadedNote) :=
  '(active, notes) ← acc;
  sc ← foldl (fun sc event => sc ≫= fun sc => scanEvent secondsPerTick trackIndex sc event)
             (Some {| currentTime := 0; activeNotes := active; notes := notes |})
             events;
  Some (activeNotes sc, MidiLoad.notes sc).

Definition byTime (a b : LoadedNote) : bool := Qle_bool (time a) (time b).

(** Lines 3-82, once the file is parsed: the new values of
    [state.notes] and [state.duration], where [duration] is the value
    that [state.duration] had. *)
Definition loadMIDI (m : Parsed) (currentSpeed : Q) (duration : Q)
  : option (list LoadedNote * Q) :=
  let secondsPerTick := secondsPerTick m currentSpeed in
  '(active, notes) ←
    foldl (fun acc '(trackIndex, events) =>
             scanTrack secondsPerTick trackIndex acc events)
          (Some ([], [])) (imap pair (track m));
  let notes := notes ++ map (fun entry => withDuration (snd entry) 0.5) active in
  let notes := sortBy byTime notes in
  Some (notes,
        match last notes with
        | Some lastNote => time lastNote + MidiLoad.duration lastNote
        | None => duration
        end).
End MidiLoad.

(** ** js/audio.js: the copy of loadMIDI that transposes (lines 338-404) *)

Module TransposeLoad.
(** [toLowerCase] and [includes] on a file name of ASCII characters. *)
Definition toLowerAscii (c : Ascii.ascii) : Ascii.ascii :=
  let n := Ascii.nat_of_ascii c in
  if (65 <=? n)%nat && (n <=? 90)%nat then Ascii.ascii_of_nat (n + 32) else c.

Fixpoint toLowerCase (s : string) : string :=
  match s with
  | EmptyString => EmptyString
  | String c s' => String (toLowerAscii c) (toLowerCase s')
  end.

(** [filename.toLowerCase().includes('jumping machine')] *)
Definition isJumpingMachine (filename : string) : bool :=
  match String.index 0 "jumping machine" (toLowerCase filename) with
  | Some _ => true
  | None => false
  end.

(** Lines 351-364. *)
Definition extractNotes (isJumpingMachine : bool) (m : Midi.t) (TEMPO_MULTIPLIER : Q)
  : list Note.t :=
  concat (imap (fun trackIndex track =>
            imap (fun idx note =>
                    {| Note.id := (trackIndex, idx);
                       Note.midi := (raw_midi note
                                     + (if isJumpingMachine then -6 else 0))%Z;
                       Note.time := raw_time note * TEMPO_MULTIPLIER;
                       Note.duration := raw_duration note * TEMPO_MULTIPLIER;
                       Note.velocity := raw_velocity note;
                       Note.name := raw_name note;
                       Note.trackIndex := trackIndex |})
                 track)
          (Midi.tracks m)).

(** Lines 338-404, once the file is parsed; the loop that separates
    the melody is that of script.js. *)
Definition loadMIDI (filename : string) (m : Midi.t) (currentSpeed : Q) : option Score :=
  let TEMPO_MULTIPLIER := 1 / currentSpeed in
  let isJumpingMachine := isJumpingMachine filename in
  let notes := sortBy byTime (extractNotes isJumpingMachine m TEMPO_MULTIPLIER) in
  match separate (length notes) notes [] [] with
  | Some (melodyNotes, harmonyNotes) =>
      Some (if isJumpingMachine
            then {| sc_notes := sortBy byTime melodyNotes;
                    sc_melodyNotes := melodyNotes;
                    sc_harmonyNotes := [];
                    sc_duration := Midi.duration m * TEMPO_MULTIPLIER |}
            else {| sc_notes := notes;
                    sc_melodyNotes := melodyNotes;
                    sc_harmonyNotes := harmonyNotes;
                    sc_duration := Midi.duration m * TEMPO_MULTIPLIER |})
  | None => None
  end.
End TransposeLoad.

(** ** The predicates of the properties *)

(** Anchored grouping of a sequence of notes: a group is its first note
    and the notes after it that start within [epsilon] of that first
    note; the note after a group does not, and starts the next one. *)
Inductive Anchored : list Note.t -> list (list Note.t) -> Prop :=
| Anchored_nil : Anchored [] []
| Anchored_group first more rest gs :
    Forall (fun n => Qabs (Note.time n - Note.time first) <= epsilon) more ->
    (forall n rest', rest = n :: rest' ->
                     ~ Qabs (Note.time n - Note.time first) <= epsilon) ->
    Anchored rest gs ->
    Anchored (first :: more ++ rest) ((first :: more) :: gs).

(** [m] is the first note of highest pitch in [group]. *)
Definition firstHighest (group : list Note.t) (m : Note.t) : Prop :=
  exists pre post,
    group = pre ++ m :: post
    /\ Forall (fun n => (Note.midi n < Note.midi m)%Z) pre
    /\ Forall (fun n => (Note.midi n <= Note.midi m)%Z) post.

(** Sliding grouping: a note joins the group of the note before it if
    and only if it starts less than [timeWindow] from that note. *)
Inductive Sliding : list Note.t -> list (list Note.t) -> Prop :=
| Sliding_nil : Sliding [] []
| Sliding_one n : Sliding [n] [[n]]
| Sliding_join a b rest g gs :
    Qabs (Note.time b - Note.time a) < MidiJs.timeWindow ->
    Sliding (b :: rest) (g :: gs) ->
    Sliding (a :: b :: rest) ((a :: g) :: gs)
| Sliding_break a b rest gs :
    ~ Qabs (Note.time b - Note.time a) < MidiJs.timeWindow ->
    Sliding (b :: rest) gs ->
    Sliding (a :: b :: rest) ([a] :: gs).

(** What a run of the gate does when [touchedNote] is touched, from
    [s] to [s'], with [sound] the call made to the synth for a note:
    [hit] are the melody notes not yet played that start within 0.05 s
    of the touched note; each is marked played and sounded, and counted
    once. *)
Definition gateEffect (sound : Note.t -> Trigger) (touchedNote : Note.t)
           (s s' : State) : Prop :=
  let hit := simultaneousNotes touchedNote s in
  (forall n, In n hit <->
             In n (melodyNotes s)
             /\ (Note.id n ∉ playedMelodyIds s)
             /\ Qabs (Note.time n - Note.time touchedNote) <= 0.05)
  /\ (forall n, In n hit ->
                Note.id n ∈ playedMelodyIds s' /\ In (sound n) (synth s'))
  /\ playedMelodyIds s' = playedMelodyIds s ∪ list_to_set (map Note.id hit)
  /\ touchedMelodyCount s' = (touchedMelodyCount s + length hit)%nat
  /\ synth s' = synth s ++ map sound hit.




(** The credits of the score are backed by played notes: the melody
    notes have pairwise different ids, and no more notes were credited
    than there are ids in [playedMelodyIds]. *)
Definition creditsBounded (s : State) : Prop :=
  NoDup (map Note.id (melodyNotes s))
  /\ (touchedMelodyCount s <= size (playedMelodyIds s))%nat.

(** What the handlers of script.js keep true of the page: the gated
    pause is off, the keys of the keyboard are piano keys (MIDI 21 to
    108), only melody notes are marked played, and the score is a
    percentage. *)
Definition pageInvariant (s : State) : Prop :=
  gatedPause s = false
  /\ Forall (fun k => (21 <= key_midi k <= 108)%Z) (pianoKeys s)
  /\ playedMelodyIds s ⊆ list_to_set (map Note.id (melodyNotes s))
  /\ 0 <= finalScore s <= 100.

(** The page after the events [es], from [s]. *)
Definition runEvents (fetchMidi : string -> option Midi.t) (es : list Event)
           (s : State) : option State :=
  foldl (fun st e => st ≫= handle fetchMidi e) (Some s) es.

(** The note [n], [semitones] higher. *)
Definition transposed (semitones : Z) (n : Note.t) : Note.t :=
  {| Note.id := Note.id n;
     Note.midi := (Note.midi n + semitones)%Z;
     Note.time := Note.time n;
     Note.duration := Note.duration n;
     Note.velocity := Note.velocity n;
     Note.name := Note.name n;
     Note.trackIndex := Note.trackIndex n |}.

(** The decimal digit [d] as a character. *)
Definition digit (d : Z) : Ascii.ascii := Ascii.ascii_of_nat (48 + Z.to_nat d).

(** ** Sample data *)

Definition sampleNote (idx : nat) (pitch : Z) (start length : Q) : Note.t :=
  {| Note.id := (0%nat, idx); Note.midi := pitch; Note.time := start;
     Note.duration := length; Note.velocity := 0.8; Note.name := "sample";
     Note.trackIndex := 0 |}.

(** Three notes 40 ms apart: the third is 80 ms after the first. *)
Definition drifting : list Note.t :=
  [sampleNote 0 60 0 0.5; sampleNote 1 64 0.04 0.5; sampleNote 2 67 0.08 0.5].

Definition sampleRaw (pitch : Z) (start length : Q) : RawNote :=
  {| raw_midi := pitch; raw_time := start; raw_duration := length;
     raw_velocity := 0.8; raw_name := "sample" |}.

Definition sampleMidi : Midi.t :=
  {| Midi.tracks := [[sampleRaw 60 0 0.5; sampleRaw 64 0.04 0.5; sampleRaw 67 0.08 0.5];
                     [sampleRaw 48 0 0.05; sampleRaw 72 1 0.05]];
     Midi.duration := 2 |}.

Definition sampleServer (filename : string) : option Midi.t := Some sampleMidi.

(** A canvas 1000 px high, with keys 30 px wide laid out from key 45. *)
Definition samplePage : Page :=
  {| canvasHeight := 1000;
     canvasLeft := 0;
     keyRect := fun k => {| rect_left := inject_Z (30 * (k - 45));
                            rect_width := 30 |} |}.

Definition run (es : list Event) (s : State) : option State :=
  foldl (fun st e => st ≫= handle sampleServer e) (Some s) es.

Definition sampleLoaded : State :=
  default (blank samplePage) (init sampleServer samplePage).

(** A finger on the key of pitch 64, in the hit zone; play is clicked
    and the countdown runs out. *)
Definition samplePlaying : State :=
  default sampleLoaded
    (run [HandsResults [{| pt_x := 585; pt_y := 640 |}]; PlayClick;
          TimerFire 0; TimerFire 0; TimerFire 0; TimerFire 0] sampleLoaded).

(** Half a second into the song, before any frame has run. *)
Definition sampleMidway : State :=
  default samplePlaying (run [Clock 0.5] samplePlaying).

(** Two notes exactly 50 ms apart. *)
Definition apart50 : list Note.t :=
  [sampleNote 0 60 1 0.5; sampleNote 1 64 1.05 0.5].

(** A frame in which the finger touches the note, then the transport
    runs 16 ms past the end of the song. *)
Definition sampleOverrun : State :=
  default samplePlaying (run [Frame; Clock 2.016] samplePlaying).

(** The progress bar is moved so that the top of the note of pitch 72
    is exactly at the lower edge of the hit zone, 650 px, and a finger
    is on that edge, in the middle of the key. *)
Definition sampleBoundary : State :=
  default sampleLoaded
    (run [ProgressInput (2415 # 86);
          HandsResults [{| pt_x := 825; pt_y := 650 |}]] sampleLoaded).

(** A note of the sample file as [loadMIDI] makes it at speed 1. *)
Definition loadedNote (track idx : nat) (pitch : Z) (start length : Q) : Note.t :=
  {| Note.id := (track, idx); Note.midi := pitch;
     Note.time := start * (1 / 1); Note.duration := length * (1 / 1);
     Note.velocity := 0.8; Note.name := "sample"; Note.trackIndex := track |}.

(** A server on which every download fails. *)
Definition serverDown (filename : string) : option Midi.t := None.

(** The frame that ends the sample song has run. *)
Definition sampleEnded : State := animate sampleOverrun.

(** An audio context at 10 s with every sample loaded. *)
Definition sampleAudio : WebAudio.Audio :=
  {| WebAudio.audioContext := Some 10;
     WebAudio.hasBuffer := fun _ => true;
     WebAudio.startTime := 0;
     WebAudio.scheduledNotes := [];
     WebAudio.melodySources := [] |}.

(** No audio context: [initAudio] has not run, or it failed. *)
Definition sampleNoAudio : WebAudio.Audio :=
  {| WebAudio.audioContext := None;
     WebAudio.hasBuffer := fun _ => false;
     WebAudio.startTime := 0;
     WebAudio.scheduledNotes := [];
     WebAudio.melodySources := [] |}.

(** A file with one track at 480 ticks to the beat and no tempo
    event: key 60 goes down at tick 0 and up at tick 2880, key 64 goes
    down at tick 480 and up at tick 960. *)
Definition sampleParsed : MidiLoad.Parsed :=
  {| MidiLoad.timeDivision := 480;
     MidiLoad.track :=
       [[ {| MidiLoad.deltaTime := 0; MidiLoad.type := 9;
             MidiLoad.data := MidiLoad.Bytes [60; 100] |};
          {| MidiLoad.deltaTime := 480; MidiLoad.type := 9;
             MidiLoad.data := MidiLoad.Bytes [64; 100] |};
          {| MidiLoad.deltaTime := 480; MidiLoad.type := 8;
             MidiLoad.data := MidiLoad.Bytes [64; 0] |};
          {| MidiLoad.deltaTime := 1920; MidiLoad.type := 9;
             MidiLoad.data := MidiLoad.Bytes [60; 0] |} ]] |}%Z.

(** The event that sets 500000 microseconds to the beat. *)
Definition sampleTempoEvent : MidiLoad.MidiEvent :=
  {| MidiLoad.deltaTime := 0; MidiLoad.type := 81;
     MidiLoad.data := MidiLoad.Bytes [7; 161; 32] |}%Z.

Definition sampleTempoFile : MidiLoad.Parsed :=
  {| MidiLoad.timeDivision := 480; MidiLoad.track := [[sampleTempoEvent]] |}.

(** * Properties *)

(** ** Sorting *)

Section StableSortFacts.
Context {A : Type} (before : A -> A -> bool).

Lemma insertSorted_perm x l : Permutation (x :: l) (insertSorted before x l).
Proof.
  induction l as [|y l IH]; simpl; [reflexivity|].
  destruct (before x y); [reflexivity|].
  rewrite perm_swap. now constructor.
Qed.

Lemma sortBy_perm l : Permutation l (sortBy before l).
Proof.
  induction l as [|x l IH]; simpl; [constructor|].
  rewrite <- insertSorted_perm. now constructor.
Qed.

Lemma sortBy_length l : length (sortBy before l) = length l.
Proof. symmetry. apply Permutation_length, sortBy_perm. Qed.
End StableSortFacts.

(** ** The ids of a load are pairwise different *)

Lemma extractNotes_ids m k :
  map Note.id (extractNotes m k)
  = concat (imap (fun trackIndex (track : list RawNote) =>
                    imap (fun idx _ => (trackIndex, idx)) track)
                 (Midi.tracks m)).
Proof.
  unfold extractNotes. generalize (Midi.tracks m) as ts.
  assert (G : forall (ts : list (list RawNote)) (f : nat -> nat),
    map Note.id (concat (imap (fun trackIndex track =>
            imap (fun idx note =>
                    {| Note.id := (f trackIndex, idx);
                       Note.midi := raw_midi note;
                       Note.time := raw_time note * k;
                       Note.duration := raw_duration note * k;
                       Note.velocity := raw_velocity note;
                       Note.name := raw_name note;
                       Note.trackIndex := f trackIndex |})
                 track) ts))
    = concat (imap (fun trackIndex (track : list RawNote) =>
                    imap (fun idx _ => (f trackIndex, idx)) track) ts)).
  { induction ts as [|t ts IH]; intros f; [reflexivity|].
    rewrite !imap_cons. simpl. rewrite map_app. f_equal.
    - change (map Note.id ?l) with (Note.id <$> l). rewrite fmap_imap.
      apply imap_ext. reflexivity.
    - apply (IH (f ∘ S)). }
  intros ts. apply (G ts (fun i => i)).
Qed.

Lemma extractNotes_NoDup m k : NoDup (map Note.id (extractNotes m k)).
Proof.
  rewrite extractNotes_ids. apply NoDup_alt. intros i j [t n] Hi Hj.
  assert (L : forall (ts : list (list RawNote)) (f : nat -> nat) i t n,
    concat (imap (fun trackIndex (track : list RawNote) =>
                    imap (fun idx _ => (f trackIndex, idx)) track) ts) !! i
      = Some (t, n) ->
    exists a tr, ts !! a = Some tr /\ t = f a /\ (n < length tr)%nat
                 /\ i = (length (concat (take a ts)) + n)%nat).
  { clear. induction ts as [|tr ts IH]; intros f i t n H; [discriminate|].
    rewrite imap_cons in H. simpl in H.
    destruct (decide (i < length tr)%nat) as [Hlt|Hge].
    - rewrite lookup_app_l in H by (now rewrite length_imap).
      rewrite list_lookup_imap in H.
      destruct (tr !! i) eqn:E; simpl in H; [|discriminate].
      injection H as <- <-. exists 0%nat, tr. simpl. auto.
    - rewrite lookup_app_r in H by (rewrite length_imap; lia).
      rewrite length_imap in H.
      apply (IH (f ∘ S)) in H as (a & tr' & Ha & Ht & Hn & Hi).
      exists (S a), tr'. simpl. rewrite length_app.
      repeat split; auto. lia. }
  apply L in Hi as (a & tr & Ha & Ht & Hn & ->).
  apply L in Hj as (b & tr' & Hb & Ht' & Hn' & ->).
  simpl in *. congruence.
Qed.

(** ** script.js: the grouping loop *)

Lemma nearStart_iff g n :
  nearStart g n = true <-> Qabs (Note.time n - g) <= epsilon.
Proof. unfold nearStart. apply Qle_bool_iff. Qed.

Lemma nearStart_self n : nearStart (Note.time n) n = true.
Proof.
  apply nearStart_iff, Qabs_Qle_condition. unfold epsilon. split; lra.
Qed.

Lemma takeGroup_app a rest g r : takeGroup a rest = (g, r) -> rest = g ++ r.
Proof.
  revert g r. induction rest as [|n rest IH]; simpl; intros g r H.
  - now inversion H.
  - destruct (nearStart a n); [|now inversion H].
    destruct (takeGroup a rest) as [g' r'] eqn:E. inversion H; subst.
    simpl. f_equal. now apply IH.
Qed.

Lemma takeGroup_near a rest g r :
  takeGroup a rest = (g, r) ->
  Forall (fun n => Qabs (Note.time n - a) <= epsilon) g.
Proof.
  revert g r. induction rest as [|n rest IH]; simpl; intros g r H.
  - inversion H. constructor.
  - destruct (nearStart a n) eqn:N; [|inversion H; constructor].
    destruct (takeGroup a rest) as [g' r'] eqn:E. inversion H; subst.
    constructor; [now apply nearStart_iff | now apply (IH _ r)].
Qed.

Lemma takeGroup_stop a rest g r n r' :
  takeGroup a rest = (g, r) -> r = n :: r' ->
  ~ Qabs (Note.time n - a) <= epsilon.
Proof.
  revert g r. induction rest as [|m rest IH]; simpl; intros g r H ->.
  - inversion H.
  - destruct (nearStart a m) eqn:N.
    + destruct (takeGroup a rest) as [g' r1] eqn:E. inversion H; subst.
      now apply (IH g' (n :: r')).
    + inversion H; subst. intros Hc. apply nearStart_iff in Hc. congruence.
Qed.

Lemma takeGroup_first n rest :
  exists more after,
    takeGroup (Note.time n) (n :: rest) = (n :: more, after)
    /\ (length after <= length rest)%nat.
Proof.
  simpl. rewrite nearStart_self.
  destruct (takeGroup (Note.time n) rest) as [g r] eqn:E.
  exists g, r. split; [reflexivity|].
  apply takeGroup_app in E. subst. rewrite length_app. lia.
Qed.

Lemma groupsOf_total fuel rest :
  (length rest <= fuel)%nat ->
  exists gs, groupsOf fuel rest = Some gs /\ Anchored rest gs.
Proof.
  revert rest. induction fuel as [|fuel IH]; intros [|n rest] Hlen;
    simpl in Hlen; try lia.
  - exists []. split; [reflexivity | constructor].
  - exists []. split; [reflexivity | constructor].
  - destruct (takeGroup_first n rest) as (more & after & E & Hafter).
    cbn [groupsOf]. rewrite E.
    destruct (IH after) as (gs & Hgs & HA); [lia|].
    exists ((n :: more) :: gs). rewrite Hgs. split; [reflexivity|].
    pose proof (takeGroup_app _ _ _ _ E) as Happ.
    pose proof (takeGroup_near _ _ _ _ E) as Hnear.
    simpl in Happ. rewrite Happ. constructor; trivial.
    + now inversion Hnear.
    + intros m r' ->. eapply takeGroup_stop; eauto.
Qed.

Lemma Anchored_concat l gs : Anchored l gs -> concat gs = l.
Proof.
  induction 1 as [|first more rest gs _ _ _ IH]; simpl; [reflexivity|].
  now rewrite IH.
Qed.

Lemma pick_fold l : forall pre acc mid,
  Forall (fun n => (Note.midi n < Note.midi acc)%Z) pre ->
  Forall (fun n => (Note.midi n <= Note.midi acc)%Z) mid ->
  firstHighest (pre ++ acc :: mid ++ l) (pickMelody l acc).
Proof.
  unfold pickMelody.
  induction l as [|n l IH]; intros pre acc mid Hpre Hmid; simpl.
  - exists pre, mid. now rewrite app_nil_r.
  - destruct (Z.ltb_spec (Note.midi acc) (Note.midi n)) as [Hlt|Hge].
    + replace (pre ++ acc :: mid ++ n :: l)
        with ((pre ++ acc :: mid) ++ n :: [] ++ l)
        by (now rewrite <- app_assoc).
      apply IH; [|constructor].
      apply Forall_app. split; [|constructor].
      * eapply Forall_impl; [exact Hpre|]. simpl. intros; lia.
      * lia.
      * eapply Forall_impl; [exact Hmid|]. simpl. intros; lia.
    + replace (pre ++ acc :: mid ++ n :: l)
        with (pre ++ acc :: (mid ++ [n]) ++ l)
        by (now rewrite <- (app_assoc mid)).
      apply IH; [exact Hpre|].
      apply Forall_app. split; [exact Hmid|]. constructor; [lia|constructor].
Qed.

Lemma pickMelody_firstHighest g0 tl :
  firstHighest (g0 :: tl) (pickMelody (g0 :: tl) g0).
Proof.
  assert (E : pickMelody (g0 :: tl) g0 = pickMelody tl g0).
  { unfold pickMelody. simpl. now rewrite Z.ltb_irrefl. }
  rewrite E. apply (pick_fold tl [] g0 []); constructor.
Qed.

Lemma firstHighest_In g m : firstHighest g m -> In m g.
Proof. intros (pre & post & -> & _). apply in_or_app. right. now left. Qed.

(** The loop of [loadMIDI] in terms of the groups it goes through. *)
Lemma separate_groups fuel rest gs :
  groupsOf fuel rest = Some gs ->
  forall mel har, exists ms,
    separate fuel rest mel har
    = Some (mel ++ ms, har ++ concat (zip_with (fun g m => others m g) gs ms))
    /\ Forall2 firstHighest gs ms.
Proof.
  revert rest gs. induction fuel as [|fuel IH]; intros [|n rest] gs H mel har;
    cbn [groupsOf separate] in *; try discriminate.
  - inversion H; subst. exists []. simpl. rewrite !app_nil_r. now split.
  - inversion H; subst. exists []. simpl. rewrite !app_nil_r. now split.
  - destruct (takeGroup (Note.time n) (n :: rest)) as [[|g0 tl] after];
      [discriminate|].
    destruct (groupsOf fuel after) as [gs'|] eqn:E; [|discriminate].
    inversion H; subst. clear H.
    destruct (IH _ _ E (mel ++ [pickMelody (g0 :: tl) g0])
                 (har ++ others (pickMelody (g0 :: tl) g0) (g0 :: tl)))
      as (ms & Hsep & HF).
    exists (pickMelody (g0 :: tl) g0 :: ms). rewrite Hsep. split.
    + cbn [zip_with concat]. now rewrite <- !app_assoc.
    + constructor; [apply pickMelody_firstHighest | exact HF].
Qed.

Lemma others_perm g m :
  NoDup (map Note.id g) -> In m g -> Permutation g (m :: others m g).
Proof.
  unfold others, sameId. induction g as [|n g IH]; simpl; intros ND Hin; [tauto|].
  apply NoDup_cons in ND as [Hn ND].
  assert (Hfresh : forall x, In x g -> Note.id x <> Note.id n).
  { intros x Hx Heq. apply Hn. rewrite <- Heq.
    apply list_elem_of_In, in_map, Hx. }
  destruct Hin as [->|Hin].
  - rewrite bool_decide_eq_true_2 by reflexivity. simpl. constructor.
    rewrite forallb_filter_id; [reflexivity|].
    apply forallb_forall. intros x Hx.
    apply negb_true_iff, bool_decide_eq_false_2. now apply Hfresh.
  - rewrite bool_decide_eq_false_2.
    + simpl. rewrite perm_swap. constructor. now apply IH.
    + intros Heq. now apply (Hfresh m).
Qed.

Lemma groups_partition gs ms :
  Forall2 firstHighest gs ms ->
  NoDup (map Note.id (concat gs)) ->
  Permutation (concat gs) (ms ++ concat (zip_with (fun g m => others m g) gs ms)).
Proof.
  induction 1 as [|g m gs ms Hm _ IH]; simpl; intros ND; [constructor|].
  rewrite map_app in ND. apply NoDup_app in ND as (NDg & _ & NDgs).
  rewrite (others_perm g m NDg (firstHighest_In _ _ Hm)) at 1.
  simpl. constructor. rewrite (IH NDgs) at 1.
  rewrite !app_assoc. apply Permutation_app_tail, Permutation_app_comm.
Qed.

(** [parseScore] always comes back, and its result is read off the
    anchored groups of the sorted notes. *)
Lemma parseScore_groups m speed :
  let notes := sortBy byTime (extractNotes m (1 / speed)) in
  exists gs mel,
    groupsOf (length notes) notes = Some gs
    /\ Anchored notes gs
    /\ Forall2 firstHighest gs mel
    /\ parseScore m speed
       = Some {| sc_notes := notes;
                 sc_melodyNotes := mel;
                 sc_harmonyNotes := concat (zip_with (fun g m => others m g) gs mel);
                 sc_duration := Midi.duration m * (1 / speed) |}.
Proof.
  intros notes.
  destruct (groupsOf_total (length notes) notes) as (gs & Hgs & HA); [lia|].
  destruct (separate_groups _ _ _ Hgs [] []) as (ms & Hsep & HF).
  exists gs, ms. repeat split; trivial.
  unfold parseScore. fold notes. now rewrite Hsep.
Qed.

Lemma sorted_ids_NoDup m k :
  NoDup (map Note.id (sortBy byTime (extractNotes m k))).
Proof.
  rewrite <- (sortBy_perm byTime). apply extractNotes_NoDup.
Qed.

Lemma NoDup_ids_NoDup (l : list Note.t) : NoDup (map Note.id l) -> NoDup l.
Proof.
  induction l as [|n l IH]; simpl; intros ND; [constructor|].
  apply NoDup_cons in ND as [Hn ND]. constructor; [|now apply IH].
  intros Hin. apply Hn. apply list_elem_of_In, in_map. now apply list_elem_of_In.
Qed.

(** ** js/midi.js: the grouping scan and the split *)

Lemma pushGroup_concat g gs : concat (MidiJs.pushGroup g gs) = concat gs ++ g.
Proof.
  unfold MidiJs.pushGroup. destruct g; simpl; [now rewrite app_nil_r|].
  rewrite concat_app. simpl. now rewrite app_nil_r.
Qed.

Lemma pushGroup_nonempty g gs :
  Forall (fun g => g <> []) gs -> Forall (fun g => g <> []) (MidiJs.pushGroup g gs).
Proof.
  unfold MidiJs.pushGroup. destruct g; simpl; intros H; [exact H|].
  apply Forall_app. split; [exact H|]. constructor; [discriminate|constructor].
Qed.

Lemma scan_concat notes : forall sc,
  let sc' := fold_left MidiJs.scanNote notes sc in
  concat (MidiJs.groups sc') ++ MidiJs.currentGroup sc'
  = (concat (MidiJs.groups sc) ++ MidiJs.currentGroup sc) ++ notes
  /\ (Forall (fun g => g <> []) (MidiJs.groups sc) ->
      Forall (fun g => g <> []) (MidiJs.groups sc')).
Proof.
  induction notes as [|n notes IH]; intros sc; simpl.
  - rewrite app_nil_r. auto.
  - destruct (IH (MidiJs.scanNote sc n)) as [E F]. split.
    + rewrite E. unfold MidiJs.scanNote.
      destruct (_ || _); simpl.
      * now rewrite <- !app_assoc.
      * rewrite pushGroup_concat. now rewrite <- !app_assoc.
    + intros H. apply F. unfold MidiJs.scanNote.
      destruct (_ || _); simpl; [exact H | now apply pushGroup_nonempty].
Qed.

Lemma groupNotes_concat notes : concat (MidiJs.groupNotes notes) = notes.
Proof.
  unfold MidiJs.groupNotes. rewrite pushGroup_concat.
  now rewrite (proj1 (scan_concat notes _)).
Qed.

Lemma groupNotes_nonempty notes :
  Forall (fun g => g <> []) (MidiJs.groupNotes notes).
Proof.
  unfold MidiJs.groupNotes. apply pushGroup_nonempty.
  apply (proj2 (scan_concat notes _)). constructor.
Qed.

Lemma sort_head_firstHighest g : forall hd tl,
  sortBy byPitchDesc g = hd :: tl -> firstHighest g hd.
Proof.
  induction g as [|x g IH]; intros hd tl H; [discriminate|].
  simpl in H. destruct (sortBy byPitchDesc g) as [|y l'] eqn:E.
  - assert (g = []) as ->.
    { apply length_zero_iff_nil. rewrite <- (sortBy_length byPitchDesc), E.
      reflexivity. }
    simpl in H. inversion H; subst. exists [], []. repeat split; constructor.
  - destruct (IH y l' eq_refl) as (pre & post & -> & Hpre & Hpost).
    simpl in H. unfold byPitchDesc in H at 1.
    destruct (Z.leb_spec (Note.midi y) (Note.midi x)) as [Hle|Hlt];
      injection H as Hhd _; subst hd.
    + exists [], (pre ++ y :: post). repeat split; [constructor|].
      apply Forall_app. split; [|constructor].
      * eapply Forall_impl; [exact Hpre|]. simpl. intros; lia.
      * exact Hle.
      * eapply Forall_impl; [exact Hpost|]. simpl. intros; lia.
    + exists (x :: pre), post. repeat split; [|exact Hpost].
      constructor; [lia | exact Hpre].
Qed.

Lemma splitGroup_sorted acc g :
  g <> [] ->
  exists hd tl,
    sortBy byPitchDesc g = hd :: tl
    /\ MidiJs.splitGroup acc g = (fst acc ++ [hd], snd acc ++ tl).
Proof.
  intros Hg. destruct g as [|a [|b g]]; [congruence| |].
  - exists a, []. simpl. now rewrite app_nil_r.
  - destruct (sortBy byPitchDesc (a :: b :: g)) as [|hd tl] eqn:E.
    + apply (f_equal length) in E. rewrite sortBy_length in E. discriminate.
    + exists hd, tl. split; [reflexivity|].
      unfold MidiJs.splitGroup. now rewrite E.
Qed.

Lemma split_fold gs : forall acc,
  Forall (fun g => g <> []) gs ->
  exists ms hs,
    fold_left MidiJs.splitGroup gs acc = (fst acc ++ ms, snd acc ++ hs)
    /\ Forall2 firstHighest gs ms
    /\ Permutation (concat gs) (ms ++ hs).
Proof.
  induction gs as [|g gs IH]; intros acc HF.
  - exists [], []. simpl. rewrite !app_nil_r. repeat split; try constructor.
    now destruct acc.
  - apply Forall_cons in HF as [Hg HF].
    destruct (splitGroup_sorted acc g Hg) as (hd & tl & Hs & E).
    destruct (IH (fst acc ++ [hd], snd acc ++ tl) HF) as (ms & hs & E' & F2 & P).
    exists (hd :: ms), (tl ++ hs). simpl. rewrite E, E'. simpl.
    rewrite <- !app_assoc. repeat split.
    + constructor; [now apply (sort_head_firstHighest g hd tl) | exact F2].
    + rewrite (sortBy_perm byPitchDesc g) at 1. rewrite Hs. simpl.
      constructor. rewrite P, !app_assoc.
      apply Permutation_app_tail, Permutation_app_comm.
Qed.

Lemma qltb_iff x y : Qltb x y = true <-> x < y.
Proof.
  unfold Qltb. rewrite negb_true_iff, <- not_true_iff_false, Qle_bool_iff.
  split; [apply Qnot_le_lt | apply Qlt_not_le].
Qed.

Lemma qltb_false_iff x y : Qltb x y = false <-> y <= x.
Proof.
  unfold Qltb. rewrite negb_false_iff. apply Qle_bool_iff.
Qed.

(** The scan of js/midi.js from a state whose open group ends in [a]. *)
Lemma scan_sliding notes : forall sc before a,
  MidiJs.currentGroup sc = before ++ [a] ->
  MidiJs.currentGroupTime sc = Note.time a ->
  0 <= Note.time a ->
  Forall (fun n => 0 <= Note.time n) notes ->
  let sc' := fold_left MidiJs.scanNote notes sc in
  exists g gs,
    Sliding (a :: notes) (g :: gs)
    /\ MidiJs.pushGroup (MidiJs.currentGroup sc') (MidiJs.groups sc')
       = MidiJs.groups sc ++ (before ++ g) :: gs.
Proof.
  induction notes as [|b notes IH]; intros sc before a Hcg Ht Ha Hnn; simpl.
  - exists [a], []. split; [constructor|].
    rewrite Hcg. unfold MidiJs.pushGroup. rewrite length_app. simpl.
    replace (0 <? length before + 1)%nat with true; [reflexivity|].
    symmetry. apply Nat.ltb_lt. lia.
  - apply Forall_cons in Hnn as [Hb Hnn].
    assert (Hstep : MidiJs.scanNote sc b
      = if Qltb (Qabs (Note.time b - Note.time a)) MidiJs.timeWindow
        then {| MidiJs.groups := MidiJs.groups sc;
                MidiJs.currentGroup := MidiJs.currentGroup sc ++ [b];
                MidiJs.currentGroupTime := Note.time b |}
        else {| MidiJs.groups :=
                  MidiJs.pushGroup (MidiJs.currentGroup sc) (MidiJs.groups sc);
                MidiJs.currentGroup := [b];
                MidiJs.currentGroupTime := Note.time b |}).
    { unfold MidiJs.scanNote. rewrite Ht.
      replace (Qltb (Note.time a) 0) with false
        by (symmetry; now apply qltb_false_iff).
      reflexivity. }
    rewrite Hstep. clear Hstep.
    destruct (Qltb _ MidiJs.timeWindow) eqn:W.
    + apply qltb_iff in W.
      destruct (IH {| MidiJs.groups := MidiJs.groups sc;
                      MidiJs.currentGroup := MidiJs.currentGroup sc ++ [b];
                      MidiJs.currentGroupTime := Note.time b |}
                   (before ++ [a]) b) as (g & gs & HS & E); simpl; trivial.
      { now rewrite Hcg. }
      exists (a :: g), gs. split; [now constructor|].
      rewrite E. simpl. now rewrite <- app_assoc.
    + assert (W' : ~ Qabs (Note.time b - Note.time a) < MidiJs.timeWindow).
      { intros Hc. apply qltb_iff in Hc. congruence. }
      destruct (IH {| MidiJs.groups :=
                        MidiJs.pushGroup (MidiJs.currentGroup sc) (MidiJs.groups sc);
                      MidiJs.currentGroup := [b];
                      MidiJs.currentGroupTime := Note.time b |}
                   [] b) as (g & gs & HS & E); simpl; trivial.
      exists [a], (g :: gs). split; [now constructor|].
      rewrite E. simpl. rewrite Hcg. unfold MidiJs.pushGroup.
      rewrite length_app. simpl.
      replace (0 <? length before + 1)%nat with true
        by (symmetry; apply Nat.ltb_lt; lia).
      now rewrite <- app_assoc.
Qed.

Lemma groupNotes_sliding notes :
  Forall (fun n => 0 <= Note.time n) notes ->
  Sliding notes (MidiJs.groupNotes notes).
Proof.
  destruct notes as [|n notes]; intros H; [constructor|].
  apply Forall_cons in H as [Hn H].
  assert (H0 : MidiJs.scanNote
                 {| MidiJs.groups := []; MidiJs.currentGroup := [];
                    MidiJs.currentGroupTime := -1 |} n
               = {| MidiJs.groups := []; MidiJs.currentGroup := [n];
                    MidiJs.currentGroupTime := Note.time n |}) by reflexivity.
  unfold MidiJs.groupNotes. cbn [fold_left]. rewrite H0.
  destruct (scan_sliding notes
              {| MidiJs.groups := []; MidiJs.currentGroup := [n];
                 MidiJs.currentGroupTime := Note.time n |} [] n)
    as (g & gs & HS & E); simpl; trivial.
  simpl in E. rewrite E. exact HS.
Qed.

Lemma Anchored_head l first more gs :
  Anchored l ((first :: more) :: gs) ->
  Forall (fun n => Qabs (Note.time n - Note.time first) <= epsilon) more.
Proof. intros H. inversion H; subst. assumption. Qed.

Lemma Anchored_unique l gs : Anchored l gs -> forall gs', Anchored l gs' -> gs = gs'.
Proof.
  induction 1 as [|first more rest gs Hmore Hstop _ IH]; intros gs' H'.
  - inversion H'. reflexivity.
  - inversion H' as [|first' more' rest' gs1 Hmore' Hstop' HA' [Hf Hl]]; subst.
    assert (E : more = more' /\ rest = rest').
    { clear - Hl Hmore Hstop Hmore' Hstop'. revert more' Hl Hmore'.
      induction more as [|x more IHm]; intros [|y more'] Hl Hmore'; simpl in Hl.
      - auto.
      - subst rest. apply Forall_cons in Hmore' as [Hy _].
        exfalso. eapply Hstop; eauto.
      - subst rest'. apply Forall_cons in Hmore as [Hx _].
        exfalso. eapply Hstop'; eauto.
      - injection Hl as -> Hl.
        apply Forall_cons in Hmore as [_ Hmore].
        apply Forall_cons in Hmore' as [_ Hmore'].
        destruct (IHm Hmore more' Hl Hmore') as [-> ->]. auto. }
    destruct E as [-> ->]. f_equal. now apply IH.
Qed.

(** ** The melody/harmony split *)

(** X30. In [loadMIDI] of script.js the sorted notes are grouped by
    one left-to-right scan in which a note joins the current group if
    and only if it starts within [epsilon] = 0.05 s of the first note
    of the group: the loop always ends, the groups it goes through are
    the anchored grouping of the sorted notes, there is no other
    anchored grouping, and the melody and the harmony are taken from
    these groups. [separateMelodyHarmony] of js/midi.js, on notes that
    do not start before 0, groups otherwise: a note is compared with
    the note before it, with the strict test [< 0.05], so its groups
    are the sliding grouping. *)
Theorem grouping_by_anchor (m : Midi.t) (speed : Q) (parsed : list Note.t) :
  Forall (fun n => 0 <= Note.time n) parsed ->
  (exists sc gs,
      parseScore m speed = Some sc
      /\ groupsOf (length (sc_notes sc)) (sc_notes sc) = Some gs
      /\ Anchored (sc_notes sc) gs
      /\ (forall gs', Anchored (sc_notes sc) gs' -> gs' = gs)
      /\ Forall2 firstHighest gs (sc_melodyNotes sc)
      /\ sc_harmonyNotes sc
         = concat (zip_with (fun g m => others m g) gs (sc_melodyNotes sc)))
  /\ Sliding parsed (MidiJs.groupNotes parsed).
Proof.
  intros Hnn. split; [|now apply groupNotes_sliding].
  destruct (parseScore_groups m speed) as (gs & mel & Hgs & HA & HF & Hp).
  eexists; exists gs. split; [exact Hp|]. simpl. repeat split; trivial.
  intros gs' HA'. symmetry. eapply Anchored_unique; eauto.
Qed.

Lemma grouping_by_anchor_witness :
  Forall (fun n => 0 <= Note.time n) drifting
  /\ ((exists sc gs,
          parseScore sampleMidi 1 = Some sc
          /\ groupsOf (length (sc_notes sc)) (sc_notes sc) = Some gs
          /\ Anchored (sc_notes sc) gs
          /\ (forall gs', Anchored (sc_notes sc) gs' -> gs' = gs)
          /\ Forall2 firstHighest gs (sc_melodyNotes sc)
          /\ sc_harmonyNotes sc
             = concat (zip_with (fun g m => others m g) gs (sc_melodyNotes sc)))
      /\ Sliding drifting (MidiJs.groupNotes drifting)).
Proof.
  assert (H : Forall (fun n => 0 <= Note.time n) drifting).
  { repeat constructor; vm_compute; discriminate. }
  split; [exact H | exact (grouping_by_anchor sampleMidi 1 drifting H)].
Defined.

(** C1, at an input where js/midi.js departs from it. Three sorted
    notes start at 0, 0.04 and 0.08 s. [separateMelodyHarmony] of
    js/midi.js compares each note with the note before it, so it keeps
    the three in one group, though the third starts 0.08 s after the
    first: its grouping is not the grouping anchored to the first
    member. The loop of script.js starts a new group at the third. *)
Lemma midi_js_grouping_slides :
  MidiJs.groupNotes drifting = [drifting]
  /\ ~ Anchored drifting (MidiJs.groupNotes drifting)
  /\ groupsOf 3 drifting = Some [firstn 2 drifting; skipn 2 drifting].
Proof.
  split; [reflexivity|]. split; [|reflexivity].
  change (MidiJs.groupNotes drifting) with [drifting]. unfold drifting.
  intros H. apply Anchored_head in H.
  apply Forall_cons in H as [_ H]. apply Forall_cons in H as [Hthird _].
  vm_compute in Hthird. now apply Hthird.
Qed.

Lemma parseScore_partition m speed :
  exists sc,
    parseScore m speed = Some sc
    /\ sc_notes sc = sortBy byTime (extractNotes m (1 / speed))
    /\ sc_duration sc = Midi.duration m * (1 / speed)
    /\ Permutation (sc_notes sc) (sc_melodyNotes sc ++ sc_harmonyNotes sc)
    /\ NoDup (map Note.id (sc_melodyNotes sc ++ sc_harmonyNotes sc)).
Proof.
  destruct (parseScore_groups m speed) as (gs & mel & Hgs & HA & HF & Hp).
  eexists. split; [exact Hp|]. simpl. do 2 (split; [reflexivity|]).
  pose proof (sorted_ids_NoDup m (1 / speed)) as ND.
  set (notes := sortBy byTime (extractNotes m (1 / speed))) in *.
  set (har := concat (zip_with (fun g m => others m g) gs mel)).
  assert (P : Permutation notes (mel ++ har)).
  { rewrite <- (Anchored_concat _ _ HA) at 1. apply groups_partition; trivial.
    now rewrite (Anchored_concat _ _ HA). }
  split; [exact P | now rewrite <- P].
Qed.

(** C2. Every note of a loaded score is in exactly one of the two
    parts. For [loadMIDI] of script.js, whatever the file and the speed:
    the lengths add up, melody and harmony together are a rearrangement
    of the notes, and no note (indeed no id) occurs twice in them, so the
    two are disjoint. For [separateMelodyHarmony] of js/midi.js, whatever
    the parsed notes: the lengths add up, melody and harmony together are
    a rearrangement of the notes, and they are disjoint when the notes
    are pairwise different. *)
Theorem melody_harmony_partition (m : Midi.t) (speed : Q) (parsed : list Note.t) :
  (exists sc,
      parseScore m speed = Some sc
      /\ (length (sc_melodyNotes sc) + length (sc_harmonyNotes sc)
          = length (sc_notes sc))%nat
      /\ Permutation (sc_notes sc) (sc_melodyNotes sc ++ sc_harmonyNotes sc)
      /\ NoDup (map Note.id (sc_melodyNotes sc ++ sc_harmonyNotes sc))
      /\ (forall n, In n (sc_melodyNotes sc) -> ~ In n (sc_harmonyNotes sc)))
  /\ (let mel := fst (MidiJs.separateMelodyHarmony parsed) in
      let har := snd (MidiJs.separateMelodyHarmony parsed) in
      (length mel + length har = length parsed)%nat
      /\ Permutation parsed (mel ++ har)
      /\ (NoDup parsed -> forall n, In n mel -> ~ In n har)).
Proof.
  split.
  - destruct (parseScore_partition m speed) as (sc & Hp & _ & _ & P & ND).
    exists sc. repeat split; trivial.
    + rewrite <- length_app. symmetry. now apply Permutation_length.
    + intros n Hm Hh. apply NoDup_ids_NoDup, NoDup_app in ND as (_ & Hd & _).
      apply (Hd n); now apply list_elem_of_In.
  - unfold MidiJs.separateMelodyHarmony.
    destruct (split_fold (MidiJs.groupNotes parsed) ([], [])
                (groupNotes_nonempty parsed)) as (ms & hs & E & _ & P).
    rewrite E. simpl. rewrite groupNotes_concat in P. repeat split; trivial.
    + rewrite <- length_app. symmetry. now apply Permutation_length.
    + intros ND n Hm Hh. rewrite P in ND. apply NoDup_app in ND as (_ & Hd & _).
      apply (Hd n); now apply list_elem_of_In.
Qed.

Lemma firstHighest_max g m n :
  firstHighest g m -> In n g -> (Note.midi n <= Note.midi m)%Z.
Proof.
  intros (pre & post & -> & Hpre & Hpost) Hin.
  rewrite Forall_forall in Hpre, Hpost.
  apply in_app_or in Hin as [Hin|[<-|Hin]].
  - apply list_elem_of_In, Hpre in Hin. lia.
  - lia.
  - now apply list_elem_of_In, Hpost in Hin.
Qed.

(** C3. In every group of notes that start together, the note taken as
    melody has a pitch at least that of every note of the group, and it
    is the first note of that pitch in the order of the sorted notes:
    all notes before it in the group are strictly lower. This holds for
    the groups of [loadMIDI] of script.js, whatever the file and the
    speed, and for those of [separateMelodyHarmony] of js/midi.js. *)
Theorem melody_is_first_highest (m : Midi.t) (speed : Q) (parsed : list Note.t) :
  (exists sc gs,
      parseScore m speed = Some sc
      /\ groupsOf (length (sc_notes sc)) (sc_notes sc) = Some gs
      /\ Anchored (sc_notes sc) gs
      /\ Forall2 (fun group melody =>
                    firstHighest group melody
                    /\ forall n, In n group -> (Note.midi n <= Note.midi melody)%Z)
                 gs (sc_melodyNotes sc))
  /\ Forall2 (fun group melody =>
                firstHighest group melody
                /\ forall n, In n group -> (Note.midi n <= Note.midi melody)%Z)
             (MidiJs.groupNotes parsed)
             (fst (MidiJs.separateMelodyHarmony parsed)).
Proof.
  assert (W : forall gs ms, Forall2 firstHighest gs ms ->
    Forall2 (fun group melody =>
               firstHighest group melody
               /\ forall n, In n group -> (Note.midi n <= Note.midi melody)%Z) gs ms).
  { intros gs ms H. eapply Forall2_impl; [exact H|]. simpl.
    intros g x Hx. split; [exact Hx|]. intros n. now apply firstHighest_max. }
  split.
  - destruct (parseScore_groups m speed) as (gs & mel & Hgs & HA & HF & Hp).
    eexists; exists gs. split; [exact Hp|]. simpl. split; [exact Hgs|].
    split; [exact HA|]. now apply W.
  - unfold MidiJs.separateMelodyHarmony.
    destruct (split_fold (MidiJs.groupNotes parsed) ([], [])
                (groupNotes_nonempty parsed)) as (ms & hs & E & HF & _).
    rewrite E. simpl. now apply W.
Qed.

(** ** The melody gate *)

(** Playing the notes of a list one after the other, for any function
    that sounds a note, marks it and counts it as [playMelodyNote] does. *)
Lemma play_fold (play : Note.t -> State -> State) (sound : Note.t -> Trigger) :
  (forall n s,
      playedMelodyIds (play n s) = playedMelodyIds s ∪ {[ Note.id n ]}
      /\ touchedMelodyCount (play n s) = S (touchedMelodyCount s)
      /\ synth (play n s) = synth s ++ [sound n]
      /\ melodyNotes (play n s) = melodyNotes s) ->
  forall l s,
    let s' := fold_left (fun st note => play note st) l s in
    playedMelodyIds s' = playedMelodyIds s ∪ list_to_set (map Note.id l)
    /\ touchedMelodyCount s' = (touchedMelodyCount s + length l)%nat
    /\ synth s' = synth s ++ map sound l
    /\ melodyNotes s' = melodyNotes s.
Proof.
  intros Hplay. induction l as [|n l IH]; intros s; simpl.
  - rewrite app_nil_r, (right_id_L ∅ (∪)). repeat split. lia.
  - destruct (IH (play n s)) as (Hp & Ht & Hs & Hm).
    destruct (Hplay n s) as (Hp1 & Ht1 & Hs1 & Hm1).
    rewrite Hp, Ht, Hs, Hm, Hp1, Ht1, Hs1, Hm1.
    rewrite <- app_assoc, (assoc_L (∪)). repeat split. lia.
Qed.

Lemma playMelodyNote_fold l s :
  let s' := fold_left (fun st note => playMelodyNote note st) l s in
  playedMelodyIds s' = playedMelodyIds s ∪ list_to_set (map Note.id l)
  /\ touchedMelodyCount s' = (touchedMelodyCount s + length l)%nat
  /\ synth s' = synth s ++ map (fun n => attackRelease n (Note.duration n)) l
  /\ melodyNotes s' = melodyNotes s.
Proof. apply play_fold. intros n s0. repeat split. Qed.

Lemma audio_playMelodyNote_fold l s :
  let s' := fold_left (fun st note => AudioJs.playMelodyNote note st) l s in
  playedMelodyIds s' = playedMelodyIds s ∪ list_to_set (map Note.id l)
  /\ touchedMelodyCount s' = (touchedMelodyCount s + length l)%nat
  /\ synth s'
     = synth s ++ map (fun n => attackRelease n (Qmax 0.1 (Note.duration n))) l
  /\ melodyNotes s' = melodyNotes s.
Proof. apply play_fold. intros n s0. repeat split. Qed.

Lemma simultaneousNotes_In touched s n :
  In n (simultaneousNotes touched s)
  <-> In n (melodyNotes s)
      /\ (Note.id n ∉ playedMelodyIds s)
      /\ Qabs (Note.time n - Note.time touched) <= epsilon.
Proof.
  unfold simultaneousNotes. rewrite filter_In, andb_true_iff, negb_true_iff.
  rewrite bool_decide_eq_false, Qle_bool_iff. tauto.
Qed.

Lemma gateEffect_intro sound touched s s' :
  playedMelodyIds s'
  = playedMelodyIds s ∪ list_to_set (map Note.id (simultaneousNotes touched s)) ->
  touchedMelodyCount s'
  = (touchedMelodyCount s + length (simultaneousNotes touched s))%nat ->
  synth s' = synth s ++ map sound (simultaneousNotes touched s) ->
  gateEffect sound touched s s'.
Proof.
  intros Hp Ht Hs. unfold gateEffect.
  split; [intros n; apply simultaneousNotes_In|].
  split; [|auto]. intros n Hn. split.
  - rewrite Hp. apply elem_of_union_r, elem_of_list_to_set.
    apply list_elem_of_In, in_map, Hn.
  - rewrite Hs. apply in_or_app. right. apply (in_map sound), Hn.
Qed.

(** C4. When the melody gate runs, that is in a frame in which the game
    is playing or held at the gate, and the hit detector gives a note:
    every melody note that is not yet played and starts within 0.05 s
    of that note is marked played and its sound is triggered, and
    [touchedMelodyCount] goes up by one for each such note; these are
    the only ids added and the only sounds triggered. This holds for the
    gate of script.js and for that of js/game.js, which differ in the
    duration they give to the sound. *)
Theorem gate_plays_simultaneous (s : State) (touchedNote : Note.t) :
  isPlaying s || gatedPause s = true ->
  getTouchedNote s = Some touchedNote ->
  gateEffect (fun n => attackRelease n (Note.duration n))
             touchedNote s (handleMelodyGate s)
  /\ gateEffect (fun n => attackRelease n (Qmax 0.1 (Note.duration n)))
                touchedNote s (GameJs.handleMelodyGate s).
Proof.
  intros Hmode Htouched. split.
  - destruct (playMelodyNote_fold (simultaneousNotes touchedNote s) s)
      as (Hp & Ht & Hs & _).
    unfold handleMelodyGate. rewrite Htouched.
    destruct (gatedPause s); [now apply gateEffect_intro|].
    rewrite orb_false_r in Hmode. rewrite Hmode. now apply gateEffect_intro.
  - destruct (audio_playMelodyNote_fold (simultaneousNotes touchedNote s) s)
      as (Hp & Ht & Hs & _).
    unfold GameJs.handleMelodyGate. rewrite Htouched.
    destruct (gatedPause s); [now apply gateEffect_intro|].
    rewrite orb_false_r in Hmode. rewrite Hmode. now apply gateEffect_intro.
Qed.

(** The scenario of the specification: the melody notes of pitch 64 and
    67 start 40 ms apart, the finger is on the first; one run of the
    gate plays both. *)
Lemma gate_plays_simultaneous_witness :
  (isPlaying samplePlaying || gatedPause samplePlaying = true
   /\ getTouchedNote samplePlaying = Some (loadedNote 0 1 64 0.04 0.5))
  /\ simultaneousNotes (loadedNote 0 1 64 0.04 0.5) samplePlaying
     = [loadedNote 0 1 64 0.04 0.5; loadedNote 0 2 67 0.08 0.5]
  /\ touchedMelodyCount (handleMelodyGate samplePlaying)
     = (touchedMelodyCount samplePlaying + 2)%nat
  /\ synth (handleMelodyGate samplePlaying)
     = synth samplePlaying
       ++ [attackRelease (loadedNote 0 1 64 0.04 0.5) (0.5 * (1 / 1));
           attackRelease (loadedNote 0 2 67 0.08 0.5) (0.5 * (1 / 1))].
Proof.
  assert (Hmode : isPlaying samplePlaying || gatedPause samplePlaying = true)
    by (vm_compute; reflexivity).
  assert (Htouched : getTouchedNote samplePlaying
                     = Some (loadedNote 0 1 64 0.04 0.5))
    by (vm_compute; reflexivity).
  pose proof (gate_plays_simultaneous samplePlaying _ Hmode Htouched)
    as ((_ & _ & _ & Hcount & Hsynth) & _).
  split; [split; assumption|]. split; [vm_compute; reflexivity|].
  split; [exact Hcount | exact Hsynth].
Defined.

(** The same in a whole frame: [animate] runs the gate. *)
Example one_touch_two_notes :
  let s' := animate samplePlaying in
  touchedMelodyCount samplePlaying = 0%nat
  /\ touchedMelodyCount s' = 2%nat
  /\ elements (playedMelodyIds s') = [(0%nat, 2%nat); (0%nat, 1%nat)]
  /\ map tr_midi (synth s') = [64; 67]%Z.
Proof. vm_compute. repeat split. Qed.

(** ** The frame callback *)

Lemma autoMark_fold (l : list Note.t) : forall s,
  let s' :=
    fold_left
      (fun st note =>
         if negb (bool_decide (Note.id note ∈ playedMelodyIds st))
            && Qltb (Note.time note) (currentTime st - 0.1)
         then set_playedMelodyIds (playedMelodyIds st ∪ {[ Note.id note ]}) st
         else st) l s in
  touchedMelodyCount s' = touchedMelodyCount s
  /\ currentTime s' = currentTime s
  /\ melodyNotes s' = melodyNotes s
  /\ isPlaying s' = isPlaying s
  /\ gatedPause s' = gatedPause s
  /\ forall i, i ∈ playedMelodyIds s'
               <-> i ∈ playedMelodyIds s
                   \/ exists n, In n l /\ Note.id n = i
                                /\ Note.time n < currentTime s - 0.1.
Proof.
  induction l as [|n l IH]; intros s; simpl.
  - do 5 (split; [reflexivity|]). intros i.
    split; [auto | intros [H|(n & [] & _)]; exact H].
  - match goal with |- context [fold_left _ l ?st] => set (s1 := st) end.
    destruct (IH s1) as (Ht & Hc & Hm & Hp & Hg & Hi).
    assert (E : touchedMelodyCount s1 = touchedMelodyCount s
                /\ currentTime s1 = currentTime s
                /\ melodyNotes s1 = melodyNotes s
                /\ isPlaying s1 = isPlaying s
                /\ gatedPause s1 = gatedPause s)
      by (subst s1; destruct (_ && _); simpl; auto).
    destruct E as (Ht1 & Hc1 & Hm1 & Hp1 & Hg1).
    rewrite Ht, Hc, Hm, Hp, Hg. do 5 (split; [assumption|]).
    intros i. rewrite Hi, Hc1. subst s1.
    destruct (bool_decide (Note.id n ∈ playedMelodyIds s)) eqn:B; simpl.
    + apply bool_decide_eq_true in B.
      clear Ht Hc Hm Hp Hg Hi IH.
      split.
      * intros [H|(x & Hx & Hid & Hlt)]; [left; exact H|].
        right. exists x. simpl. auto.
      * intros [H|(x & Hx & Hid & Hlt)]; [left; exact H|].
        destruct Hx as [Hx|Hx]; [left; congruence|].
        right. exists x. auto.
    + clear Ht Hc Hm Hp Hg Hi IH.
      apply bool_decide_eq_false in B.
      destruct (Qltb (Note.time n) (currentTime s - 0.1)) eqn:L; simpl.
      * apply qltb_iff in L. rewrite elem_of_union, elem_of_singleton.
        split.
        -- intros [[H| ->]|(x & Hx & Hid & Hlt)]; [left; exact H | |].
           ++ right. exists n. simpl. auto.
           ++ right. exists x. simpl. auto.
        -- intros [H|(x & Hx & Hid & Hlt)]; [left; left; exact H|].
           destruct Hx as [Hx|Hx]; [left; right; congruence|].
           right. exists x. auto.
      * assert (~ Note.time n < currentTime s - 0.1)
          by (intros Hc'; apply qltb_iff in Hc'; congruence).
        split.
        -- intros [H'|(x & Hx & Hid & Hlt)]; [left; exact H'|].
           right. exists x. simpl. auto.
        -- intros [H'|(x & Hx & Hid & Hlt)]; [left; exact H'|].
           destruct Hx as [Hx|Hx]; [subst x; tauto|].
           right. exists x. auto.
Qed.

Lemma not_played (i : NoteId) (X : gset NoteId) :
  bool_decide (i ∈ X) = false -> i ∉ X.
Proof. apply bool_decide_eq_false. Qed.

Lemma handleMelodyGate_played s :
  playedMelodyIds s ⊆ playedMelodyIds (handleMelodyGate s).
Proof.
  unfold handleMelodyGate. destruct (getTouchedNote s) as [t|]; [|reflexivity].
  destruct (playMelodyNote_fold (simultaneousNotes t s) s) as (Hp & _).
  destruct (gatedPause s); [simpl; rewrite Hp; apply union_subseteq_l|].
  destruct (isPlaying s); [rewrite Hp; apply union_subseteq_l | reflexivity].
Qed.

Lemma gateAndDraw_played s :
  playedMelodyIds s ⊆ playedMelodyIds (gateAndDraw s).
Proof.
  unfold gateAndDraw. simpl.
  destruct (isPlaying s || gatedPause s); [apply handleMelodyGate_played | reflexivity].
Qed.

(** A frame runs the gate when the game is held at the gate, or is
    playing and the song is not over; the gate then sees the state with
    the time of the transport and the notes marked so far. *)
Lemma animate_runs_gate s :
  isPlaying s || gatedPause s = true ->
  (isPlaying s = true -> seconds (transport s) < duration s) ->
  exists s1,
    animate s = set_animating true (handleMelodyGate s1)
    /\ isPlaying s1 = isPlaying s
    /\ gatedPause s1 = gatedPause s
    /\ melodyNotes s1 = melodyNotes s
    /\ touchedMelodyCount s1 = touchedMelodyCount s.
Proof.
  intros Hmode Hlt. unfold animate. simpl. destruct (isPlaying s) eqn:Hp.
  - specialize (Hlt eq_refl).
    replace (Qle_bool (duration s) (seconds (transport s))) with false
      by (symmetry; apply not_true_iff_false; rewrite Qle_bool_iff;
          now apply Qlt_not_le).
    match goal with |- context [autoMark ?st] => set (s0 := st) end.
    destruct (autoMark_fold (melodyNotes s0) s0) as (Ht & _ & Hm & Hpl & Hg & _).
    fold (autoMark s0) in Ht, Hm, Hpl, Hg.
    exists (autoMark s0). unfold gateAndDraw. rewrite Hpl, Hg. simpl.
    rewrite Hp. simpl. auto.
  - simpl in Hmode. eexists. unfold gateAndDraw. simpl. rewrite Hp, Hmode. simpl.
    split; [reflexivity|]. simpl. auto.
Qed.

(** C5, as amended. In every frame in which the game is playing and the
    time read from the transport is below [duration], every melody note
    that starts before [currentTime - 0.1] is in [playedMelodyIds]
    afterwards; the marking step adds exactly the ids of these notes and
    leaves [touchedMelodyCount] as it was. (The frame that ends the song
    returns before the marking step.) *)
Theorem auto_mark_on_tick (s : State) :
  isPlaying s = true ->
  seconds (transport s) < duration s ->
  let now := seconds (transport s) in
  let marked := autoMark (set_currentTime now (set_animating false s)) in
  animate s = gateAndDraw marked
  /\ touchedMelodyCount marked = touchedMelodyCount s
  /\ (forall i, i ∈ playedMelodyIds marked
                <-> i ∈ playedMelodyIds s
                    \/ exists n, In n (melodyNotes s) /\ Note.id n = i
                                 /\ Note.time n < now - 0.1)
  /\ (forall n, In n (melodyNotes s) -> Note.time n < now - 0.1 ->
                Note.id n ∈ playedMelodyIds (animate s)).
Proof.
  intros Hplay Hlt now marked.
  assert (Ha : animate s = gateAndDraw marked).
  { unfold animate. simpl. rewrite Hplay.
    replace (Qle_bool (duration s) (seconds (transport s))) with false; [reflexivity|].
    symmetry. apply not_true_iff_false. rewrite Qle_bool_iff. now apply Qlt_not_le. }
  destruct (autoMark_fold (melodyNotes s) (set_currentTime now (set_animating false s)))
    as (Ht & _ & _ & _ & _ & Hi).
  simpl in Ht, Hi. fold now in Hi.
  split; [exact Ha|]. split; [exact Ht|]. split; [exact Hi|].
  intros n Hn Hbefore. rewrite Ha. apply gateAndDraw_played.
  apply Hi. right. eauto.
Qed.

Lemma auto_mark_on_tick_witness :
  (isPlaying sampleMidway = true
   /\ seconds (transport sampleMidway) < duration sampleMidway)
  /\ touchedMelodyCount sampleMidway = 0%nat
  /\ touchedMelodyCount
       (autoMark (set_currentTime (seconds (transport sampleMidway))
                                  (set_animating false sampleMidway)))
     = touchedMelodyCount sampleMidway
  /\ (Note.id (loadedNote 0 1 64 0.04 0.5) ∉ playedMelodyIds sampleMidway)
  /\ Note.id (loadedNote 0 1 64 0.04 0.5) ∈ playedMelodyIds (animate sampleMidway).
Proof.
  assert (Hplay : isPlaying sampleMidway = true) by (vm_compute; reflexivity).
  assert (Hlt : seconds (transport sampleMidway) < duration sampleMidway)
    by (vm_compute; reflexivity).
  pose proof (auto_mark_on_tick sampleMidway Hplay Hlt) as (_ & Hcount & _ & Hmarked).
  split; [split; assumption|]. split; [reflexivity|]. split; [exact Hcount|].
  split; [apply not_played; vm_compute; reflexivity|].
  apply Hmarked; [vm_compute; auto | vm_compute; reflexivity].
Defined.

(** The frame that ends the song: the melody note of pitch 72 starts at
    1 s, the transport is at 2.016 s, the note is not yet played, and it
    is not marked by this frame. *)
Lemma no_auto_mark_on_last_tick :
  isPlaying sampleOverrun = true
  /\ exists n,
       In n (melodyNotes sampleOverrun)
       /\ Note.midi n = 72%Z
       /\ Note.time n < seconds (transport sampleOverrun) - 0.1
       /\ (Note.id n ∉ playedMelodyIds sampleOverrun)
       /\ (Note.id n ∉ playedMelodyIds (animate sampleOverrun)).
Proof.
  split; [vm_compute; reflexivity|].
  exists {| Note.id := (1%nat, 1%nat); Note.midi := 72; Note.time := 1 * (1 / 1);
            Note.duration := 0.05 * (1 / 1); Note.velocity := 0.8;
            Note.name := "sample"; Note.trackIndex := 1 |}.
  split; [vm_compute; auto|].
  split; [reflexivity|].
  split; [vm_compute; reflexivity|].
  split; apply not_played; vm_compute; reflexivity.
Qed.

(** ** The end of the song *)

Lemma showEndScreen_empty s :
  melodyNotes s = [] -> finalScore (showEndScreen s) = 0.
Proof. intros H. unfold showEndScreen. simpl. now rewrite H. Qed.

(** What the frame that ends the song leaves behind. [pausePlayback]
    reads the transport again, so [currentTime] ends as the position of
    the transport, whatever was assigned to it just before. *)
Lemma animate_end s :
  isPlaying s = true ->
  duration s <= seconds (transport s) ->
  let s' := animate s in
  isPlaying s' = false
  /\ animating s' = false
  /\ currentTime s' = seconds (transport s)
  /\ timeline (transport s') = []
  /\ touchedMelodyCount s' = touchedMelodyCount s
  /\ finalScore s'
     = if (0 <? length (melodyNotes s))%nat
       then inject_Z (Z.of_nat (touchedMelodyCount s))
            / inject_Z (Z.of_nat (length (melodyNotes s))) * 100
       else 0.
Proof.
  intros Hplay Hend. unfold animate. simpl. rewrite Hplay.
  apply Qle_bool_iff in Hend. rewrite Hend. simpl. repeat split.
Qed.

(** C6, at an input where the code departs from it. The game is
    playing, [duration] is 2 s, two of the three melody notes were
    touched, and the frame finds the transport at 2.016 s. The frame
    stops the game and computes the score 2 / 3 * 100, but [currentTime]
    is left at 2.016 s, not at [duration]. *)
Theorem song_end_time_not_clamped :
  let s' := animate sampleOverrun in
  (isPlaying sampleOverrun = true
   /\ duration sampleOverrun == 2
   /\ seconds (transport sampleOverrun) == 2.016
   /\ touchedMelodyCount sampleOverrun = 2%nat
   /\ length (melodyNotes sampleOverrun) = 3%nat)
  /\ isPlaying s' = false
  /\ finalScore s' == 2 / 3 * 100
  /\ currentTime s' == 2.016
  /\ ~ currentTime s' == duration s'.
Proof.
  vm_compute. repeat split; discriminate.
Qed.

(** ** Scheduling the harmony *)

Lemma schedule_fold (dur : Note.t -> Q) (now : Q) (l : list Note.t) : forall t,
  fold_left
    (fun t note =>
       if Qle_bool now (Note.time note)
       then transport_schedule
              {| sch_at := Note.time note;
                 sch_midi := Note.midi note;
                 sch_duration := dur note;
                 sch_velocity := Note.velocity note |} t
       else t) l t
  = {| seconds := seconds t;
       started := started t;
       timeline :=
         timeline t
         ++ map (fun note => {| sch_at := Note.time note;
                                sch_midi := Note.midi note;
                                sch_duration := dur note;
                                sch_velocity := Note.velocity note |})
                (List.filter (fun note => Qle_bool now (Note.time note)) l) |}.
Proof.
  induction l as [|n l IH]; intros t; simpl.
  - rewrite app_nil_r. now destruct t.
  - rewrite IH. destruct (Qle_bool now (Note.time n)); simpl; [|reflexivity].
    now rewrite <- app_assoc.
Qed.

(** [scheduleNotes] of script.js: the harmony notes from [currentTime]
    on, each at its own time, each with its own duration. *)
Lemma scheduleNotes_timeline s :
  timeline (transport (scheduleNotes s))
  = map (fun note => {| sch_at := Note.time note;
                        sch_midi := Note.midi note;
                        sch_duration := Note.duration note;
                        sch_velocity := Note.velocity note |})
        (List.filter (fun note => Qle_bool (currentTime s) (Note.time note))
                     (harmonyNotes s)).
Proof.
  unfold scheduleNotes. simpl.
  now rewrite (schedule_fold Note.duration (currentTime s) (harmonyNotes s)).
Qed.

(** [scheduleNotes] of js/audio.js: the same notes at the same times,
    with durations of at least 0.1 s. *)
Lemma audio_scheduleNotes_timeline s :
  timeline (transport (AudioJs.scheduleNotes s))
  = map (fun note => {| sch_at := Note.time note;
                        sch_midi := Note.midi note;
                        sch_duration := Qmax 0.1 (Note.duration note);
                        sch_velocity := Note.velocity note |})
        (List.filter (fun note => Qle_bool (currentTime s) (Note.time note))
                     (harmonyNotes s))
  /\ Forall (fun e => 0.1 <= sch_duration e)
            (timeline (transport (AudioJs.scheduleNotes s))).
Proof.
  assert (E : timeline (transport (AudioJs.scheduleNotes s))
    = map (fun note => {| sch_at := Note.time note;
                          sch_midi := Note.midi note;
                          sch_duration := Qmax 0.1 (Note.duration note);
                          sch_velocity := Note.velocity note |})
          (List.filter (fun note => Qle_bool (currentTime s) (Note.time note))
                       (harmonyNotes s))).
  { unfold AudioJs.scheduleNotes. simpl.
    now rewrite (schedule_fold (fun note => Qmax 0.1 (Note.duration note))
                   (currentTime s) (harmonyNotes s)). }
  split; [exact E|]. rewrite E. apply Forall_forall. intros e He.
  apply list_elem_of_In, in_map_iff in He as (n & <- & _). simpl.
  apply Q.le_max_l.
Qed.

(** C7, at an input where script.js departs from it. The harmony of the
    sample score has a note of pitch 48 that lasts 0.05 s. [scheduleNotes]
    of script.js schedules every harmony note from [currentTime] on at
    its own time, but hands this note to the synth with its 0.05 s;
    [scheduleNotes] of js/audio.js schedules the same notes at the same
    times and gives it 0.1 s. *)
Theorem script_schedule_short_duration :
  currentTime sampleLoaded == 0
  /\ map (fun note => (Note.midi note, Qred (Note.time note), Qred (Note.duration note)))
         (harmonyNotes sampleLoaded)
     = [(60%Z, 0, Qred 0.5); (48%Z, 0, Qred 0.05)]
  /\ map (fun e => (sch_midi e, Qred (sch_at e), Qred (sch_duration e)))
         (timeline (transport (scheduleNotes sampleLoaded)))
     = [(60%Z, 0, Qred 0.5); (48%Z, 0, Qred 0.05)]
  /\ map (fun e => (sch_midi e, Qred (sch_at e), Qred (sch_duration e)))
         (timeline (transport (AudioJs.scheduleNotes sampleLoaded)))
     = [(60%Z, 0, Qred 0.5); (48%Z, 0, Qred 0.1)]
  /\ ~ Forall (fun e => 0.1 <= sch_duration e)
              (timeline (transport (scheduleNotes sampleLoaded))).
Proof.
  split; [reflexivity|]. split; [vm_compute; reflexivity|].
  split; [vm_compute; reflexivity|]. split; [vm_compute; reflexivity|].
  rewrite scheduleNotes_timeline. intros H.
  apply Forall_cons in H as [_ H]. apply Forall_cons in H as [H _].
  vm_compute in H. now apply H.
Qed.

(** ** Changing the speed *)







(** At half speed the sample notes start twice as late. *)
Example half_speed_doubles_times :
  (s1 ← speedChange sampleServer 0.5 sampleLoaded;
   Some (map (fun n => Qred (Note.time n)) (notes s1)))
  = Some [0; 0; 2 # 25; 4 # 25; 2].
Proof. vm_compute. reflexivity. Qed.

(** ** The hit detector *)

Lemma find_first {A} (f : A -> bool) (before : list A) x after :
  Forall (fun y => f y = false) before -> f x = true ->
  find f (before ++ x :: after) = Some x.
Proof.
  induction before as [|y before IH]; simpl; intros HF Hx.
  - now rewrite Hx.
  - apply Forall_cons in HF as [Hy HF]. rewrite Hy. now apply IH.
Qed.

Lemma noteHeight_min s note : 10 <= noteHeight s note.
Proof. apply Q.le_max_l. Qed.

(** The test of the inner loop, spelled out. *)
Lemma touches_true s fingerPoint note keyData :
  Note.id note ∉ playedMelodyIds s ->
  - lookBehind < Note.time note - currentTime s ->
  Note.time note - currentTime s < lookAhead ->
  find (fun k => (key_midi k =? Note.midi note)%Z) (pianoKeys s) = Some keyData ->
  hitZoneY s - hitZoneTolerance <= noteBottom s note ->
  noteTop s note <= hitZoneY s + hitZoneTolerance ->
  keyX s keyData - noteWidth keyData / 2 <= pt_x fingerPoint ->
  pt_x fingerPoint <= keyX s keyData + noteWidth keyData / 2 ->
  noteTop s note <= pt_y fingerPoint ->
  pt_y fingerPoint <= noteBottom s note ->
  touches s fingerPoint note = true.
Proof.
  intros Hid Hb Ha Hkey Hz1 Hz2 Hx1 Hx2 Hy1 Hy2. unfold touches.
  rewrite bool_decide_eq_false_2 by exact Hid.
  apply qltb_iff in Hb, Ha. rewrite Hb, Ha, Hkey. simpl.
  apply Qle_bool_iff in Hz1, Hz2, Hx1, Hx2, Hy1, Hy2.
  now rewrite Hz1, Hz2, Hx1, Hx2, Hy1, Hy2.
Qed.

(** C9. The band test of the hit detector is inclusive. Take a melody
    note that is not yet played, is inside the time window and has a
    key, and whose rectangle just meets the band: its top is exactly at
    [hitZoneY + 50], or its bottom exactly at [hitZoneY - 50]. A finger
    point inside the rectangle (edges included) touches it, and
    [getTouchedNote] gives this note when the point is the first finger
    point and no melody note before this one is touched by it. *)
Theorem hit_zone_boundary_inclusive
        (s : State) (fingerPoint : Point) (morePoints : list Point)
        (note : Note.t) (before after : list Note.t) (keyData : PianoKey) :
  allFingerPoints s = fingerPoint :: morePoints ->
  melodyNotes s = before ++ note :: after ->
  Forall (fun n => touches s fingerPoint n = false) before ->
  Note.id note ∉ playedMelodyIds s ->
  - lookBehind < Note.time note - currentTime s ->
  Note.time note - currentTime s < lookAhead ->
  find (fun k => (key_midi k =? Note.midi note)%Z) (pianoKeys s) = Some keyData ->
  (noteTop s note == hitZoneY s + 50 \/ noteBottom s note == hitZoneY s - 50) ->
  keyX s keyData - noteWidth keyData / 2 <= pt_x fingerPoint ->
  pt_x fingerPoint <= keyX s keyData + noteWidth keyData / 2 ->
  noteTop s note <= pt_y fingerPoint ->
  pt_y fingerPoint <= noteBottom s note ->
  touches s fingerPoint note = true /\ getTouchedNote s = Some note.
Proof.
  intros Hpts Hmel Hbefore Hid Hb Ha Hkey Hedge Hx1 Hx2 Hy1 Hy2.
  assert (Ht : touches s fingerPoint note = true).
  { apply (touches_true s fingerPoint note keyData); trivial.
    - pose proof (noteHeight_min s note) as Hh. unfold noteTop in Hedge.
      unfold hitZoneTolerance. destruct Hedge as [E|E]; lra.
    - pose proof (noteHeight_min s note) as Hh. unfold noteTop in *.
      unfold hitZoneTolerance. destruct Hedge as [E|E]; lra. }
  split; [exact Ht|].
  unfold getTouchedNote. rewrite Hpts.
  destruct (pianoKeys s) as [|k ks] eqn:Hk; [discriminate|].
  simpl. rewrite Hmel. now rewrite (find_first _ before note after Hbefore Ht).
Qed.

Lemma hit_zone_boundary_inclusive_witness :
  let note := loadedNote 1 1 72 1 0.05 in
  noteTop sampleBoundary note == hitZoneY sampleBoundary + 50
  /\ allFingerPoints sampleBoundary = [{| pt_x := 825; pt_y := 650 |}]
  /\ touches sampleBoundary {| pt_x := 825; pt_y := 650 |} note = true
  /\ getTouchedNote sampleBoundary = Some note.
Proof.
  intros note.
  assert (Hedge : noteTop sampleBoundary note == hitZoneY sampleBoundary + 50)
    by (vm_compute; reflexivity).
  split; [exact Hedge|]. split; [reflexivity|].
  apply (hit_zone_boundary_inclusive
           sampleBoundary {| pt_x := 825; pt_y := 650 |} [] note
           [loadedNote 0 1 64 0.04 0.5; loadedNote 0 2 67 0.08 0.5] []
           {| key_midi := 72; isWhite := true |}).
  - reflexivity.
  - vm_compute. reflexivity.
  - repeat constructor.
  - apply not_played. vm_compute. reflexivity.
  - vm_compute. reflexivity.
  - vm_compute. reflexivity.
  - vm_compute. reflexivity.
  - left. exact Hedge.
  - vm_compute. discriminate.
  - vm_compute. discriminate.
  - vm_compute. discriminate.
  - vm_compute. discriminate.
Defined.

(** ** Credits and played notes *)

Lemma size_add_fresh (X : gset NoteId) (l : list NoteId) :
  NoDup l -> (forall i, i ∈ l -> i ∉ X) ->
  size (X ∪ list_to_set l) = (size X + length l)%nat.
Proof.
  intros ND Hfresh. rewrite size_union.
  - now rewrite size_list_to_set.
  - intros i Hi Hl. apply elem_of_list_to_set in Hl. now apply (Hfresh i).
Qed.

Lemma NoDup_ids_filter (f : Note.t -> bool) (l : list Note.t) :
  NoDup (map Note.id l) -> NoDup (map Note.id (List.filter f l)).
Proof.
  induction l as [|n l IH]; simpl; intros ND; [constructor|].
  apply NoDup_cons in ND as [Hn ND].
  destruct (f n); simpl; [|now apply IH].
  apply NoDup_cons. split; [|now apply IH].
  intros Hin. apply Hn. apply list_elem_of_In, in_map_iff in Hin as (x & Hx & Hin).
  apply filter_In in Hin as [Hin _].
  rewrite <- Hx. apply list_elem_of_In, in_map, Hin.
Qed.

(** A run of the gate credits exactly the ids it adds. *)
Lemma gate_credits_fresh s :
  NoDup (map Note.id (melodyNotes s)) ->
  let s' := handleMelodyGate s in
  melodyNotes s' = melodyNotes s
  /\ exists k,
       touchedMelodyCount s' = (touchedMelodyCount s + k)%nat
       /\ size (playedMelodyIds s') = (size (playedMelodyIds s) + k)%nat.
Proof.
  intros ND. unfold handleMelodyGate.
  destruct (getTouchedNote s) as [t|]; simpl;
    [|split; [reflexivity | exists 0%nat; split; lia]].
  destruct (playMelodyNote_fold (simultaneousNotes t s) s) as (Hp & Ht & _ & Hm).
  assert (Hsize : size (playedMelodyIds s ∪ list_to_set (map Note.id (simultaneousNotes t s)))
                  = (size (playedMelodyIds s) + length (simultaneousNotes t s))%nat).
  { rewrite size_add_fresh; [now rewrite length_map| |].
    - now apply NoDup_ids_filter.
    - intros i Hi. apply list_elem_of_In, in_map_iff in Hi as (n & <- & Hn).
      now apply simultaneousNotes_In in Hn as (_ & Hn & _). }
  destruct (gatedPause s);
    [simpl; rewrite Hp, Ht, Hm, Hsize; split; [reflexivity | eexists; split; reflexivity]|].
  destruct (isPlaying s);
    [rewrite Hp, Ht, Hm, Hsize; split; [reflexivity | eexists; split; reflexivity]|].
  split; [reflexivity | exists 0%nat; split; lia].
Qed.

Lemma creditsBounded_frame s s' :
  melodyNotes s' = melodyNotes s ->
  playedMelodyIds s' = playedMelodyIds s ->
  touchedMelodyCount s' = touchedMelodyCount s ->
  creditsBounded s -> creditsBounded s'.
Proof. unfold creditsBounded. intros -> -> ->. auto. Qed.

(** Closes a goal where the step leaves the melody notes, the played
    ids and the credits as they were. *)
Ltac unchanged :=
  match goal with
  | H : creditsBounded _ |- creditsBounded _ =>
      revert H; apply creditsBounded_frame; reflexivity
  end.

Lemma handleMelodyGate_bounded s : creditsBounded s -> creditsBounded (handleMelodyGate s).
Proof.
  intros [ND Hle]. destruct (gate_credits_fresh s ND) as (Hm & k & Ht & Hs).
  split; [now rewrite Hm | lia].
Qed.

Lemma gateAndDraw_bounded s : creditsBounded s -> creditsBounded (gateAndDraw s).
Proof.
  intros H. unfold gateAndDraw.
  destruct (isPlaying s || gatedPause s).
  - apply handleMelodyGate_bounded in H. unchanged.
  - unchanged.
Qed.

Lemma autoMark_bounded s : creditsBounded s -> creditsBounded (autoMark s).
Proof.
  intros [ND Hle]. unfold autoMark.
  destruct (autoMark_fold (melodyNotes s) s) as (Ht & _ & Hm & _ & _ & Hi).
  split; [now rewrite Hm|]. rewrite Ht.
  etransitivity; [exact Hle|]. apply subseteq_size.
  intros i Hin. apply Hi. now left.
Qed.

Lemma markBefore_fold (l : list Note.t) : forall s,
  let s' :=
    fold_left
      (fun st n =>
         if Qltb (Note.time n) (currentTime st - 0.1)
         then set_playedMelodyIds (playedMelodyIds st ∪ {[ Note.id n ]}) st
         else st) l s in
  touchedMelodyCount s' = touchedMelodyCount s
  /\ melodyNotes s' = melodyNotes s
  /\ isPlaying s' = isPlaying s.
Proof.
  induction l as [|n l IH]; intros s; simpl; [auto|].
  match goal with |- context [fold_left _ l ?st] => destruct (IH st) as (Ht & Hm & Hp) end.
  rewrite Ht, Hm, Hp. destruct (Qltb _ _); simpl; auto.
Qed.

Lemma seekTo_bounded time s : creditsBounded s -> creditsBounded (seekTo time s).
Proof.
  intros [ND _]. unfold seekTo.
  match goal with |- context [markBefore ?st] => set (s3 := st) end.
  destruct (markBefore_fold (melodyNotes s3) s3) as (Ht & Hm & _).
  fold (markBefore s3) in Ht, Hm.
  assert (B : creditsBounded (markBefore s3)).
  { split; [now rewrite Hm|]. rewrite Ht. simpl. lia. }
  destruct (isPlaying (markBefore s3)); [unchanged | exact B].
Qed.

Lemma parsed_bounded m speed sc s :
  parseScore m speed = Some sc ->
  melodyNotes s = sc_melodyNotes sc ->
  touchedMelodyCount s = 0%nat ->
  creditsBounded s.
Proof.
  intros Hsc Hm Ht. destruct (parseScore_partition m speed) as (sc' & Hsc' & _ & _ & _ & ND).
  rewrite Hsc in Hsc'. injection Hsc' as <-.
  split; [|rewrite Ht; lia]. rewrite Hm.
  rewrite map_app in ND. now apply NoDup_app in ND as (ND & _).
Qed.

Section Reachable.
Variable fetchMidi : string -> option Midi.t.

Lemma animate_bounded s : creditsBounded s -> creditsBounded (animate s).
Proof.
  intros H. unfold animate. simpl. destruct (isPlaying s).
  - destruct (Qle_bool _ _); [unchanged|].
    apply gateAndDraw_bounded, autoMark_bounded. unchanged.
  - apply gateAndDraw_bounded. unchanged.
Qed.

Lemma songChange_bounded song s :
  creditsBounded s ->
  exists s', songChange fetchMidi song s = Some s' /\ creditsBounded s'.
Proof.
  intros H. unfold songChange, loadMIDI. simpl.
  destruct (fetchMidi song) as [m|].
  - match goal with |- context [parseScore m ?v] =>
      destruct (parseScore_partition m v) as (sc & Hsc & _); rewrite Hsc
    end.
    eexists. split; [reflexivity|].
    apply (parsed_bounded _ _ _ _ Hsc); reflexivity.
  - eexists. split; [reflexivity|]. destruct (isPlaying s); unchanged.
Qed.

Lemma speedChange_bounded speed s :
  creditsBounded s ->
  exists s', speedChange fetchMidi speed s = Some s' /\ creditsBounded s'.
Proof.
  intros H. unfold speedChange, loadMIDI. simpl.
  destruct (fetchMidi (currentSong s)) as [m|].
  - destruct (parseScore_partition m speed) as (sc & Hsc & _). rewrite Hsc.
    eexists. split; [reflexivity|].
    apply (parsed_bounded _ _ _ _ Hsc); simpl; destruct (isPlaying s); reflexivity.
  - eexists. split; [reflexivity|]. unchanged.
Qed.

(** Every handler comes back, and keeps the credits bounded. *)
Lemma handle_bounded e s :
  creditsBounded s ->
  exists s', handle fetchMidi e s = Some s' /\ creditsBounded s'.
Proof.
  intros H. destruct e; simpl;
    try (now apply songChange_bounded); try (now apply speedChange_bounded);
    (eexists; split; [reflexivity|]).
  - destruct (animating s); [now apply animate_bounded | exact H].
  - unfold clockAdvance. destruct (started _); unchanged.
  - unchanged.
  - unchanged.
  - unfold togglePlayback. destruct (_ && _); unchanged.
  - unfold timerFire. destruct (timers s !! i) as [[c|]|];
      [destruct (c - 1 <? 0)%Z| |]; unchanged.
  - now apply seekTo_bounded.
  - unfold instrumentChange. destruct (isPlaying s); unchanged.
Qed.

Lemma init_bounded p s : init fetchMidi p = Some s -> creditsBounded s.
Proof.
  unfold init, loadMIDI. simpl.
  destruct (fetchMidi "Kiss The Rain.mid") as [m|]; [|discriminate].
  destruct (parseScore m 1) as [sc|] eqn:Hsc; [|discriminate].
  intros [= <-]. apply (parsed_bounded _ _ _ _ Hsc); reflexivity.
Qed.

Lemma reachable_bounded s : reachable fetchMidi s -> creditsBounded s.
Proof.
  induction 1 as [p s Hinit | s e s' _ IH Hstep].
  - now apply (init_bounded p).
  - destruct (handle_bounded e s IH) as (s'' & Hs'' & B). congruence.
Qed.
End Reachable.

(** C10. In every state the page can reach, [touchedMelodyCount] is at
    most the number of ids in [playedMelodyIds], and the melody notes
    have pairwise different ids. Every operation (a frame with its
    marking step and its gate, a move of the progress bar, a change of
    song or of speed, and the others) comes back and keeps this. A run
    of the gate adds as many new ids as it adds credits, so a melody
    note is credited at most once; the marking step adds no credit, and
    a move of the progress bar takes the credits back to 0. *)
Theorem touched_bounded_by_played
        (fetchMidi : string -> option Midi.t) (s : State) :
  reachable fetchMidi s ->
  (touchedMelodyCount s <= size (playedMelodyIds s))%nat
  /\ NoDup (map Note.id (melodyNotes s))
  /\ (forall e, exists s',
        handle fetchMidi e s = Some s'
        /\ (touchedMelodyCount s' <= size (playedMelodyIds s'))%nat)
  /\ (exists k,
        touchedMelodyCount (handleMelodyGate s) = (touchedMelodyCount s + k)%nat
        /\ size (playedMelodyIds (handleMelodyGate s))
           = (size (playedMelodyIds s) + k)%nat)
  /\ touchedMelodyCount (autoMark s) = touchedMelodyCount s
  /\ (forall time, touchedMelodyCount (seekTo time s) = 0%nat).
Proof.
  intros Hreach. pose proof (reachable_bounded fetchMidi s Hreach) as [ND Hle].
  split; [exact Hle|]. split; [exact ND|]. split; [|split; [|split]].
  - intros e. destruct (handle_bounded fetchMidi e s (conj ND Hle)) as (s' & Hs' & _ & Hle').
    now exists s'.
  - now destruct (gate_credits_fresh s ND) as (_ & Hd).
  - unfold autoMark. now destruct (autoMark_fold (melodyNotes s) s) as (Ht & _).
  - intros time. unfold seekTo.
    match goal with |- context [markBefore ?st] => set (s3 := st) end.
    destruct (markBefore_fold (melodyNotes s3) s3) as (Ht & _).
    fold (markBefore s3) in Ht.
    destruct (isPlaying (markBefore s3)); simpl; rewrite Ht; reflexivity.
Qed.

Lemma run_reachable es : forall s s',
  reachable sampleServer s -> run es s = Some s' -> reachable sampleServer s'.
Proof.
  unfold run. induction es as [|e es IH] using rev_ind; intros s s' Hs Hrun.
  - simpl in Hrun. now injection Hrun as <-.
  - rewrite foldl_snoc in Hrun.
    destruct (foldl (fun st e => st ≫= handle sampleServer e) (Some s) es)
      as [s1|] eqn:E; [|discriminate].
    simpl in Hrun. eapply reachable_step; [|exact Hrun]. now apply (IH s).
Qed.

Lemma sampleOverrun_reachable : reachable sampleServer sampleOverrun.
Proof.
  apply (run_reachable [Frame; Clock 2.016] samplePlaying); [|vm_compute; reflexivity].
  apply (run_reachable
           [HandsResults [{| pt_x := 585; pt_y := 640 |}]; PlayClick;
            TimerFire 0; TimerFire 0; TimerFire 0; TimerFire 0] sampleLoaded);
    [|vm_compute; reflexivity].
  apply (reachable_init sampleServer samplePage). vm_compute. reflexivity.
Defined.

Lemma touched_bounded_by_played_witness :
  reachable sampleServer sampleOverrun
  /\ touchedMelodyCount sampleOverrun = 2%nat
  /\ (touchedMelodyCount sampleOverrun <= size (playedMelodyIds sampleOverrun))%nat.
Proof.
  split; [exact sampleOverrun_reachable|]. split; [reflexivity|].
  exact (proj1 (touched_bounded_by_played sampleServer sampleOverrun
                  sampleOverrun_reachable)).
Defined.

(** * Further properties of the code *)

(** ** The order of the loaded notes *)

Section SortedByKey.
Context {A : Type} (key : A -> Q).

Lemma insertSorted_sorted x l :
  StronglySorted (fun a b => key a <= key b) l ->
  StronglySorted (fun a b => key a <= key b)
                 (insertSorted (fun a b => Qle_bool (key a) (key b)) x l).
Proof.
  induction l as [|y l IH]; simpl; intros Hs.
  - constructor; [constructor | constructor].
  - apply StronglySorted_inv in Hs as [Hs Hy].
    destruct (Qle_bool (key x) (key y)) eqn:E.
    + apply Qle_bool_iff in E. constructor.
      * now constructor.
      * constructor; [exact E|].
        eapply Forall_impl; [exact Hy|]. simpl. intros z Hz. lra.
    + assert (Hyx : key y <= key x).
      { destruct (Qlt_le_dec (key x) (key y)) as [Hlt|Hle]; [|exact Hle].
        apply Qlt_le_weak, Qle_bool_iff in Hlt. congruence. }
      constructor; [now apply IH|].
      rewrite <- (insertSorted_perm _ x l). now constructor.
Qed.

Lemma sortBy_sorted_by l :
  StronglySorted (fun a b => key a <= key b)
                 (sortBy (fun a b => Qle_bool (key a) (key b)) l).
Proof.
  induction l as [|x l IH]; simpl; [constructor|].
  now apply insertSorted_sorted.
Qed.
End SortedByKey.

Lemma sortBy_sorted l :
  StronglySorted (fun a b => Note.time a <= Note.time b) (sortBy byTime l).
Proof. apply (sortBy_sorted_by Note.time). Qed.

Lemma StronglySorted_app_inv {A} (R : A -> A -> Prop) l1 l2 :
  StronglySorted R (l1 ++ l2) ->
  StronglySorted R l2 /\ Forall (fun x => Forall (R x) l2) l1.
Proof.
  induction l1 as [|x l1 IH]; simpl; intros Hs; [split; [exact Hs | constructor]|].
  apply StronglySorted_inv in Hs as [Hs Hx].
  destruct (IH Hs) as [H2 H1]. split; [exact H2|].
  constructor; [|exact H1]. apply Forall_app in Hx. tauto.
Qed.

(** In a sorted sequence grouped by anchor, the chosen notes start at
    strictly increasing times. *)
Lemma melody_sorted l gs : Anchored l gs ->
  forall mel,
  StronglySorted (fun a b => Note.time a <= Note.time b) l ->
  Forall2 firstHighest gs mel ->
  StronglySorted (fun a b => Note.time a < Note.time b) mel.
Proof.
  induction 1 as [|first more rest gs Hnear Hstop HA IH]; intros mel Hs HF.
  - apply Forall2_nil_inv_l in HF as ->. constructor.
  - apply Forall2_cons_inv_l in HF as (m & mel' & Hm & HF & ->).
    change (first :: more ++ rest) with ((first :: more) ++ rest) in Hs.
    apply StronglySorted_app_inv in Hs as [Hrest Hcross].
    constructor; [now apply IH|].
    apply firstHighest_In in Hm.
    assert (Hmt : Note.time m <= Note.time first + epsilon).
    { destruct Hm as [<-|Hm]; [unfold epsilon; lra|].
      rewrite Forall_forall in Hnear. specialize (Hnear m).
      rewrite list_elem_of_In in Hnear. specialize (Hnear Hm).
      apply Qabs_Qle_condition in Hnear. lra. }
    assert (Hlate : Forall (fun n => Note.time first + epsilon < Note.time n) rest).
    { destruct rest as [|n rest']; [constructor|].
      specialize (Hstop n rest' eq_refl).
      apply Forall_cons in Hcross as [Hfirst _].
      apply Forall_cons in Hfirst as [Hfn _].
      assert (Hn : Note.time first + epsilon < Note.time n).
      { destruct (Qlt_le_dec (Note.time first + epsilon) (Note.time n)) as [Hlt|Hle];
          [exact Hlt|].
        exfalso. apply Hstop. apply Qabs_Qle_condition. unfold epsilon in *. lra. }
      apply StronglySorted_inv in Hrest as [_ Hrest].
      constructor; [exact Hn|].
      eapply Forall_impl; [exact Hrest|]. simpl. intros z Hz. lra. }
    apply Forall_forall. intros m' Hm'.
    assert (Hin : In m' rest).
    { rewrite <- (Anchored_concat _ _ HA). apply in_concat.
      apply list_elem_of_In in Hm'.
      clear - HF Hm'. induction HF as [|g x gs' mel' Hg HF IH]; [destruct Hm'|].
      destruct Hm' as [<-|Hm'].
      - exists g. split; [now left | now apply firstHighest_In].
      - destruct (IH Hm') as (g' & Hg' & Hin). exists g'. split; [now right | exact Hin]. }
    rewrite Forall_forall in Hlate. specialize (Hlate m').
    rewrite list_elem_of_In in Hlate. specialize (Hlate Hin). lra.
Qed.

(** X1. After a load the melody notes are in the order of their start
    times, and no two of them start at the same time: each starts
    strictly later than the one before it. The notes as a whole are in
    ascending order of start time. *)
Theorem melody_starts_increase (m : Midi.t) (speed : Q) :
  exists sc,
    parseScore m speed = Some sc
    /\ StronglySorted (fun a b => Note.time a <= Note.time b) (sc_notes sc)
    /\ StronglySorted (fun a b => Note.time a < Note.time b) (sc_melodyNotes sc).
Proof.
  destruct (parseScore_groups m speed) as (gs & mel & _ & HA & HF & Hsc).
  eexists. split; [exact Hsc|]. simpl. split; [apply sortBy_sorted|].
  eapply melody_sorted; [exact HA | apply sortBy_sorted | exact HF].
Qed.

(** ** The hit detector, read backwards *)

Lemma find_some_first {A} (f : A -> bool) l x :
  find f l = Some x ->
  exists pre post, l = pre ++ x :: post
                   /\ Forall (fun y => f y = false) pre /\ f x = true.
Proof.
  induction l as [|y l IH]; simpl; [discriminate|].
  destruct (f y) eqn:E.
  - intros [= ->]. exists [], l. repeat split; [constructor | exact E].
  - intros H. destruct (IH H) as (pre & post & -> & Hpre & Hx).
    exists (y :: pre), post. repeat split; [now constructor | exact Hx].
Qed.

Lemma find_none_all {A} (f : A -> bool) l :
  find f l = None <-> forall y, In y l -> f y = false.
Proof.
  induction l as [|y l IH]; simpl; [split; [intros _ ? [] | reflexivity]|].
  destruct (f y) eqn:E.
  - split; [discriminate|]. intros H. rewrite (H y) in E; [discriminate | now left].
  - rewrite IH. split.
    + intros H z [<-|Hz]; [exact E | now apply H].
    + intros H z Hz. apply H. now right.
Qed.

Lemma touches_inv s fingerPoint note :
  touches s fingerPoint note = true ->
  (Note.id note ∉ playedMelodyIds s)
  /\ - lookBehind < Note.time note - currentTime s
  /\ Note.time note - currentTime s < lookAhead
  /\ exists keyData,
       find (fun k => (key_midi k =? Note.midi note)%Z) (pianoKeys s) = Some keyData
       /\ hitZoneY s - hitZoneTolerance <= noteBottom s note
       /\ noteTop s note <= hitZoneY s + hitZoneTolerance
       /\ keyX s keyData - noteWidth keyData / 2 <= pt_x fingerPoint
       /\ pt_x fingerPoint <= keyX s keyData + noteWidth keyData / 2
       /\ noteTop s note <= pt_y fingerPoint
       /\ pt_y fingerPoint <= noteBottom s note.
Proof.
  unfold touches.
  destruct (bool_decide (Note.id note ∈ playedMelodyIds s)) eqn:Hp; [discriminate|].
  apply not_played in Hp.
  destruct (Qltb (- lookBehind) _) eqn:H1; simpl; [|discriminate].
  destruct (Qltb _ lookAhead) eqn:H2; simpl; [|discriminate].
  apply qltb_iff in H1, H2.
  destruct (find _ (pianoKeys s)) as [keyData|]; [|discriminate].
  destruct (Qle_bool (hitZoneY s - hitZoneTolerance) _) eqn:H3; simpl; [|discriminate].
  destruct (Qle_bool (noteTop s note) (hitZoneY s + hitZoneTolerance)) eqn:H4;
    simpl; [|discriminate].
  apply Qle_bool_iff in H3, H4.
  intros H. apply andb_true_iff in H as [H H8]. apply andb_true_iff in H as [H H7].
  apply andb_true_iff in H as [H5 H6].
  apply Qle_bool_iff in H5, H6, H7, H8.
  split; [exact Hp|]. split; [exact H1|]. split; [exact H2|].
  exists keyData. repeat split; assumption.
Qed.

Lemma firstTouched_some s points n :
  firstTouched s points = Some n ->
  exists before p after before_n after_n,
    points = before ++ p :: after
    /\ (forall q x, In q before -> In x (melodyNotes s) -> touches s q x = false)
    /\ melodyNotes s = before_n ++ n :: after_n
    /\ Forall (fun x => touches s p x = false) before_n
    /\ touches s p n = true.
Proof.
  induction points as [|p points IH]; simpl; [discriminate|].
  destruct (find (touches s p) (melodyNotes s)) as [x|] eqn:E.
  - intros [= ->]. apply find_some_first in E as (pre & post & Hm & Hpre & Hn).
    exists [], p, points, pre, post. repeat split; try assumption. intros ? ? [].
  - intros H. destruct (IH H) as (before & q & after & bn & an & -> & Hb & Hm & Hbn & Hn).
    exists (p :: before), q, after, bn, an. repeat split; try assumption.
    intros q' x [<-|Hq] Hx; [|now apply Hb].
    now apply (proj1 (find_none_all _ _) E).
Qed.

Lemma firstTouched_none s points :
  firstTouched s points = None <->
  forall p n, In p points -> In n (melodyNotes s) -> touches s p n = false.
Proof.
  induction points as [|p points IH]; simpl; [split; [intros _ ? ? [] | reflexivity]|].
  destruct (find (touches s p) (melodyNotes s)) as [x|] eqn:E.
  - split; [discriminate|]. intros H.
    apply find_some_first in E as (pre & post & Hm & _ & Hx).
    rewrite (H p x) in Hx; [discriminate | now left |].
    rewrite Hm. apply in_elt.
  - rewrite IH. split.
    + intros H q n [<-|Hq] Hn; [|now apply H].
      now apply (proj1 (find_none_all _ _) E).
    + intros H q n Hq. apply H. now right.
Qed.

Lemma touches_needs_key s p n : pianoKeys s = [] -> touches s p n = false.
Proof.
  intros Hk. unfold touches. rewrite Hk. simpl.
  destruct (bool_decide _); [reflexivity|]. now destruct (_ && _).
Qed.

Lemma getTouchedNote_firstTouched s : getTouchedNote s = firstTouched s (allFingerPoints s).
Proof.
  unfold getTouchedNote.
  destruct (allFingerPoints s) as [|p ps] eqn:Ep; [reflexivity|].
  destruct (pianoKeys s) as [|k ks] eqn:Ek; [|reflexivity].
  symmetry. apply firstTouched_none. intros q n _ _. now apply touches_needs_key.
Qed.

(** X2. The note that [getTouchedNote] returns is a melody note that is
    not yet played, starts less than 0.5 s before and less than 3 s
    after the current time, has a key on the keyboard, overlaps the
    band of 50 px around the hit line, and has one of the finger points
    inside its rectangle. It is the first such melody note for the
    first finger point that is inside any. *)
Theorem touched_note_is_under_a_finger (s : State) (n : Note.t) :
  getTouchedNote s = Some n ->
  In n (melodyNotes s)
  /\ (Note.id n ∉ playedMelodyIds s)
  /\ - (1 # 2) < Note.time n - currentTime s < 3
  /\ (exists p keyData,
        In p (allFingerPoints s)
        /\ In keyData (pianoKeys s)
        /\ key_midi keyData = Note.midi n
        /\ canvasHeight (page s) * 0.6 - 50 <= noteBottom s n
        /\ noteTop s n <= canvasHeight (page s) * 0.6 + 50
        /\ keyX s keyData - noteWidth keyData / 2 <= pt_x p
           <= keyX s keyData + noteWidth keyData / 2
        /\ noteTop s n <= pt_y p <= noteBottom s n)
  /\ (exists before p after before_n after_n,
        allFingerPoints s = before ++ p :: after
        /\ (forall q x, In q before -> In x (melodyNotes s) -> touches s q x = false)
        /\ melodyNotes s = before_n ++ n :: after_n
        /\ Forall (fun x => touches s p x = false) before_n
        /\ touches s p n = true).
Proof.
  rewrite getTouchedNote_firstTouched. intros H.
  destruct (firstTouched_some _ _ _ H) as (before & p & after & bn & an & Hp & Hb & Hm & Hbn & Hn).
  destruct (touches_inv _ _ _ Hn) as (Hid & H1 & H2 & k & Hk & H3 & H4 & H5 & H6 & H7 & H8).
  assert (Hin : In n (melodyNotes s)) by (rewrite Hm; apply in_elt).
  split; [exact Hin|]. split; [exact Hid|].
  split; [unfold lookBehind, lookAhead in *; split; lra|].
  split.
  - exists p, k. apply find_some in Hk as [Hkin Hkm]. apply Z.eqb_eq in Hkm.
    split; [rewrite Hp; apply in_elt|].
    split; [exact Hkin|]. split; [exact Hkm|].
    unfold hitZoneY, hitZoneTolerance in *. repeat split; assumption.
  - exists before, p, after, bn, an. repeat split; assumption.
Qed.

Lemma touched_note_is_under_a_finger_witness :
  getTouchedNote samplePlaying = Some (loadedNote 0 1 64 0.04 0.5)
  /\ In (loadedNote 0 1 64 0.04 0.5) (melodyNotes samplePlaying)
  /\ (Note.id (loadedNote 0 1 64 0.04 0.5) ∉ playedMelodyIds samplePlaying).
Proof.
  assert (H : getTouchedNote samplePlaying = Some (loadedNote 0 1 64 0.04 0.5))
    by (vm_compute; reflexivity).
  destruct (touched_note_is_under_a_finger samplePlaying _ H) as (H1 & H2 & _).
  split; [exact H|]. split; [exact H1 | exact H2].
Defined.

(** X3. [getTouchedNote] finds nothing exactly when no finger point is
    inside any melody note: the two early exits, for no finger points
    and for an empty keyboard, change nothing in that. *)
Theorem no_touch_iff_no_finger_in_a_note (s : State) :
  getTouchedNote s = None <->
  forall p n, In p (allFingerPoints s) -> In n (melodyNotes s) -> touches s p n = false.
Proof. rewrite getTouchedNote_firstTouched. apply firstTouched_none. Qed.

(** ** What a touch does *)

Lemma fold_keeps {A B} (f : State -> A) (step : State -> B -> State) (l : list B) :
  (forall st x, f (step st x) = f st) ->
  forall s, f (fold_left step l s) = f s.
Proof.
  intros Hstep. induction l as [|x l IH]; intros s; simpl; [reflexivity|].
  now rewrite IH, Hstep.
Qed.

(** [fold_keeps] for a field that the loops over the melody leave alone. *)
Ltac keeps :=
  apply fold_keeps; intros;
  repeat match goal with |- context [if ?c then _ else _] => destruct c end;
  reflexivity.

Lemma handleMelodyGate_effect s n :
  getTouchedNote s = Some n ->
  isPlaying s || gatedPause s = true ->
  let s' := handleMelodyGate s in
  playedMelodyIds s'
  = playedMelodyIds s ∪ list_to_set (map Note.id (simultaneousNotes n s))
  /\ touchedMelodyCount s'
     = (touchedMelodyCount s + length (simultaneousNotes n s))%nat
  /\ melodyNotes s' = melodyNotes s.
Proof.
  intros Hn Hmode. unfold handleMelodyGate. rewrite Hn.
  destruct (playMelodyNote_fold (simultaneousNotes n s) s) as (Hp & Ht & _ & Hm).
  destruct (gatedPause s); [simpl; auto|].
  destruct (isPlaying s); [auto | discriminate].
Qed.

(** X4. When the gate runs with a note under a finger, that note is
    among the notes it plays: it is marked played and at least one
    credit is added. Afterwards no finger point touches it any more, so
    a finger that stays on the note does not score it a second time. *)
Theorem touch_scores_once (s : State) (n : Note.t) :
  getTouchedNote s = Some n ->
  isPlaying s || gatedPause s = true ->
  let s' := handleMelodyGate s in
  In n (simultaneousNotes n s)
  /\ Note.id n ∈ playedMelodyIds s'
  /\ (touchedMelodyCount s < touchedMelodyCount s')%nat
  /\ (forall p, touches s' p n = false)
  /\ getTouchedNote s' <> Some n.
Proof.
  intros Hn Hmode s'.
  destruct (handleMelodyGate_effect s n Hn Hmode) as (Hp & Ht & Hm).
  fold s' in Hp, Ht, Hm.
  assert (Hsim : In n (simultaneousNotes n s)).
  { rewrite getTouchedNote_firstTouched in Hn.
    destruct (firstTouched_some _ _ _ Hn) as (? & p & ? & bn & an & _ & _ & Hmel & _ & Htouch).
    apply simultaneousNotes_In. split; [rewrite Hmel; apply in_elt|].
    split; [now apply touches_inv in Htouch|].
    assert (E : Note.time n - Note.time n == 0) by ring.
    rewrite E. unfold epsilon. simpl. discriminate. }
  assert (Hplayed : Note.id n ∈ playedMelodyIds s').
  { rewrite Hp. apply elem_of_union_r, elem_of_list_to_set, list_elem_of_In.
    now apply in_map. }
  assert (Hnot : forall p, touches s' p n = false).
  { intros p. unfold touches. now rewrite bool_decide_eq_true_2. }
  split; [exact Hsim|]. split; [exact Hplayed|].
  split; [rewrite Ht; destruct (simultaneousNotes n s); [destruct Hsim | simpl; lia]|].
  split; [exact Hnot|].
  intros Hagain. rewrite getTouchedNote_firstTouched in Hagain.
  destruct (firstTouched_some _ _ _ Hagain) as (? & p & ? & ? & ? & _ & _ & _ & _ & Htouch).
  rewrite Hnot in Htouch. discriminate.
Qed.

Lemma touch_scores_once_witness :
  (getTouchedNote samplePlaying = Some (loadedNote 0 1 64 0.04 0.5)
   /\ isPlaying samplePlaying || gatedPause samplePlaying = true)
  /\ Note.id (loadedNote 0 1 64 0.04 0.5)
     ∈ playedMelodyIds (handleMelodyGate samplePlaying)
  /\ getTouchedNote (handleMelodyGate samplePlaying)
     <> Some (loadedNote 0 1 64 0.04 0.5).
Proof.
  assert (Htouched : getTouchedNote samplePlaying
                     = Some (loadedNote 0 1 64 0.04 0.5))
    by (vm_compute; reflexivity).
  assert (Hmode : isPlaying samplePlaying || gatedPause samplePlaying = true)
    by (vm_compute; reflexivity).
  destruct (touch_scores_once samplePlaying _ Htouched Hmode) as (_ & Hp & _ & _ & Hagain).
  split; [split; assumption|]. split; [exact Hp | exact Hagain].
Defined.

(** ** What holds of every state of the page *)

Lemma keyRange_bounds ns k : In k (keyRange ns) -> (21 <= k <= 108)%Z.
Proof.
  unfold keyRange. destruct (map Note.midi ns) as [|p ps]; [intros []|].
  intros H. apply in_map_iff in H as (i & <- & Hi). apply in_seq in Hi. lia.
Qed.

Lemma createPianoKeyboard_range s :
  Forall (fun k => (21 <= key_midi k <= 108)%Z) (pianoKeys s) ->
  Forall (fun k => (21 <= key_midi k <= 108)%Z) (pianoKeys (createPianoKeyboard s)).
Proof.
  intros H. unfold createPianoKeyboard. simpl.
  apply Forall_app. split; [exact H|].
  apply Forall_app. split; apply Forall_forall; intros k Hk;
    apply list_elem_of_In, in_map_iff in Hk as (z & <- & Hz);
    apply filter_In in Hz as [Hz _]; simpl; now apply keyRange_bounds in Hz.
Qed.

Lemma markBefore_played (l : list Note.t) : forall s,
  let s' :=
    fold_left
      (fun st n =>
         if Qltb (Note.time n) (currentTime st - 0.1)
         then set_playedMelodyIds (playedMelodyIds st ∪ {[ Note.id n ]}) st
         else st) l s in
  currentTime s' = currentTime s
  /\ forall i, i ∈ playedMelodyIds s'
               <-> i ∈ playedMelodyIds s
                   \/ exists n, In n l /\ Note.id n = i
                                /\ Note.time n < currentTime s - 0.1.
Proof.
  induction l as [|n l IH]; intros s; simpl.
  - split; [reflexivity|]. intros i. split; [now left|]. intros [H|(n & [] & _)]. exact H.
  - match goal with |- context [fold_left _ l ?st] => destruct (IH st) as (Hc & Hi) end.
    destruct (Qltb (Note.time n) (currentTime s - 0.1)) eqn:E.
    + apply qltb_iff in E. simpl in Hc, Hi. split; [exact Hc|].
      intros i. rewrite Hi. rewrite elem_of_union, elem_of_singleton. split.
      * intros [[H | ->] | (x & Hx & Hid & Ht)].
        -- now left.
        -- right. exists n. split; [now left|]. split; [reflexivity | exact E].
        -- right. exists x. split; [now right|]. split; assumption.
      * intros [H|(x & [<-|Hx] & Hid & Ht)].
        -- left. now left.
        -- left. right. now symmetry.
        -- right. exists x. split; [exact Hx|]. split; assumption.
    + apply qltb_false_iff in E. split; [exact Hc|].
      intros i. rewrite Hi. split.
      * intros [H|(x & Hx & Hid & Ht)]; [now left|].
        right. exists x. split; [now right|]. split; assumption.
      * intros [H|(x & [<-|Hx] & Hid & Ht)]; [now left | lra |].
        right. exists x. split; [exact Hx|]. split; assumption.
Qed.

Lemma ids_of_melody (l : list Note.t) (n : Note.t) :
  In n l -> Note.id n ∈ (list_to_set (map Note.id l) : gset NoteId).
Proof. intros H. apply elem_of_list_to_set, list_elem_of_In. now apply in_map. Qed.

Lemma score_is_percentage (touched total : nat) :
  (touched <= total)%nat ->
  let score := if (0 <? total)%nat
               then inject_Z (Z.of_nat touched) / inject_Z (Z.of_nat total) * 100
               else 0 in
  0 <= score <= 100.
Proof.
  intros Hle. simpl. destruct (0 <? total)%nat eqn:E; [|split; discriminate].
  apply Nat.ltb_lt in E.
  assert (Htot : 0 < inject_Z (Z.of_nat total)).
  { change 0 with (inject_Z 0). rewrite <- Zlt_Qlt. lia. }
  assert (Hq : 0 <= inject_Z (Z.of_nat touched) / inject_Z (Z.of_nat total) <= 1).
  { split.
    - apply Qle_shift_div_l; [exact Htot|]. rewrite Qmult_0_l.
      change 0 with (inject_Z 0). rewrite <- Zle_Qle. lia.
    - apply Qle_shift_div_r; [exact Htot|]. rewrite Qmult_1_l.
      rewrite <- Zle_Qle. lia. }
  split; lra.
Qed.

Lemma touched_le_melody s :
  creditsBounded s ->
  playedMelodyIds s ⊆ list_to_set (map Note.id (melodyNotes s)) ->
  (touchedMelodyCount s <= length (melodyNotes s))%nat.
Proof.
  intros [ND Hle] Hsub. etransitivity; [exact Hle|].
  apply subseteq_size in Hsub. rewrite size_list_to_set in Hsub by exact ND.
  now rewrite length_map in Hsub.
Qed.

Lemma handleMelodyGate_inv s :
  gatedPause s = false ->
  let s' := handleMelodyGate s in
  gatedPause s' = false
  /\ pianoKeys s' = pianoKeys s
  /\ finalScore s' = finalScore s
  /\ melodyNotes s' = melodyNotes s
  /\ isPlaying s' = isPlaying s
  /\ timers s' = timers s
  /\ playedMelodyIds s' ⊆ playedMelodyIds s ∪ list_to_set (map Note.id (melodyNotes s))
  /\ (isPlaying s = false -> s' = s).
Proof.
  intros Hg. unfold handleMelodyGate. rewrite Hg.
  destruct (getTouchedNote s) as [n|]; simpl;
    [|repeat split; first [assumption | reflexivity | apply union_subseteq_l]].
  destruct (isPlaying s) eqn:Hp;
    [|repeat split; first [assumption | reflexivity | apply union_subseteq_l]].
  destruct (playMelodyNote_fold (simultaneousNotes n s) s) as (Hpl & _ & _ & Hm).
  split; [rewrite <- Hg; keeps|]. split; [keeps|]. split; [keeps|].
  split; [exact Hm|]. split; [rewrite <- Hp; keeps|]. split; [keeps|].
  split; [|discriminate].
  rewrite Hpl. apply union_mono_l. intros i Hi.
  apply elem_of_list_to_set, list_elem_of_In, in_map_iff in Hi as (x & <- & Hx).
  apply simultaneousNotes_In in Hx as (Hx & _). now apply ids_of_melody.
Qed.

Lemma autoMark_inv s :
  let s' := autoMark s in
  gatedPause s' = gatedPause s
  /\ pianoKeys s' = pianoKeys s
  /\ finalScore s' = finalScore s
  /\ melodyNotes s' = melodyNotes s
  /\ playedMelodyIds s' ⊆ playedMelodyIds s ∪ list_to_set (map Note.id (melodyNotes s)).
Proof.
  unfold autoMark.
  destruct (autoMark_fold (melodyNotes s) s) as (_ & _ & Hm & _ & _ & Hi).
  split; [keeps|]. split; [keeps|]. split; [keeps|]. split; [exact Hm|].
  intros i Hin. apply Hi in Hin as [Hin|(n & Hn & <- & _)].
  - now apply elem_of_union_l.
  - now apply elem_of_union_r, ids_of_melody.
Qed.

Lemma union_self_subseteq (X Y : gset NoteId) : X ⊆ Y -> X ∪ Y ⊆ Y.
Proof. intros H. apply union_least; [exact H | reflexivity]. Qed.

Lemma pageInvariant_frame s s' :
  gatedPause s' = gatedPause s ->
  pianoKeys s' = pianoKeys s ->
  finalScore s' = finalScore s ->
  melodyNotes s' = melodyNotes s ->
  playedMelodyIds s' ⊆ playedMelodyIds s ∪ list_to_set (map Note.id (melodyNotes s)) ->
  pageInvariant s -> pageInvariant s'.
Proof.
  intros Hg Hk Hf Hm Hp (Ig & Ik & Ip & If).
  split; [now rewrite Hg|]. split; [now rewrite Hk|].
  split; [|now rewrite Hf].
  rewrite Hm. etransitivity; [exact Hp|]. now apply union_self_subseteq.
Qed.

Lemma gateAndDraw_inv s : pageInvariant s -> pageInvariant (gateAndDraw s).
Proof.
  intros HI. pose proof HI as (Hg & _).
  destruct (handleMelodyGate_inv s Hg) as (Hg3 & Hk3 & Hf3 & Hm3 & _ & _ & Hp3 & _).
  unfold gateAndDraw. destruct (isPlaying s || gatedPause s).
  - apply (pageInvariant_frame s);
      [exact (eq_trans Hg3 (eq_sym Hg)) | exact Hk3 | exact Hf3 | exact Hm3
      | exact Hp3 | exact HI].
  - exact HI.
Qed.

Lemma animate_inv s :
  creditsBounded s -> pageInvariant s -> pageInvariant (animate s).
Proof.
  intros HB HI. pose proof HI as (Hg & Hk & Hp & Hf). unfold animate.
  change (isPlaying (set_animating false s)) with (isPlaying s).
  destruct (isPlaying s) eqn:Hplay.
  - destruct (Qle_bool _ _).
    + split; [exact Hg|]. split; [exact Hk|]. split; [exact Hp|].
      apply (score_is_percentage (touchedMelodyCount s) (length (melodyNotes s))).
      now apply touched_le_melody.
    + apply gateAndDraw_inv.
      match goal with |- context [autoMark ?st] => set (s1 := st) end.
      destruct (autoMark_inv s1) as (Hg1 & Hk1 & Hf1 & Hm1 & Hp1).
      apply (pageInvariant_frame s);
        [exact Hg1 | exact Hk1 | exact Hf1 | exact Hm1 | exact Hp1 | exact HI].
  - apply gateAndDraw_inv. exact HI.
Qed.

Lemma seekTo_inv time s : pageInvariant s -> pageInvariant (seekTo time s).
Proof.
  intros (Hg & Hk & Hp & Hf). unfold seekTo.
  match goal with |- context [markBefore ?st] => set (s3 := st) end.
  destruct (markBefore_played (melodyNotes s3) s3) as (_ & Hi).
  fold (markBefore s3) in Hi.
  assert (Hg4 : gatedPause (markBefore s3) = gatedPause s3) by (unfold markBefore; keeps).
  assert (Hk4 : pianoKeys (markBefore s3) = pianoKeys s3) by (unfold markBefore; keeps).
  assert (Hf4 : finalScore (markBefore s3) = finalScore s3) by (unfold markBefore; keeps).
  assert (Hm4 : melodyNotes (markBefore s3) = melodyNotes s3) by (unfold markBefore; keeps).
  assert (Hp4 : playedMelodyIds (markBefore s3)
                ⊆ list_to_set (map Note.id (melodyNotes s3))).
  { intros i Hin. apply Hi in Hin as [Hin|(n & Hn & <- & _)].
    - now apply elem_of_empty in Hin.
    - now apply ids_of_melody. }
  assert (H4 : pageInvariant (markBefore s3)).
  { split; [rewrite Hg4; exact Hg|]. split; [rewrite Hk4; exact Hk|].
    split; [rewrite Hm4; exact Hp4 | rewrite Hf4; exact Hf]. }
  destruct (isPlaying (markBefore s3)); [exact H4 | exact H4].
Qed.

Section PageInvariant.
Variable fetchMidi : string -> option Midi.t.

Lemma songChange_inv song s s' :
  pageInvariant s -> songChange fetchMidi song s = Some s' -> pageInvariant s'.
Proof.
  intros (Hg & Hk & Hp & Hf). unfold songChange, loadMIDI.
  destruct (fetchMidi song) as [m|].
  - simpl. destruct (parseScore m _) as [sc|]; [|discriminate].
    intros [= <-].
    match goal with |- context [createPianoKeyboard ?st] => set (s4 := st) end.
    assert (Hk4 : Forall (fun k => (21 <= key_midi k <= 108)%Z)
                         (pianoKeys (createPianoKeyboard s4))).
    { apply createPianoKeyboard_range. subst s4. destruct (isPlaying s); constructor. }
    split; [subst s4; destruct (isPlaying s); exact Hg|].
    split; [exact Hk4|]. split; [apply empty_subseteq|].
    subst s4. destruct (isPlaying s); exact Hf.
  - intros [= <-]. destruct (isPlaying s); simpl;
      (split; [exact Hg|]; split; [constructor|]; split; [exact Hp | exact Hf]).
Qed.

Lemma speedChange_inv speed s s' :
  pageInvariant s -> speedChange fetchMidi speed s = Some s' -> pageInvariant s'.
Proof.
  intros (Hg & Hk & Hp & Hf). unfold speedChange, loadMIDI. simpl.
  destruct (fetchMidi (currentSong s)) as [m|].
  - destruct (parseScore m speed) as [sc|]; [|discriminate].
    intros [= <-]. simpl. destruct (isPlaying s); simpl;
      (split; [exact Hg|]; split; [exact Hk|]; split; [apply empty_subseteq | exact Hf]).
  - intros [= <-]. split; [exact Hg|]. split; [exact Hk|]. split; [exact Hp | exact Hf].
Qed.

Lemma timerFire_inv i s : pageInvariant s -> pageInvariant (timerFire i s).
Proof.
  intros HI. pose proof HI as (Hg & Hk & Hp & Hf). unfold timerFire.
  destruct (timers s !! i) as [[c|]|]; [| |exact HI].
  - destruct (_ <? 0)%Z; [|exact HI].
    split; [reflexivity|]. split; [exact Hk|]. split; [exact Hp | exact Hf].
  - exact HI.
Qed.

Lemma handle_inv e s s' :
  creditsBounded s -> pageInvariant s ->
  handle fetchMidi e s = Some s' -> pageInvariant s'.
Proof.
  intros HB HI. pose proof HI as (Hg & Hk & Hp & Hf).
  destruct e; simpl.
  - intros [= <-]. destruct (animating s); [now apply animate_inv | exact HI].
  - intros [= <-]. unfold clockAdvance. destruct (started _); exact HI.
  - intros [= <-]. exact HI.
  - intros [= <-]. exact HI.
  - intros [= <-]. unfold togglePlayback. destruct (_ && _); exact HI.
  - intros [= <-]. now apply timerFire_inv.
  - intros [= <-]. now apply seekTo_inv.
  - now apply songChange_inv.
  - now apply speedChange_inv.
  - intros [= <-]. unfold instrumentChange. destruct (isPlaying s); exact HI.
Qed.

Lemma init_inv p s : init fetchMidi p = Some s -> pageInvariant s.
Proof.
  unfold init, loadMIDI. destruct (fetchMidi _) as [m|]; [|discriminate].
  destruct (parseScore m _) as [sc|]; [|discriminate].
  intros [= <-]. split; [reflexivity|].
  split; [apply (createPianoKeyboard_range (set_score sc (blank p))); constructor|].
  split; [apply empty_subseteq|]. split; discriminate.
Qed.

Lemma reachable_inv s : reachable fetchMidi s -> pageInvariant s.
Proof.
  induction 1 as [p s Hinit | s e s' Hreach IH Hstep].
  - now apply (init_inv p).
  - eapply handle_inv; [|exact IH | exact Hstep]. now apply (reachable_bounded fetchMidi).
Qed.
End PageInvariant.

Lemma sampleLoaded_reachable : reachable sampleServer sampleLoaded.
Proof. apply (reachable_init sampleServer samplePage). vm_compute. reflexivity. Defined.

(** X5. Nothing in script.js turns the gated pause on: [gatedPause] is
    false in every state of the page. So while the game is not playing
    a frame never scores: whatever the hands do, it marks no note,
    adds no credit, sounds nothing and starts no countdown. *)
Theorem stopped_frame_never_scores
        (fetchMidi : string -> option Midi.t) (s s' : State) :
  reachable fetchMidi s ->
  isPlaying s = false ->
  handle fetchMidi Frame s = Some s' ->
  gatedPause s = false
  /\ isPlaying s' = false
  /\ playedMelodyIds s' = playedMelodyIds s
  /\ touchedMelodyCount s' = touchedMelodyCount s
  /\ synth s' = synth s
  /\ timers s' = timers s
  /\ currentTime s' = currentTime s.
Proof.
  intros Hreach Hplay. destruct (reachable_inv fetchMidi s Hreach) as (Hg & _).
  simpl. intros [= <-]. split; [exact Hg|].
  destruct (animating s); [|now repeat split].
  unfold animate, gateAndDraw. simpl. rewrite Hplay, Hg. simpl. now repeat split.
Qed.

Lemma stopped_frame_never_scores_witness :
  (reachable sampleServer sampleLoaded
   /\ isPlaying sampleLoaded = false
   /\ handle sampleServer Frame sampleLoaded = Some (animate sampleLoaded))
  /\ gatedPause sampleLoaded = false
  /\ touchedMelodyCount (animate sampleLoaded) = touchedMelodyCount sampleLoaded.
Proof.
  assert (Hplay : isPlaying sampleLoaded = false) by (vm_compute; reflexivity).
  assert (Hframe : handle sampleServer Frame sampleLoaded = Some (animate sampleLoaded))
    by (vm_compute; reflexivity).
  destruct (stopped_frame_never_scores sampleServer sampleLoaded _
              sampleLoaded_reachable Hplay Hframe) as (Hg & _ & _ & Ht & _).
  split; [split; [exact sampleLoaded_reachable | split; assumption]|].
  split; [exact Hg | exact Ht].
Defined.

(** X6. In every state of the page only melody notes are marked
    played, no more notes are credited than the melody has, and the
    final score is a percentage between 0 and 100. *)
Theorem score_is_a_percentage (fetchMidi : string -> option Midi.t) (s : State) :
  reachable fetchMidi s ->
  (forall i, i ∈ playedMelodyIds s ->
             exists n, In n (melodyNotes s) /\ Note.id n = i)
  /\ (touchedMelodyCount s <= length (melodyNotes s))%nat
  /\ 0 <= finalScore s <= 100.
Proof.
  intros Hreach. destruct (reachable_inv fetchMidi s Hreach) as (_ & _ & Hp & Hf).
  split; [|split; [|exact Hf]].
  - intros i Hi. apply Hp, elem_of_list_to_set, list_elem_of_In, in_map_iff in Hi
      as (n & Hid & Hn).
    now exists n.
  - apply touched_le_melody; [|exact Hp]. now apply (reachable_bounded fetchMidi).
Qed.

Lemma score_is_a_percentage_witness :
  reachable sampleServer sampleOverrun
  /\ (touchedMelodyCount sampleOverrun <= length (melodyNotes sampleOverrun))%nat
  /\ 0 <= finalScore sampleOverrun <= 100.
Proof.
  split; [exact sampleOverrun_reachable|].
  exact (proj2 (score_is_a_percentage sampleServer sampleOverrun
                  sampleOverrun_reachable)).
Defined.

(** X7. The keyboard never has a key outside the range of a piano,
    MIDI 21 to 108, so a melody note outside that range is never the
    note under a finger. *)
Theorem only_piano_pitches_are_touched
        (fetchMidi : string -> option Midi.t) (s : State) :
  reachable fetchMidi s ->
  Forall (fun k => (21 <= key_midi k <= 108)%Z) (pianoKeys s)
  /\ (forall n, getTouchedNote s = Some n -> (21 <= Note.midi n <= 108)%Z)
  /\ (forall p n, (Note.midi n < 21 \/ 108 < Note.midi n)%Z -> touches s p n = false).
Proof.
  intros Hreach. destruct (reachable_inv fetchMidi s Hreach) as (_ & Hk & _).
  assert (Htouch : forall p n, touches s p n = true -> (21 <= Note.midi n <= 108)%Z).
  { intros p n H. apply touches_inv in H as (_ & _ & _ & k & Hfind & _).
    apply find_some in Hfind as [Hin Hm]. apply Z.eqb_eq in Hm. rewrite <- Hm.
    rewrite Forall_forall in Hk. apply Hk. now apply list_elem_of_In. }
  split; [exact Hk|]. split.
  - intros n Hn. rewrite getTouchedNote_firstTouched in Hn.
    destruct (firstTouched_some _ _ _ Hn) as (? & p & ? & ? & ? & _ & _ & _ & _ & H).
    now apply (Htouch p).
  - intros p n Hout. destruct (touches s p n) eqn:E; [|reflexivity].
    apply Htouch in E. lia.
Qed.

Lemma only_piano_pitches_are_touched_witness :
  reachable sampleServer sampleOverrun
  /\ Forall (fun k => (21 <= key_midi k <= 108)%Z) (pianoKeys sampleOverrun).
Proof.
  split; [exact sampleOverrun_reachable|].
  exact (proj1 (only_piano_pitches_are_touched sampleServer sampleOverrun
                  sampleOverrun_reachable)).
Defined.

(** ** Starting, pausing and seeking *)

Lemma timerFire_countdown s ts c :
  timers s = ts ++ [Countdown c] ->
  timerFire (length ts) s
  = if (c - 1 <? 0)%Z
    then beginPlaying (set_timers ts s)
    else set_timers (ts ++ [Countdown (c - 1)]) s.
Proof.
  intros Ht. unfold timerFire. rewrite Ht.
  rewrite list_lookup_middle by reflexivity.
  destruct (c - 1 <? 0)%Z.
  - f_equal. f_equal. rewrite (delete_middle ts []). apply app_nil_r.
  - f_equal. rewrite (insert_app_r_alt ts) by reflexivity.
    now rewrite Nat.sub_diag.
Qed.

Lemma timerFire_tick s ts c :
  timerFire (length ts) (set_timers (ts ++ [Countdown c]) s)
  = if (c - 1 <? 0)%Z
    then beginPlaying (set_timers ts s)
    else set_timers (ts ++ [Countdown (c - 1)]) s.
Proof. now rewrite (timerFire_countdown _ ts c). Qed.

Lemma beginPlaying_effect s :
  let s' := beginPlaying s in
  isPlaying s' = true
  /\ gatedPause s' = false
  /\ seconds (transport s') = currentTime s
  /\ started (transport s') = true
  /\ timeline (transport s')
     = map (fun note => {| sch_at := Note.time note;
                           sch_midi := Note.midi note;
                           sch_duration := Note.duration note;
                           sch_velocity := Note.velocity note |})
           (List.filter (fun note => Qle_bool (currentTime s) (Note.time note))
                        (harmonyNotes s))
  /\ currentTime s' = currentTime s
  /\ playedMelodyIds s' = playedMelodyIds s
  /\ touchedMelodyCount s' = touchedMelodyCount s
  /\ timers s' = timers s.
Proof.
  unfold beginPlaying.
  unfold scheduleNotes. simpl.
  rewrite (schedule_fold Note.duration). simpl.
  repeat split.
Qed.

Lemma countdown_runs s :
  isPlaying s = false ->
  gatedPause s = false ->
  let i := length (timers s) in
  togglePlayback s = set_timers (timers s ++ [Countdown 3]) s
  /\ timerFire i (timerFire i (timerFire i (togglePlayback s)))
     = set_timers (timers s ++ [Countdown 0]) s
  /\ timerFire i (timerFire i (timerFire i (timerFire i (togglePlayback s))))
     = beginPlaying (set_timers (timers s) s).
Proof.
  intros Hplay Hg i.
  assert (Harmed : togglePlayback s = set_timers (timers s ++ [Countdown 3]) s).
  { unfold togglePlayback. now rewrite Hplay, Hg. }
  assert (Hwaiting : timerFire i (timerFire i (timerFire i (togglePlayback s)))
                     = set_timers (timers s ++ [Countdown 0]) s).
  { rewrite Harmed. unfold i.
    rewrite (timerFire_tick s (timers s) 3 : _ = set_timers (_ ++ [Countdown 2]) s).
    rewrite (timerFire_tick s (timers s) 2 : _ = set_timers (_ ++ [Countdown 1]) s).
    exact (timerFire_tick s (timers s) 1). }
  split; [exact Harmed|]. split; [exact Hwaiting|].
  rewrite Hwaiting. exact (timerFire_tick s (timers s) 0).
Qed.

(** X8. A click on Play while the game is stopped arms a countdown
    from 3. Its first three ticks leave the game stopped and the
    transport as it was; the game starts on the fourth tick, from
    [currentTime], with exactly the harmony notes scheduled that start
    at or after [currentTime]. *)
Theorem playback_starts_on_fourth_tick (s : State) :
  isPlaying s = false ->
  gatedPause s = false ->
  let i := length (timers s) in
  let armed := togglePlayback s in
  let waiting := timerFire i (timerFire i (timerFire i armed)) in
  let playing := timerFire i waiting in
  timers armed = timers s ++ [Countdown 3]
  /\ (isPlaying waiting = false
      /\ transport waiting = transport s
      /\ timers waiting = timers s ++ [Countdown 0])
  /\ isPlaying playing = true
  /\ timers playing = timers s
  /\ seconds (transport playing) = currentTime s
  /\ started (transport playing) = true
  /\ timeline (transport playing)
     = map (fun note => {| sch_at := Note.time note;
                           sch_midi := Note.midi note;
                           sch_duration := Note.duration note;
                           sch_velocity := Note.velocity note |})
           (List.filter (fun note => Qle_bool (currentTime s) (Note.time note))
                        (harmonyNotes s))
  /\ playedMelodyIds playing = playedMelodyIds s
  /\ touchedMelodyCount playing = touchedMelodyCount s.
Proof.
  intros Hplay Hg i armed waiting playing.
  destruct (countdown_runs s Hplay Hg) as (Harmed & Hwaiting & Hplaying).
  fold i armed in Harmed, Hwaiting, Hplaying. fold waiting in Hwaiting, Hplaying.
  fold playing in Hplaying.
  split; [now rewrite Harmed|].
  split; [rewrite Hwaiting; simpl; auto|].
  rewrite Hplaying.
  destruct (beginPlaying_effect (set_timers (timers s) s))
    as (H1 & _ & H3 & H4 & H5 & _ & H7 & H8 & H9).
  repeat split; assumption.
Qed.

Lemma playback_starts_on_fourth_tick_witness :
  (isPlaying sampleLoaded = false /\ gatedPause sampleLoaded = false)
  /\ isPlaying (timerFire 0 (timerFire 0 (timerFire 0 (togglePlayback sampleLoaded))))
     = false
  /\ isPlaying (timerFire 0 (timerFire 0 (timerFire 0
                  (timerFire 0 (togglePlayback sampleLoaded))))) = true.
Proof.
  assert (Hplay : isPlaying sampleLoaded = false) by (vm_compute; reflexivity).
  assert (Hg : gatedPause sampleLoaded = false) by (vm_compute; reflexivity).
  destruct (playback_starts_on_fourth_tick sampleLoaded Hplay Hg)
    as (_ & (Hw & _) & Hp & _).
  split; [split; assumption|]. split; [exact Hw | exact Hp].
Defined.

(** X9. Pausing remembers the position of the transport in
    [currentTime] and stops and empties the transport; resuming, once
    the countdown has run out, puts the transport back at that
    position and schedules the harmony notes that start at or after
    it. The played notes and the credits are as they were. *)
Theorem pause_then_resume_keeps_position (s : State) :
  isPlaying s = true ->
  gatedPause s = false ->
  let i := length (timers s) in
  let paused := togglePlayback s in
  let resumed :=
    timerFire i (timerFire i (timerFire i (timerFire i (togglePlayback paused)))) in
  (isPlaying paused = false
   /\ currentTime paused = seconds (transport s)
   /\ seconds (transport paused) = 0
   /\ started (transport paused) = false
   /\ timeline (transport paused) = [])
  /\ isPlaying resumed = true
  /\ seconds (transport resumed) = seconds (transport s)
  /\ started (transport resumed) = true
  /\ timeline (transport resumed)
     = map (fun note => {| sch_at := Note.time note;
                           sch_midi := Note.midi note;
                           sch_duration := Note.duration note;
                           sch_velocity := Note.velocity note |})
           (List.filter
              (fun note => Qle_bool (seconds (transport s)) (Note.time note))
              (harmonyNotes s))
  /\ playedMelodyIds resumed = playedMelodyIds s
  /\ touchedMelodyCount resumed = touchedMelodyCount s
  /\ timers resumed = timers s.
Proof.
  intros Hplay Hg i paused resumed.
  assert (Hpaused : paused = pausePlayback s).
  { unfold paused, togglePlayback. now rewrite Hplay. }
  assert (Hp1 : isPlaying paused = false) by now rewrite Hpaused.
  assert (Hg1 : gatedPause paused = false) by now rewrite Hpaused.
  destruct (countdown_runs paused Hp1 Hg1) as (_ & _ & Hresumed).
  assert (Hi : length (timers paused) = i) by now rewrite Hpaused.
  rewrite Hi in Hresumed. fold resumed in Hresumed.
  split; [rewrite Hpaused; simpl; auto|].
  rewrite Hresumed.
  destruct (beginPlaying_effect (set_timers (timers paused) paused))
    as (H1 & _ & H3 & H4 & H5 & _ & H7 & H8 & H9).
  rewrite H1, H3, H4, H5, H7, H8, H9, Hpaused. simpl. auto 10.
Qed.

Lemma pause_then_resume_keeps_position_witness :
  (isPlaying sampleMidway = true /\ gatedPause sampleMidway = false)
  /\ seconds (transport sampleMidway) == 0.5
  /\ seconds (transport (togglePlayback sampleMidway)) = 0
  /\ seconds (transport
        (timerFire 0 (timerFire 0 (timerFire 0 (timerFire 0
           (togglePlayback (togglePlayback sampleMidway)))))))
     = seconds (transport sampleMidway).
Proof.
  assert (Hplay : isPlaying sampleMidway = true) by (vm_compute; reflexivity).
  assert (Hg : gatedPause sampleMidway = false) by (vm_compute; reflexivity).
  destruct (pause_then_resume_keeps_position sampleMidway Hplay Hg)
    as ((_ & _ & Hstop & _) & _ & Hpos & _).
  split; [split; assumption|]. split; [vm_compute; reflexivity|].
  split; [exact Hstop | exact Hpos].
Defined.

(** X10. Seeking clamps the requested time into the song, takes the
    credits back to nought, and marks as played exactly the melody
    notes that start more than 0.1 s before the new time; the game is
    not playing afterwards, and if it was, a restart is pending. *)
Theorem seek_clamps_and_remarks (time : Q) (s : State) :
  0 <= duration s ->
  let s' := seekTo time s in
  0 <= currentTime s' <= duration s
  /\ (0 <= time <= duration s -> currentTime s' == time)
  /\ touchedMelodyCount s' = 0%nat
  /\ (forall i, i ∈ playedMelodyIds s'
                <-> exists n, In n (melodyNotes s) /\ Note.id n = i
                              /\ Note.time n < currentTime s' - 0.1)
  /\ isPlaying s' = false
  /\ (isPlaying s = true -> timers s' = timers s ++ [Restart])
  /\ (isPlaying s = false ->
      timers s' = timers s /\ seconds (transport s') = currentTime s').
Proof.
  intros Hd. unfold seekTo.
  match goal with |- context [markBefore ?st] => set (s3 := st) end.
  destruct (markBefore_played (melodyNotes s3) s3) as (Hc & Hi).
  destruct (markBefore_fold (melodyNotes s3) s3) as (Ht & _ & Hp).
  fold (markBefore s3) in Hc, Hi, Ht, Hp.
  assert (Htr : transport (markBefore s3) = transport s3) by (unfold markBefore; keeps).
  assert (Htm : timers (markBefore s3) = timers s3) by (unfold markBefore; keeps).
  set (t := Qmax 0 (Qmin time (duration s))) in *.
  assert (Ht3 : currentTime s3 = t) by reflexivity.
  assert (Hm3 : melodyNotes s3 = melodyNotes s) by reflexivity.
  assert (Hclamp : 0 <= t <= duration s).
  { unfold t. split; [apply Q.le_max_l|].
    apply Q.max_lub; [exact Hd | apply Q.le_min_r]. }
  assert (Hin : 0 <= time <= duration s -> t == time).
  { intros [H0 H1]. unfold t. rewrite Q.min_l by exact H1. now apply Q.max_r. }
  assert (Hids : forall i, i ∈ playedMelodyIds (markBefore s3)
                           <-> exists n, In n (melodyNotes s) /\ Note.id n = i
                                         /\ Note.time n < t - 0.1).
  { intros i. rewrite Hi, Hm3, Ht3. split; [|now right].
    intros [H|H]; [now apply elem_of_empty in H | exact H]. }
  assert (Hsec : seconds (transport s3) = t) by reflexivity.
  destruct (isPlaying s) eqn:Hplay.
  - assert (Hp4 : isPlaying (markBefore s3) = true) by (rewrite Hp; exact Hplay).
    rewrite Hp4. simpl. rewrite Htr, Hsec, Ht, Htm.
    repeat split; try tauto; try discriminate; try apply Hids.
  - assert (Hp4 : isPlaying (markBefore s3) = false) by (rewrite Hp; exact Hplay).
    rewrite Hp4, Hc, Ht, Htm, Htr, Hsec, Ht3.
    repeat split; try tauto; try discriminate; try apply Hids.
Qed.

Lemma seek_clamps_and_remarks_witness :
  0 <= duration sampleLoaded
  /\ currentTime (seekTo 5 sampleLoaded) == 2
  /\ touchedMelodyCount (seekTo 5 sampleLoaded) = 0%nat.
Proof.
  assert (Hd : 0 <= duration sampleLoaded) by (vm_compute; discriminate).
  destruct (seek_clamps_and_remarks 5 sampleLoaded Hd) as (_ & _ & Ht & _).
  split; [exact Hd|]. split; [vm_compute; reflexivity | exact Ht].
Defined.

(** ** Changing the song or the speed *)

(** X11. A change of speed while the game is playing reloads the
    score and clears the played notes and the credits, but does not go
    back to the start: the game is paused at the position the transport
    had, counted in the seconds of the old speed, and a countdown to
    resume from there is armed. While the game is not playing the same
    change takes the current time back to 0. *)
Theorem speed_change_keeps_position
        (fetchMidi : string -> option Midi.t) (speed : Q) (s : State) (m : Midi.t) :
  fetchMidi (currentSong s) = Some m ->
  exists s',
    speedChange fetchMidi speed s = Some s'
    /\ playedMelodyIds s' = ∅
    /\ touchedMelodyCount s' = 0%nat
    /\ isPlaying s' = false
    /\ (isPlaying s = true ->
        currentTime s' = seconds (transport s)
        /\ timers s' = timers s ++ [Countdown 3]
        /\ seconds (transport s') = 0
        /\ timeline (transport s') = [])
    /\ (isPlaying s = false ->
        currentTime s' = 0 /\ timers s' = timers s /\ transport s' = transport s).
Proof.
  intros Hm. destruct (parseScore_partition m speed) as (sc & Hsc & _).
  unfold speedChange, loadMIDI. simpl. rewrite Hm, Hsc. simpl.
  eexists. split; [reflexivity|].
  destruct (isPlaying s) eqn:E; simpl; rewrite ?E;
    repeat split; try discriminate; try (intros _; repeat split).
Qed.

Lemma speed_change_keeps_position_witness :
  sampleServer (currentSong sampleMidway) = Some sampleMidi
  /\ exists s',
       speedChange sampleServer 0.5 sampleMidway = Some s'
       /\ touchedMelodyCount s' = 0%nat
       /\ currentTime s' = seconds (transport sampleMidway).
Proof.
  assert (Hm : sampleServer (currentSong sampleMidway) = Some sampleMidi) by reflexivity.
  destruct (speed_change_keeps_position sampleServer 0.5 sampleMidway sampleMidi Hm)
    as (s' & Hs & _ & Ht & _ & Hplay & _).
  split; [exact Hm|]. exists s'. split; [exact Hs|]. split; [exact Ht|].
  apply Hplay. vm_compute. reflexivity.
Defined.

(** X12. When the download of the chosen song fails, the handler has
    already emptied the keyboard: the old score stays loaded under the
    new song's name, the game is not playing, and with no keys no note
    can be touched, so the gate changes nothing. A change of speed then
    downloads the new name, fails again, and only changes
    [currentSpeed]: the notes keep their old timing. *)
Theorem failed_song_change_leaves_no_keys
        (fetchMidi : string -> option Midi.t) (song : string) (s : State) :
  fetchMidi song = None ->
  exists s',
    songChange fetchMidi song s = Some s'
    /\ currentSong s' = song
    /\ (notes s' = notes s /\ melodyNotes s' = melodyNotes s
        /\ harmonyNotes s' = harmonyNotes s /\ duration s' = duration s)
    /\ (playedMelodyIds s' = playedMelodyIds s
        /\ touchedMelodyCount s' = touchedMelodyCount s)
    /\ isPlaying s' = false
    /\ pianoKeys s' = []
    /\ getTouchedNote s' = None
    /\ handleMelodyGate s' = s'
    /\ (forall speed, speedChange fetchMidi speed s' = Some (set_currentSpeed speed s')).
Proof.
  intros Hfail. unfold songChange, loadMIDI. simpl. rewrite Hfail.
  eexists. split; [reflexivity|].
  match goal with |- context [set_pianoKeys [] ?st] => set (s2 := st) end.
  assert (Hnone : getTouchedNote (set_pianoKeys [] s2) = None).
  { unfold getTouchedNote. simpl. now destruct (allFingerPoints s2). }
  split; [subst s2; now destruct (isPlaying s)|].
  split; [subst s2; now destruct (isPlaying s)|].
  split; [subst s2; now destruct (isPlaying s)|].
  split; [subst s2; now destruct (isPlaying s) eqn:E|].
  split; [reflexivity|]. split; [exact Hnone|].
  split; [unfold handleMelodyGate; now rewrite Hnone|].
  intros speed. unfold speedChange, loadMIDI.
  assert (Hsong : currentSong (set_currentSpeed speed (set_pianoKeys [] s2)) = song)
    by (subst s2; now destruct (isPlaying s)).
  now rewrite Hsong, Hfail.
Qed.

Lemma failed_song_change_leaves_no_keys_witness :
  serverDown "Missing.mid" = None
  /\ exists s',
       songChange serverDown "Missing.mid" sampleMidway = Some s'
       /\ pianoKeys s' = []
       /\ melodyNotes s' = melodyNotes sampleMidway.
Proof.
  assert (Hfail : serverDown "Missing.mid" = None) by reflexivity.
  destruct (failed_song_change_leaves_no_keys serverDown "Missing.mid" sampleMidway Hfail)
    as (s' & Hs & _ & (_ & Hm & _) & _ & _ & Hk & _).
  split; [exact Hfail|]. exists s'. split; [exact Hs|]. split; [exact Hk | exact Hm].
Defined.

(** ** After the last frame *)

Lemma handle_keeps_stopped_loop (fetchMidi : string -> option Midi.t) e s s' :
  animating s = false ->
  handle fetchMidi e s = Some s' ->
  animating s' = false
  /\ synth s' = synth s
  /\ (touchedMelodyCount s' <= touchedMelodyCount s)%nat
  /\ finalScore s' = finalScore s.
Proof.
  intros Ha. destruct e; simpl.
  - rewrite Ha. intros [= <-]. auto.
  - intros [= <-]. unfold clockAdvance. destruct (started _); auto.
  - intros [= <-]. auto.
  - intros [= <-]. auto.
  - intros [= <-]. unfold togglePlayback. destruct (_ && _); auto.
  - intros [= <-]. unfold timerFire.
    destruct (timers s !! i) as [[c|]|]; [|auto..].
    destruct (_ <? 0)%Z; auto.
  - intros [= <-]. unfold seekTo.
    match goal with |- context [markBefore ?st] => set (s3 := st) end.
    assert (H1 : animating (markBefore s3) = animating s3) by (unfold markBefore; keeps).
    assert (H2 : synth (markBefore s3) = synth s3) by (unfold markBefore; keeps).
    assert (H3 : touchedMelodyCount (markBefore s3) = touchedMelodyCount s3)
      by (unfold markBefore; keeps).
    assert (H4 : finalScore (markBefore s3) = finalScore s3) by (unfold markBefore; keeps).
    destruct (isPlaying (markBefore s3)); simpl; rewrite H1, H2, H3, H4; simpl;
      repeat split; try assumption; lia.
  - unfold songChange, loadMIDI. destruct (fetchMidi song) as [m|].
    + destruct (parseScore m _) as [sc|]; [|discriminate].
      intros [= <-]. destruct (isPlaying s) eqn:E; simpl; rewrite ?E; simpl;
        repeat split; try assumption; lia.
    + intros [= <-]. destruct (isPlaying s) eqn:E; simpl; rewrite ?E; simpl;
        repeat split; try assumption; lia.
  - unfold speedChange, loadMIDI. simpl. destruct (fetchMidi _) as [m|].
    + destruct (parseScore m _) as [sc|]; [|discriminate].
      intros [= <-]. simpl. destruct (isPlaying s) eqn:E; simpl;
        repeat split; try assumption; lia.
    + intros [= <-]. auto.
  - intros [= <-]. unfold instrumentChange. destruct (isPlaying s); auto.
Qed.

Lemma runEvents_keeps_stopped_loop (fetchMidi : string -> option Midi.t) es :
  forall s s',
  animating s = false ->
  runEvents fetchMidi es s = Some s' ->
  animating s' = false
  /\ synth s' = synth s
  /\ (touchedMelodyCount s' <= touchedMelodyCount s)%nat
  /\ finalScore s' = finalScore s.
Proof.
  unfold runEvents. induction es as [|e es IH] using rev_ind; intros s s' Ha Hrun.
  - injection Hrun as <-. auto.
  - rewrite foldl_snoc in Hrun.
    destruct (foldl (fun st e => st ≫= handle fetchMidi e) (Some s) es)
      as [s1|] eqn:E; [|discriminate].
    simpl in Hrun. destruct (IH s s1 Ha E) as (H1 & H2 & H3 & H4).
    destruct (handle_keeps_stopped_loop fetchMidi e s1 s' H1 Hrun) as (K1 & K2 & K3 & K4).
    rewrite K2, K4. repeat split; try assumption. lia.
Qed.

(** X13. The frame that ends the song requests no further frame, and
    no handler starts the frame loop again. So after the end screen, a
    frame changes nothing whatever the controls do: no note sounds
    from a touch, no credit is added and the final score stays. *)
Theorem frame_loop_ends_with_the_song
        (fetchMidi : string -> option Midi.t) (s : State) (es : list Event) (s' : State) :
  isPlaying s = true ->
  duration s <= seconds (transport s) ->
  runEvents fetchMidi es (animate s) = Some s' ->
  animating (animate s) = false
  /\ animating s' = false
  /\ handle fetchMidi Frame s' = Some s'
  /\ synth s' = synth s
  /\ (touchedMelodyCount s' <= touchedMelodyCount s)%nat
  /\ finalScore s' = finalScore (animate s).
Proof.
  intros Hplay Hend Hrun.
  destruct (animate_end s Hplay Hend) as (_ & Ha & _ & _ & Ht & _).
  destruct (runEvents_keeps_stopped_loop fetchMidi es _ _ Ha Hrun) as (H1 & H2 & H3 & H4).
  split; [exact Ha|]. split; [exact H1|].
  split; [simpl; now rewrite H1|].
  split; [rewrite H2; unfold animate; simpl; rewrite Hplay;
          apply Qle_bool_iff in Hend; now rewrite Hend|].
  split; [lia | exact H4].
Qed.

Lemma frame_loop_ends_with_the_song_witness :
  (isPlaying sampleOverrun = true
   /\ duration sampleOverrun <= seconds (transport sampleOverrun)
   /\ runEvents sampleServer
        [ProgressInput 0; PlayClick; TimerFire 0; TimerFire 0; TimerFire 0;
         TimerFire 0; Clock 0.1; Frame]
        (animate sampleOverrun)
      = Some (default sampleEnded
                (runEvents sampleServer
                   [ProgressInput 0; PlayClick; TimerFire 0; TimerFire 0;
                    TimerFire 0; TimerFire 0; Clock 0.1]
                   sampleEnded)))
  /\ isPlaying (default sampleEnded
                  (runEvents sampleServer
                     [ProgressInput 0; PlayClick; TimerFire 0; TimerFire 0;
                      TimerFire 0; TimerFire 0; Clock 0.1]
                     sampleEnded)) = true
  /\ animating (default sampleEnded
                  (runEvents sampleServer
                     [ProgressInput 0; PlayClick; TimerFire 0; TimerFire 0;
                      TimerFire 0; TimerFire 0; Clock 0.1]
                     sampleEnded)) = false.
Proof.
  assert (Hplay : isPlaying sampleOverrun = true) by (vm_compute; reflexivity).
  assert (Hend : duration sampleOverrun <= seconds (transport sampleOverrun))
    by (vm_compute; discriminate).
  match goal with |- (_ /\ _ /\ ?run = Some ?st) /\ _ =>
    assert (Hrun : run = Some st) by (vm_compute; reflexivity) end.
  destruct (frame_loop_ends_with_the_song sampleServer sampleOverrun _ _ Hplay Hend Hrun)
    as (_ & Ha & _).
  split; [split; [exact Hplay | split; [exact Hend | exact Hrun]]|].
  split; [vm_compute; reflexivity | exact Ha].
Defined.

(** ** The keyboard *)

Lemma foldr_min_le p ps x : In x (p :: ps) -> (foldr Z.min p ps <= x)%Z.
Proof.
  induction ps as [|q ps IH]; simpl.
  - intros [<-|[]]. lia.
  - intros [<-|[<-|H]]; [specialize (IH (or_introl eq_refl)) | | specialize (IH (or_intror H))]; lia.
Qed.

Lemma foldr_max_ge p ps x : In x (p :: ps) -> (x <= foldr Z.max p ps)%Z.
Proof.
  induction ps as [|q ps IH]; simpl.
  - intros [<-|[]]. lia.
  - intros [<-|[<-|H]]; [specialize (IH (or_introl eq_refl)) | | specialize (IH (or_intror H))]; lia.
Qed.

Lemma keyRange_In ns n :
  In n ns -> (21 <= Note.midi n <= 108)%Z -> In (Note.midi n) (keyRange ns).
Proof.
  intros Hn Hr. apply (in_map Note.midi) in Hn. unfold keyRange.
  destruct (map Note.midi ns) as [|p ps]; [destruct Hn|].
  pose proof (foldr_min_le p ps _ Hn). pose proof (foldr_max_ge p ps _ Hn).
  apply in_map_iff.
  exists (Z.to_nat (Note.midi n - Z.max 21 (foldr Z.min p ps - 3))).
  split; [lia|]. apply in_seq. lia.
Qed.

Lemma keyRange_NoDup ns : NoDup (keyRange ns).
Proof.
  unfold keyRange. destruct (map Note.midi ns) as [|p ps]; [constructor|].
  apply NoDup_ListNoDup, Finite.Injective_map_NoDup; [|apply seq_NoDup].
  intros a b. lia.
Qed.

Lemma filter_split_perm {A} (f : A -> bool) l :
  l ≡ₚ List.filter f l ++ List.filter (fun x => negb (f x)) l.
Proof.
  induction l as [|x l IH]; simpl; [reflexivity|].
  destruct (f x); simpl; [now constructor|].
  rewrite <- Permutation_middle. now constructor.
Qed.

Lemma find_unique_key keys k :
  NoDup (map key_midi keys) -> In k keys ->
  find (fun k' => (key_midi k' =? key_midi k)%Z) keys = Some k.
Proof.
  induction keys as [|k0 keys IH]; simpl; [intros _ []|].
  intros ND Hin. apply NoDup_cons in ND as [Hk0 ND].
  destruct (key_midi k0 =? key_midi k)%Z eqn:E.
  - apply Z.eqb_eq in E. destruct Hin as [->|Hin]; [reflexivity|].
    exfalso. apply Hk0. rewrite E. now apply list_elem_of_In, in_map.
  - destruct Hin as [->|Hin]; [rewrite Z.eqb_refl in E; discriminate|].
    now apply IH.
Qed.

(** X14. The keyboard that [createPianoKeyboard] builds on an empty
    list of keys has one key for every pitch from three semitones below
    the lowest note to three above the highest, cut to the piano range
    21 to 108: no pitch has two keys, every note in the piano range
    finds its own key, of the right colour, and a song without notes
    gets no keys at all. *)
Theorem keyboard_covers_the_notes (s : State) :
  pianoKeys s = [] ->
  let keys := pianoKeys (createPianoKeyboard s) in
  (forall n, In n (notes s) -> (21 <= Note.midi n <= 108)%Z ->
             find (fun k => (key_midi k =? Note.midi n)%Z) keys
             = Some {| key_midi := Note.midi n; isWhite := isWhiteKey (Note.midi n) |})
  /\ (forall k, In k keys ->
                (21 <= key_midi k <= 108)%Z /\ isWhite k = isWhiteKey (key_midi k))
  /\ NoDup (map key_midi keys)
  /\ (forall k, In k (map key_midi keys) <->
                exists lo hi, In lo (map Note.midi (notes s))
                              /\ In hi (map Note.midi (notes s))
                              /\ (forall x, In x (map Note.midi (notes s)) -> lo <= x <= hi)
                              /\ Z.max 21 (lo - 3) <= k <= Z.min 108 (hi + 3))%Z
  /\ (notes s = [] -> keys = []).
Proof.
  intros Hempty keys.
  set (range := keyRange (notes s)).
  assert (Hkeys : keys = map (fun k => {| key_midi := k; isWhite := true |})
                             (List.filter isWhiteKey range)
                         ++ map (fun k => {| key_midi := k; isWhite := false |})
                                (List.filter (fun k => negb (isWhiteKey k)) range)).
  { unfold keys, createPianoKeyboard. simpl. now rewrite Hempty. }
  assert (Hmidi : map key_midi keys
                  = List.filter isWhiteKey range
                    ++ List.filter (fun k => negb (isWhiteKey k)) range).
  { rewrite Hkeys, map_app, !map_map. simpl. now rewrite !map_id. }
  assert (Hperm : map key_midi keys ≡ₚ range).
  { rewrite Hmidi. symmetry. apply filter_split_perm. }
  assert (ND : NoDup (map key_midi keys)).
  { rewrite Hperm. apply keyRange_NoDup. }
  assert (Hin : forall z, In z range ->
                          In {| key_midi := z; isWhite := isWhiteKey z |} keys).
  { intros z Hz. rewrite Hkeys. apply in_or_app.
    destruct (isWhiteKey z) eqn:E.
    - left. apply in_map_iff. exists z. split; [reflexivity|].
      apply filter_In. now split.
    - right. apply in_map_iff. exists z. split; [reflexivity|].
      apply filter_In. split; [exact Hz | now rewrite E]. }
  split; [|split; [|split; [exact ND|split]]].
  - intros n Hn Hr.
    apply (find_unique_key keys {| key_midi := Note.midi n;
                                   isWhite := isWhiteKey (Note.midi n) |} ND).
    apply Hin. now apply keyRange_In.
  - intros k Hk. rewrite Hkeys in Hk. apply in_app_or in Hk as [Hk|Hk];
      apply in_map_iff in Hk as (z & <- & Hz); apply filter_In in Hz as [Hz Hw]; simpl.
    + split; [now apply keyRange_bounds in Hz | now rewrite Hw].
    + split; [now apply keyRange_bounds in Hz|].
      now destruct (isWhiteKey z).
  - intros k. rewrite <- list_elem_of_In, Hperm, list_elem_of_In.
    unfold range, keyRange. destruct (map Note.midi (notes s)) as [|p ps] eqn:Ep.
    + split; [intros [] | intros (lo & _ & [] & _)].
    + assert (Hmin : In (foldr Z.min p ps) (p :: ps)).
      { clear. induction ps as [|q ps IH]; simpl; [now left|].
        destruct (Z.min_spec q (foldr Z.min p ps)) as [[_ ->]|[_ ->]]; [right; now left|].
        destruct IH as [IH|IH]; [now left | right; now right]. }
      assert (Hmax : In (foldr Z.max p ps) (p :: ps)).
      { clear. induction ps as [|q ps IH]; simpl; [now left|].
        destruct (Z.max_spec q (foldr Z.max p ps)) as [[_ ->]|[_ ->]]; [|right; now left].
        destruct IH as [IH|IH]; [now left | right; now right]. }
      split.
      * intros H. apply in_map_iff in H as (i & <- & Hi). apply in_seq in Hi.
        exists (foldr Z.min p ps), (foldr Z.max p ps).
        split; [exact Hmin|]. split; [exact Hmax|].
        split; [intros x Hx; split; [now apply foldr_min_le | now apply foldr_max_ge]|].
        lia.
      * intros (lo & hi & Hlo & Hhi & Hall & Hk).
        assert (lo = foldr Z.min p ps).
        { pose proof (foldr_min_le p ps lo Hlo). pose proof (Hall _ Hmin). lia. }
        assert (hi = foldr Z.max p ps).
        { pose proof (foldr_max_ge p ps hi Hhi). pose proof (Hall _ Hmax). lia. }
        subst lo hi. apply in_map_iff.
        exists (Z.to_nat (k - Z.max 21 (foldr Z.min p ps - 3))).
        split; [lia|]. apply in_seq. lia.
  - intros Hn. rewrite Hkeys. unfold range, keyRange. now rewrite Hn.
Qed.

Lemma keyboard_covers_the_notes_witness :
  pianoKeys (set_pianoKeys [] sampleLoaded) = []
  /\ map key_midi (pianoKeys (createPianoKeyboard (set_pianoKeys [] sampleLoaded)))
     = [45; 47; 48; 50; 52; 53; 55; 57; 59; 60; 62; 64; 65; 67; 69; 71; 72; 74;
        46; 49; 51; 54; 56; 58; 61; 63; 66; 68; 70; 73; 75]%Z
  /\ NoDup (map key_midi
              (pianoKeys (createPianoKeyboard (set_pianoKeys [] sampleLoaded)))).
Proof.
  assert (Hempty : pianoKeys (set_pianoKeys [] sampleLoaded) = []) by reflexivity.
  destruct (keyboard_covers_the_notes (set_pianoKeys [] sampleLoaded) Hempty)
    as (_ & _ & ND & _).
  split; [exact Hempty|]. split; [vm_compute; reflexivity | exact ND].
Defined.

(** ** The camera frame on the canvas *)

Lemma orElse_pos a b : 0 <= a -> 0 < b -> 0 < orElse a b.
Proof.
  intros Ha Hb. unfold orElse. destruct (Qeq_bool a 0) eqn:E; [exact Hb|].
  apply Qeq_bool_neq in E. destruct (Qlt_le_dec 0 a) as [H|H]; [exact H|].
  exfalso. apply E. lra.
Qed.

(** The size to which [mapCoordinates] scales the camera frame. *)
Lemma mapCoordinates_scaled (v : Viewport) :
  0 < clientWidth v -> 0 < clientHeight v ->
  0 <= videoWidth v -> 0 <= videoHeight v ->
  exists scaledWidth scaledHeight,
    (forall x y,
        pt_x (mapCoordinates v x y)
        == (clientWidth v - scaledWidth) * (1 # 2) + (1 - x) * scaledWidth
        /\ pt_y (mapCoordinates v x y)
           == (clientHeight v - scaledHeight) * (1 # 2) + y * scaledHeight)
    /\ clientWidth v <= scaledWidth
    /\ clientHeight v <= scaledHeight
    /\ (scaledWidth == clientWidth v \/ scaledHeight == clientHeight v)
    /\ scaledWidth * orElse (videoHeight v) 720
       == scaledHeight * orElse (videoWidth v) 1280.
Proof.
  intros Hcw Hch Hvw Hvh.
  pose proof (orElse_pos _ 1280 Hvw eq_refl) as Hw.
  pose proof (orElse_pos _ 720 Hvh eq_refl) as Hh.
  unfold mapCoordinates.
  set (vw := orElse (videoWidth v) 1280) in *.
  set (vh := orElse (videoHeight v) 720) in *.
  set (cw := clientWidth v) in *. set (ch := clientHeight v) in *.
  assert (Hr : 0 < vw / vh) by (apply Qlt_shift_div_l; [exact Hh | lra]).
  assert (Hpos : 0 < vh * ch) by (apply Qmult_lt_0_compat; assumption).
  assert (Hvh0 : ~ vh == 0) by lra.
  assert (Hvw0 : ~ vw == 0) by lra.
  assert (Hch0 : ~ ch == 0) by lra.
  destruct (Qltb (vw / vh) (cw / ch)) eqn:E.
  - apply qltb_iff in E.
    exists cw, (cw / (vw / vh)). split; [intros x y; split; reflexivity|].
    assert (Hcross : vw * ch < cw * vh).
    { apply (Qmult_lt_r _ _ (vh * ch)) in E; [|exact Hpos].
      assert (E1 : vw / vh * (vh * ch) == vw * ch) by (field; exact Hvh0).
      assert (E2 : cw / ch * (vh * ch) == cw * vh) by (field; exact Hch0).
      lra. }
    assert (Heq : cw / (vw / vh) == cw * vh / vw) by (field; split; assumption).
    split; [lra|]. split.
    + rewrite Heq. apply Qle_shift_div_l; [exact Hw | lra].
    + split; [left; reflexivity|]. rewrite Heq. field. exact Hvw0.
  - apply qltb_false_iff in E.
    exists (ch * (vw / vh)), ch. split; [intros x y; split; reflexivity|].
    assert (Hcross : cw * vh <= vw * ch).
    { apply (Qmult_le_r _ _ (vh * ch)) in E; [|exact Hpos].
      assert (E1 : vw / vh * (vh * ch) == vw * ch) by (field; exact Hvh0).
      assert (E2 : cw / ch * (vh * ch) == cw * vh) by (field; exact Hch0).
      lra. }
    assert (Heq : ch * (vw / vh) == ch * vw / vh) by (field; exact Hvh0).
    split.
    + rewrite Heq. apply Qle_shift_div_l; [exact Hh | lra].
    + split; [lra|]. split; [right; reflexivity|]. rewrite Heq. field. exact Hvh0.
Qed.

(** X15. [mapCoordinates] lays the camera frame over the container
    like a mirrored background image that covers it: the centre of
    the frame falls on the centre of the container, a point and its
    mirror image fall at equal distances from the two sides, the four
    edges of the frame fall on or outside the edges of the container,
    and the frame keeps the proportions of the video (1280 by 720 while
    the video has no size yet). *)
Theorem camera_frame_covers_container (v : Viewport) :
  0 < clientWidth v -> 0 < clientHeight v ->
  0 <= videoWidth v -> 0 <= videoHeight v ->
  (pt_x (mapCoordinates v (1 # 2) (1 # 2)) == clientWidth v / 2
   /\ pt_y (mapCoordinates v (1 # 2) (1 # 2)) == clientHeight v / 2)
  /\ (forall x y, pt_x (mapCoordinates v x y) + pt_x (mapCoordinates v (1 - x) y)
                  == clientWidth v)
  /\ (forall y, pt_x (mapCoordinates v 1 y) <= 0
                /\ clientWidth v <= pt_x (mapCoordinates v 0 y))
  /\ (forall x, pt_y (mapCoordinates v x 0) <= 0
                /\ clientHeight v <= pt_y (mapCoordinates v x 1))
  /\ (forall x y,
         (pt_x (mapCoordinates v 0 y) - pt_x (mapCoordinates v 1 y))
         * orElse (videoHeight v) 720
         == (pt_y (mapCoordinates v x 1) - pt_y (mapCoordinates v x 0))
            * orElse (videoWidth v) 1280).
Proof.
  intros Hcw Hch Hvw Hvh.
  destruct (mapCoordinates_scaled v Hcw Hch Hvw Hvh)
    as (sw & sh & Hmap & Hsw & Hsh & _ & Hratio).
  split; [|split; [|split; [|split]]].
  - destruct (Hmap (1 # 2) (1 # 2)) as [Hx Hy]. rewrite Hx, Hy. split; field.
  - intros x y. destruct (Hmap x y) as [Hx _]. destruct (Hmap (1 - x) y) as [Hx' _].
    rewrite Hx, Hx'. field.
  - intros y. destruct (Hmap 1 y) as [H1 _]. destruct (Hmap 0 y) as [H0 _].
    rewrite H1, H0. split; lra.
  - intros x. destruct (Hmap x 0) as [_ H0]. destruct (Hmap x 1) as [_ H1].
    rewrite H1, H0. split; lra.
  - intros x y. destruct (Hmap 0 y) as [Hx0 _]. destruct (Hmap 1 y) as [Hx1 _].
    destruct (Hmap x 0) as [_ Hy0]. destruct (Hmap x 1) as [_ Hy1].
    rewrite Hx0, Hx1, Hy0, Hy1.
    assert (E1 : (clientWidth v - sw) * (1 # 2) + (1 - 0) * sw
                 - ((clientWidth v - sw) * (1 # 2) + (1 - 1) * sw) == sw) by ring.
    assert (E2 : (clientHeight v - sh) * (1 # 2) + 1 * sh
                 - ((clientHeight v - sh) * (1 # 2) + 0 * sh) == sh) by ring.
    rewrite E1, E2. exact Hratio.
Qed.

Lemma camera_frame_covers_container_witness :
  (0 < 1000 /\ 0 < 1000 /\ 0 <= 0 /\ 0 <= 0)
  /\ pt_x (mapCoordinates {| clientWidth := 1000; clientHeight := 1000;
                             videoWidth := 0; videoHeight := 0 |} 1 0) <= 0.
Proof.
  pose (v := {| clientWidth := 1000; clientHeight := 1000;
                videoWidth := 0; videoHeight := 0 |}).
  assert (H1 : 0 < clientWidth v) by reflexivity.
  assert (H2 : 0 < clientHeight v) by reflexivity.
  assert (H3 : 0 <= videoWidth v) by discriminate.
  assert (H4 : 0 <= videoHeight v) by discriminate.
  destruct (camera_frame_covers_container v H1 H2 H3 H4) as (_ & _ & Hx & _).
  split; [repeat split; assumption|]. exact (proj1 (Hx 0)).
Defined.

Lemma flat_map_length_le {A B} (f : A -> list B) (k : nat) (l : list A) :
  (forall x, length (f x) <= k)%nat -> (length (flat_map f l) <= k * length l)%nat.
Proof.
  intros Hf. induction l as [|x l IH]; simpl; [lia|].
  rewrite length_app. specialize (Hf x). lia.
Qed.

Lemma pushMapped_length v tip : (length (pushMapped v tip) <= 1)%nat.
Proof. destruct tip as [[[x|] [y|]]|]; simpl; lia. Qed.

Lemma pushMapped_In v tip p :
  In p (pushMapped v tip) ->
  exists x y, tip = Some {| lm_x := Some x; lm_y := Some y |}
              /\ p = mapCoordinates v x y.
Proof.
  destruct tip as [[[x|] [y|]]|]; simpl; try tauto.
  intros [<-|[]]. now exists x, y.
Qed.

Lemma handPoints_In v playstyle landmarks p :
  In p (handPoints v playstyle landmarks) ->
  exists hand index x y,
    landmarks = Some hand
    /\ (21 <= length hand)%nat
    /\ hand !! index = Some (Some {| lm_x := Some x; lm_y := Some y |})
    /\ (playstyle = "fingers"%string /\ In index fingertipIndices
        \/ playstyle = "palm"%string /\ (index < 21)%nat)
    /\ p = mapCoordinates v x y.
Proof.
  unfold handPoints. destruct landmarks as [hand|]; [|intros []].
  destruct (length hand <? 21)%nat eqn:El; [intros []|].
  apply Nat.ltb_ge in El.
  destruct (String.eqb playstyle "fingers") eqn:Ef;
    [|destruct (String.eqb playstyle "palm") eqn:Ep; [|intros []]].
  - apply String.eqb_eq in Ef. intros H. apply in_flat_map in H as (index & Hi & H).
    apply pushMapped_In in H as (x & y & Htip & ->).
    exists hand, index, x, y. repeat split; [exact El | | now left].
    destruct (hand !! index) as [tip|]; simpl in Htip; [now subst tip | discriminate].
  - apply String.eqb_eq in Ep. intros H. apply in_flat_map in H as (index & Hi & H).
    apply pushMapped_In in H as (x & y & Htip & ->). apply in_seq in Hi.
    exists hand, index, x, y. repeat split; [exact El | | right; split; [exact Ep | lia]].
    destruct (hand !! index) as [tip|]; simpl in Htip; [now subst tip | discriminate].
Qed.

Lemma handPoints_length v landmarks :
  (length (handPoints v "fingers" landmarks) <= 5)%nat
  /\ (length (handPoints v "palm" landmarks) <= 21)%nat.
Proof.
  unfold handPoints. destruct landmarks as [hand|]; [|simpl; lia].
  destruct (length hand <? 21)%nat; [simpl; lia|].
  change (String.eqb "fingers" "fingers") with true.
  change (String.eqb "palm" "fingers") with false.
  change (String.eqb "palm" "palm") with true. cbv iota. split.
  - apply (flat_map_length_le _ 1 fingertipIndices). intros i. apply pushMapped_length.
  - apply (flat_map_length_le _ 1 (seq 0 21)). intros i. apply pushMapped_length.
Qed.

(** X16. The tracker's callback yields at most five points for each
    hand in the fingers style and at most twenty-one in the palm
    style, none at all for any other style and none when the tracker
    reports no hands. Every point is the mapped position of a landmark
    that has both coordinates, of a hand with at least 21 landmarks:
    a fingertip (landmark 4, 8, 12, 16 or 20) in the fingers style. *)
Theorem hand_points_come_from_landmarks
        (v : Viewport) (currentPlaystyle : string)
        (hands : list (option (list (option Landmark)))) :
  (length (onHandsResults v "fingers" (Some hands)) <= 5 * length hands)%nat
  /\ (length (onHandsResults v "palm" (Some hands)) <= 21 * length hands)%nat
  /\ (currentPlaystyle <> "fingers"%string -> currentPlaystyle <> "palm"%string ->
      onHandsResults v currentPlaystyle (Some hands) = [])
  /\ onHandsResults v currentPlaystyle None = []
  /\ (forall p, In p (onHandsResults v currentPlaystyle (Some hands)) ->
        exists hand index x y,
          In (Some hand) hands
          /\ (21 <= length hand)%nat
          /\ hand !! index = Some (Some {| lm_x := Some x; lm_y := Some y |})
          /\ (currentPlaystyle = "fingers"%string /\ In index [4; 8; 12; 16; 20]%nat
              \/ currentPlaystyle = "palm"%string /\ (index < 21)%nat)
          /\ p = mapCoordinates v x y).
Proof.
  split; [|split; [|split; [|split]]].
  - apply flat_map_length_le. intros landmarks. apply handPoints_length.
  - apply flat_map_length_le. intros landmarks. apply handPoints_length.
  - intros Hf Hp. simpl. apply String.eqb_neq in Hf, Hp.
    induction hands as [|[hand|] hands IH]; simpl; [reflexivity | | exact IH].
    rewrite Hf, Hp. destruct (length hand <? 21)%nat; exact IH.
  - reflexivity.
  - intros p Hp. simpl in Hp. apply in_flat_map in Hp as (landmarks & Hl & Hp).
    apply handPoints_In in Hp as (hand & index & x & y & -> & H21 & Hi & Hstyle & ->).
    exists hand, index, x, y. repeat split; assumption.
Qed.

(** ** The end screen *)

Lemma inject_nat_le (a b : nat) (k l : Z) :
  (0 < b)%nat ->
  (inject_Z k <= inject_Z (Z.of_nat a) / inject_Z (Z.of_nat b) * inject_Z l
   <-> (k * Z.of_nat b <= Z.of_nat a * l)%Z).
Proof.
  intros Hb.
  assert (Hpos : 0 < inject_Z (Z.of_nat b)).
  { change 0 with (inject_Z 0). rewrite <- Zlt_Qlt. lia. }
  assert (E : inject_Z (Z.of_nat a) / inject_Z (Z.of_nat b) * inject_Z l
              == inject_Z (Z.of_nat a) * inject_Z l / inject_Z (Z.of_nat b))
    by (field; lra).
  rewrite E, Zle_Qle, !inject_Z_mult. split.
  - intros H. apply (Qmult_le_r _ _ _ Hpos) in H.
    assert (E2 : inject_Z (Z.of_nat a) * inject_Z l / inject_Z (Z.of_nat b)
                 * inject_Z (Z.of_nat b) == inject_Z (Z.of_nat a) * inject_Z l)
      by (field; lra).
    now rewrite E2 in H.
  - intros H. now apply Qle_shift_div_l.
Qed.

(** X17. The colour of the final score follows its rating: green
    for Perfect and Excellent, yellow for Great and Good, orange for
    Nice Try, red for Keep Practicing. The score that the end screen
    computes is rated Perfect exactly when at least 95 in 100 melody
    notes were credited, and a song without melody notes, whose score
    is 0, is rated Keep Practicing. *)
Theorem rating_follows_the_score (s : State) :
  (forall finalScore,
      scoreColor finalScore
      = match rating finalScore with
        | Perfect | Excellent => "#22c55e"%string
        | Great | Good => "#facc15"%string
        | NiceTry => "#f97316"%string
        | KeepPracticing => "#ef4444"%string
        end)
  /\ (forall a b, a <= b -> rating a = Perfect -> rating b = Perfect)
  /\ (forall a b, a <= b -> rating b = KeepPracticing -> rating a = KeepPracticing)
  /\ (melodyNotes s <> [] ->
      (rating (finalScore (showEndScreen s)) = Perfect
       <-> (95 * length (melodyNotes s) <= 100 * touchedMelodyCount s)%nat))
  /\ (melodyNotes s = [] -> rating (finalScore (showEndScreen s)) = KeepPracticing).
Proof.
  split; [|split; [|split; [|split]]].
  - intros x. unfold scoreColor, rating.
    destruct (Qle_bool 95 x) eqn:E95.
    + apply Qle_bool_iff in E95.
      assert (H90 : Qle_bool 90 x = true) by (apply Qle_bool_iff; lra).
      now rewrite H90.
    + destruct (Qle_bool 90 x) eqn:E90; [reflexivity|].
      destruct (Qle_bool 80 x) eqn:E80.
      * apply Qle_bool_iff in E80.
        assert (H70 : Qle_bool 70 x = true) by (apply Qle_bool_iff; lra).
        now rewrite H70.
      * destruct (Qle_bool 70 x); [reflexivity|].
        now destruct (Qle_bool 50 x).
  - intros a b Hab. unfold rating.
    destruct (Qle_bool 95 a) eqn:Ea.
    + apply Qle_bool_iff in Ea.
      assert (Hb : Qle_bool 95 b = true) by (apply Qle_bool_iff; lra).
      now rewrite Hb.
    + repeat (destruct (Qle_bool _ a); [discriminate|]). discriminate.
  - intros a b Hab. unfold rating.
    destruct (Qle_bool 95 b) eqn:E1; [discriminate|].
    destruct (Qle_bool 90 b) eqn:E2; [discriminate|].
    destruct (Qle_bool 80 b) eqn:E3; [discriminate|].
    destruct (Qle_bool 70 b) eqn:E4; [discriminate|].
    destruct (Qle_bool 50 b) eqn:E5; [discriminate|]. intros _.
    assert (Hlt : b < 50).
    { destruct (Qlt_le_dec b 50) as [H|H]; [exact H|].
      apply Qle_bool_iff in H. congruence. }
    assert (forall k, 50 <= k -> Qle_bool k a = false) as Hk.
    { intros k Hk. destruct (Qle_bool k a) eqn:E; [|reflexivity].
      apply Qle_bool_iff in E. lra. }
    rewrite !Hk; [reflexivity | discriminate..].
  - intros Hne. unfold showEndScreen. simpl.
    destruct (melodyNotes s) as [|n ns] eqn:Em; [congruence|].
    change (0 <? length (n :: ns))%nat with true. cbv iota.
    assert (Hpos : (0 < length (n :: ns))%nat) by (simpl; lia).
    unfold rating.
    destruct (Qle_bool 95 _) eqn:E.
    + split; [intros _|reflexivity].
      apply Qle_bool_iff in E.
      change 95 with (inject_Z 95) in E. change 100 with (inject_Z 100) in E.
      apply (inject_nat_le _ _ 95 100 Hpos) in E. lia.
    + split.
      * repeat (destruct (Qle_bool _ _); [discriminate|]). discriminate.
      * intros H. exfalso.
        assert (E' : Qle_bool 95 (inject_Z (Z.of_nat (touchedMelodyCount s))
                                   / inject_Z (Z.of_nat (length (n :: ns))) * 100) = true).
        { apply Qle_bool_iff.
          change 95 with (inject_Z 95). change 100 with (inject_Z 100).
          apply (inject_nat_le _ _ 95 100 Hpos). lia. }
        congruence.
  - intros Hempty. rewrite showEndScreen_empty by exact Hempty. reflexivity.
Qed.

(** ** The sample player *)

Lemma sampleNotes_table :
  WebAudio.sampleNotes
  = map WebAudio.midiToNoteName (map (fun i => (36 + Z.of_nat i)%Z) (seq 0 61)).
Proof. vm_compute. reflexivity. Qed.

Lemma sampleNotes_NoDup : List.NoDup WebAudio.sampleNotes.
Proof.
  assert (H : forallb (fun p => negb (existsb (String.eqb (fst p)) (snd p)))
                ((fix tails (l : list string) :=
                    match l with
                    | [] => []
                    | x :: l' => (x, l') :: tails l'
                    end) WebAudio.sampleNotes) = true) by (vm_compute; reflexivity).
  revert H. generalize WebAudio.sampleNotes. intros l. induction l as [|x l IH]; simpl.
  - intros _. constructor.
  - intros H. apply andb_true_iff in H as [Hx H]. constructor; [|now apply IH].
    intros Hin. apply negb_true_iff in Hx.
    assert (Hex : existsb (String.eqb x) l = true).
    { apply existsb_exists. exists x. split; [exact Hin | apply String.eqb_refl]. }
    congruence.
Qed.

Lemma midiToNoteName_clamped midi :
  exists i, (i < 61)%nat
            /\ Z.max 36 (Z.min midi 96) = (36 + Z.of_nat i)%Z
            /\ WebAudio.midiToNoteName midi
               = WebAudio.midiToNoteName (36 + Z.of_nat i).
Proof.
  exists (Z.to_nat (Z.max 36 (Z.min midi 96) - 36)).
  assert (E : (36 + Z.of_nat (Z.to_nat (Z.max 36 (Z.min midi 96) - 36))
               = Z.max 36 (Z.min midi 96))%Z) by lia.
  split; [lia|]. split; [now rewrite E|].
  unfold WebAudio.midiToNoteName. rewrite E.
  assert (E2 : Z.max 36 (Z.min (Z.max 36 (Z.min midi 96)) 96)
               = Z.max 36 (Z.min midi 96)) by lia.
  now rewrite E2.
Qed.

Lemma midiToNoteName_sample midi : In (WebAudio.midiToNoteName midi) WebAudio.sampleNotes.
Proof.
  destruct (midiToNoteName_clamped midi) as (i & Hi & _ & ->).
  rewrite sampleNotes_table. apply in_map, in_map_iff.
  exists i. split; [reflexivity|]. apply in_seq. lia.
Qed.

(** X18. [midiToNoteName] only ever names a sample that [loadSamples]
    asks for: the 61 samples are exactly the names of the pitches 36
    (C2) to 96 (C7), one name for each pitch, and every pitch below 36
    is played with the sample C2, every pitch above 96 with the sample
    C7. *)
Theorem every_pitch_names_a_sample (midi : Z) :
  In (WebAudio.midiToNoteName midi) WebAudio.sampleNotes
  /\ WebAudio.sampleNotes
     = map WebAudio.midiToNoteName (map (fun i => (36 + Z.of_nat i)%Z) (seq 0 61))
  /\ List.NoDup WebAudio.sampleNotes
  /\ ((midi <= 36)%Z -> WebAudio.midiToNoteName midi = "C2"%string)
  /\ ((96 <= midi)%Z -> WebAudio.midiToNoteName midi = "C7"%string)
  /\ (forall other, (36 <= midi <= 96)%Z -> (36 <= other <= 96)%Z ->
                    WebAudio.midiToNoteName midi = WebAudio.midiToNoteName other ->
                    midi = other).
Proof.
  split; [apply midiToNoteName_sample|]. split; [apply sampleNotes_table|].
  split; [apply sampleNotes_NoDup|]. split; [|split].
  - intros H. unfold WebAudio.midiToNoteName.
    replace (Z.max 36 (Z.min midi 96)) with 36%Z by lia. reflexivity.
  - intros H. unfold WebAudio.midiToNoteName.
    replace (Z.max 36 (Z.min midi 96)) with 96%Z by lia. reflexivity.
  - intros other Hm Ho Heq.
    pose proof sampleNotes_NoDup as ND. rewrite sampleNotes_table in ND.
    rewrite map_map in ND.
    assert (Hi : forall i j, (i < 61)%nat -> (j < 61)%nat ->
                   WebAudio.midiToNoteName (36 + Z.of_nat i)
                   = WebAudio.midiToNoteName (36 + Z.of_nat j) -> i = j).
    { intros i j Hi Hj E.
      apply (proj1 (List.NoDup_nth _ "undefined"%string) ND i j);
        rewrite ?length_map, ?length_seq; try assumption.
      rewrite !(nth_indep _ "undefined"%string (WebAudio.midiToNoteName (36 + Z.of_nat 0)))
        by (rewrite length_map, length_seq; assumption).
      rewrite !(map_nth (fun i => WebAudio.midiToNoteName (36 + Z.of_nat i))).
      rewrite !seq_nth by assumption. exact E. }
    specialize (Hi (Z.to_nat (midi - 36)) (Z.to_nat (other - 36))).
    replace (36 + Z.of_nat (Z.to_nat (midi - 36)))%Z with midi in Hi by lia.
    replace (36 + Z.of_nat (Z.to_nat (other - 36)))%Z with other in Hi by lia.
    assert (Z.to_nat (midi - 36) = Z.to_nat (other - 36)) by (apply Hi; [lia | lia | exact Heq]).
    lia.
Qed.

Lemma web_play_fold (now : Q) (sound : Note.t -> WebAudio.Source) (l : list Note.t) :
  forall a s,
  WebAudio.audioContext a = Some now ->
  (forall n, In n l -> WebAudio.hasBuffer a (WebAudio.midiToNoteName (Note.midi n)) = true) ->
  (forall n, sound n = {| WebAudio.src_buffer := WebAudio.midiToNoteName (Note.midi n);
                          WebAudio.src_gain :=
                            Qmin (orElse (Note.velocity n) 0.5 * 3.0) 2.0;
                          WebAudio.src_when := now |}) ->
  exists a' s',
    fold_left (fun st note => WebAudio.playMelodyNote note st) l (a, s) = (a', s')
    /\ playedMelodyIds s' = playedMelodyIds s ∪ list_to_set (map Note.id l)
    /\ touchedMelodyCount s' = (touchedMelodyCount s + length l)%nat
    /\ WebAudio.melodySources a' = WebAudio.melodySources a ++ map sound l
    /\ WebAudio.scheduledNotes a' = WebAudio.scheduledNotes a
    /\ WebAudio.startTime a' = WebAudio.startTime a
    /\ melodyNotes s' = melodyNotes s
    /\ timers s' = timers s
    /\ isPlaying s' = isPlaying s.
Proof.
  induction l as [|n l IH]; intros a s Hctx Hbuf Hsound; simpl.
  - exists a, s. split; [reflexivity|].
    rewrite (right_id_L ∅ (∪)), Nat.add_0_r, app_nil_r. auto 10.
  - rewrite Hctx, (Hbuf n (or_introl eq_refl)). simpl.
    match goal with |- context [fold_left _ l (?a1, ?s1)] =>
      destruct (IH a1 s1 eq_refl (fun x Hx => Hbuf x (or_intror Hx)) Hsound)
        as (a' & s' & Hfold & Hp & Ht & Hm & Hs & Hst & Hmel & Htm & Hpl) end.
    exists a', s'. split; [exact Hfold|].
    rewrite Hp, Ht, Hm, Hs, Hst, Hmel, Htm, Hpl. simpl.
    rewrite (assoc_L (∪)), <- app_assoc, Hsound. simpl.
    repeat split; try reflexivity. lia.
Qed.

Lemma web_play_fold_silent (l : list Note.t) a s :
  WebAudio.audioContext a = None
  \/ (forall n, In n l -> WebAudio.hasBuffer a (WebAudio.midiToNoteName (Note.midi n)) = false) ->
  fold_left (fun st note => WebAudio.playMelodyNote note st) l (a, s) = (a, s).
Proof.
  intros H. induction l as [|n l IH]; simpl; [reflexivity|].
  destruct H as [H|H].
  - rewrite H. apply IH. now left.
  - destruct (WebAudio.audioContext a).
    + rewrite (H n (or_introl eq_refl)). simpl. apply IH. right.
      intros x Hx. apply H. now right.
    + apply IH. right. intros x Hx. apply H. now right.
Qed.

(** X19. With an audio context and every sample loaded, the gate of
    the sample player does what the gate of script.js does: it marks
    and credits every melody note not yet played that starts within
    0.05 s of the touched note, and starts a source for each at once;
    the gain of a source is three times the velocity of its note (0.5
    for a note of velocity 0), and never more than 2. *)
Theorem web_gate_plays_simultaneous
        (a : WebAudio.Audio) (s : State) (now : Q) (touchedNote : Note.t) :
  WebAudio.audioContext a = Some now ->
  (forall noteName, In noteName WebAudio.sampleNotes ->
                    WebAudio.hasBuffer a noteName = true) ->
  getTouchedNote s = Some touchedNote ->
  isPlaying s = true ->
  gatedPause s = false ->
  let hit := simultaneousNotes touchedNote s in
  let sound := fun n =>
    {| WebAudio.src_buffer := WebAudio.midiToNoteName (Note.midi n);
       WebAudio.src_gain := Qmin (orElse (Note.velocity n) 0.5 * 3.0) 2.0;
       WebAudio.src_when := now |} in
  let after := WebGame.handleMelodyGate (a, s) in
  In touchedNote hit
  /\ playedMelodyIds (snd after) = playedMelodyIds s ∪ list_to_set (map Note.id hit)
  /\ touchedMelodyCount (snd after) = (touchedMelodyCount s + length hit)%nat
  /\ WebAudio.melodySources (fst after) = WebAudio.melodySources a ++ map sound hit
  /\ Forall (fun n => WebAudio.src_gain (sound n) <= 2
                      /\ (Note.velocity n == 0 -> WebAudio.src_gain (sound n) == 1.5))
            hit.
Proof.
  intros Hctx Hbuf Htouch Hplay Hg hit sound after.
  assert (Hall : forall n, In n hit ->
                   WebAudio.hasBuffer a (WebAudio.midiToNoteName (Note.midi n)) = true).
  { intros n _. apply Hbuf, midiToNoteName_sample. }
  destruct (web_play_fold now sound hit a s Hctx Hall (fun n => eq_refl))
    as (a' & s' & Hfold & Hp & Ht & Hm & _).
  assert (Hafter : after = (a', s')).
  { unfold after, WebGame.handleMelodyGate. rewrite Htouch, Hg, Hplay. exact Hfold. }
  split.
  - rewrite getTouchedNote_firstTouched in Htouch.
    destruct (firstTouched_some _ _ _ Htouch) as (? & p & ? & bn & an & _ & _ & Hmel & _ & Hn).
    apply simultaneousNotes_In. split; [rewrite Hmel; apply in_elt|].
    split; [now apply touches_inv in Hn|].
    assert (E : Note.time touchedNote - Note.time touchedNote == 0) by ring.
    rewrite E. unfold epsilon. simpl. discriminate.
  - rewrite Hafter. simpl. split; [exact Hp|]. split; [exact Ht|]. split; [exact Hm|].
    apply Forall_forall. intros n _. simpl. split.
    + apply (Qle_trans _ 2.0); [apply Q.le_min_r | discriminate].
    + intros Hv. unfold orElse.
      assert (Hz : Qeq_bool (Note.velocity n) 0 = true) by now apply Qeq_bool_iff.
      rewrite Hz. vm_compute. reflexivity.
Qed.

Lemma web_gate_plays_simultaneous_witness :
  (WebAudio.audioContext sampleAudio = Some 10
   /\ getTouchedNote samplePlaying = Some (loadedNote 0 1 64 0.04 0.5)
   /\ isPlaying samplePlaying = true
   /\ gatedPause samplePlaying = false)
  /\ touchedMelodyCount (snd (WebGame.handleMelodyGate (sampleAudio, samplePlaying)))
     = (touchedMelodyCount samplePlaying
        + length (simultaneousNotes (loadedNote 0 1 64 0.04 0.5) samplePlaying))%nat
  /\ length (simultaneousNotes (loadedNote 0 1 64 0.04 0.5) samplePlaying) = 2%nat.
Proof.
  assert (Hctx : WebAudio.audioContext sampleAudio = Some 10) by reflexivity.
  assert (Hbuf : forall noteName, In noteName WebAudio.sampleNotes ->
                                  WebAudio.hasBuffer sampleAudio noteName = true)
    by reflexivity.
  assert (Htouch : getTouchedNote samplePlaying = Some (loadedNote 0 1 64 0.04 0.5))
    by (vm_compute; reflexivity).
  assert (Hplay : isPlaying samplePlaying = true) by (vm_compute; reflexivity).
  assert (Hg : gatedPause samplePlaying = false) by (vm_compute; reflexivity).
  destruct (web_gate_plays_simultaneous sampleAudio samplePlaying 10 _
              Hctx Hbuf Htouch Hplay Hg) as (_ & _ & Ht & _).
  split; [repeat split; assumption|]. split; [exact Ht | vm_compute; reflexivity].
Defined.

(** X20. Without an audio context, or when the samples of the melody
    notes did not load, [playMelodyNote] returns before it marks the
    note: the gate of the sample player then changes nothing, so a
    touch gives no credit and the touched note stays unplayed. *)
Theorem web_gate_needs_samples (a : WebAudio.Audio) (s : State) :
  (WebAudio.audioContext a = None
   \/ forall n, In n (melodyNotes s) ->
                WebAudio.hasBuffer a (WebAudio.midiToNoteName (Note.midi n)) = false) ->
  gatedPause s = false ->
  WebGame.handleMelodyGate (a, s) = (a, s)
  /\ (forall note, In note (melodyNotes s) ->
                   WebAudio.playMelodyNote note (a, s) = (a, s)).
Proof.
  intros Hsilent Hg. split.
  - unfold WebGame.handleMelodyGate. rewrite Hg.
    destruct (getTouchedNote s) as [t|]; [|reflexivity].
    destruct (isPlaying s); [|reflexivity].
    apply web_play_fold_silent. destruct Hsilent as [H|H]; [now left | right].
    intros n Hn. apply H. now apply simultaneousNotes_In in Hn as (Hn & _).
  - intros note Hnote.
    apply (web_play_fold_silent [note] a s). destruct Hsilent as [H|H]; [now left | right].
    intros n [<-|[]]. now apply H.
Qed.

Lemma web_gate_needs_samples_witness :
  (WebAudio.audioContext sampleNoAudio = None /\ gatedPause samplePlaying = false)
  /\ getTouchedNote samplePlaying = Some (loadedNote 0 1 64 0.04 0.5)
  /\ WebGame.handleMelodyGate (sampleNoAudio, samplePlaying)
     = (sampleNoAudio, samplePlaying).
Proof.
  assert (Hctx : WebAudio.audioContext sampleNoAudio = None) by reflexivity.
  assert (Hg : gatedPause samplePlaying = false) by (vm_compute; reflexivity).
  destruct (web_gate_needs_samples sampleNoAudio samplePlaying (or_introl Hctx) Hg)
    as [Hgate _].
  split; [split; assumption|]. split; [vm_compute; reflexivity | exact Hgate].
Defined.

Lemma web_schedule_fold (plus : Q -> Q -> Q) (now : Q) (l : list Note.t) : forall a,
  let keep := fun note =>
    Qltb now (plus (WebAudio.startTime a) (Note.time note))
    && WebAudio.hasBuffer a (WebAudio.midiToNoteName (Note.midi note)) in
  let source := fun note =>
    {| WebAudio.src_buffer := WebAudio.midiToNoteName (Note.midi note);
       WebAudio.src_gain := Qmin (orElse (Note.velocity note) 0.4 * 2.0) 1.5;
       WebAudio.src_when := plus (WebAudio.startTime a) (Note.time note) |} in
  fold_left (WebAudio.scheduleNote plus now) l a
  = {| WebAudio.audioContext := WebAudio.audioContext a;
       WebAudio.hasBuffer := WebAudio.hasBuffer a;
       WebAudio.startTime := WebAudio.startTime a;
       WebAudio.scheduledNotes :=
         WebAudio.scheduledNotes a ++ map source (List.filter keep l);
       WebAudio.melodySources := WebAudio.melodySources a |}.
Proof.
  induction l as [|n l IH]; intros a; simpl.
  - rewrite app_nil_r. now destruct a.
  - rewrite IH. unfold WebAudio.scheduleNote at 1 2 3 4 5 6 7 8.
    destruct (Qltb now (plus (WebAudio.startTime a) (Note.time n))); simpl; [|reflexivity].
    destruct (WebAudio.hasBuffer a _); simpl; [|reflexivity].
    now rewrite <- app_assoc.
Qed.

(** X21. With an audio context at time [now], [scheduleNotes] of the
    sample player stops what was scheduled, sets [startTime] to [now]
    minus [currentTime], and starts one source for every harmony note
    whose sample is loaded and for which [startTime] plus the time of
    the note comes out after [now], at that time. This holds however
    the subtraction and the addition round. No source is started at or
    before [now] and no gain is more than 1.5. When the song starts
    from the beginning, [currentTime] being 0, a harmony note at 0 s is
    not scheduled, since taking 0 from a number and adding 0 to it give
    the number back; [scheduleNotes] of script.js, whose test is [>=],
    schedules it. *)
Theorem web_schedule_starts_after_now
        (minus plus : Q -> Q -> Q) (a : WebAudio.Audio) (s : State) (now : Q) :
  WebAudio.audioContext a = Some now ->
  let after := WebAudio.scheduleNotes minus plus (a, s) in
  let noteTime := fun note => plus (minus now (currentTime s)) (Note.time note) in
  let source := fun note =>
    {| WebAudio.src_buffer := WebAudio.midiToNoteName (Note.midi note);
       WebAudio.src_gain := Qmin (orElse (Note.velocity note) 0.4 * 2.0) 1.5;
       WebAudio.src_when := noteTime note |} in
  let scheduled := fun note =>
    Qltb now (noteTime note)
    && WebAudio.hasBuffer a (WebAudio.midiToNoteName (Note.midi note)) in
  snd after = s
  /\ WebAudio.startTime (fst after) = minus now (currentTime s)
  /\ WebAudio.melodySources (fst after) = WebAudio.melodySources a
  /\ WebAudio.scheduledNotes (fst after)
     = map source (List.filter scheduled (harmonyNotes s))
  /\ Forall (fun src => now < WebAudio.src_when src /\ WebAudio.src_gain src <= 1.5)
            (WebAudio.scheduledNotes (fst after))
  /\ ((forall x zero, zero == 0 -> minus x zero == x) ->
      (forall x zero, zero == 0 -> plus x zero == x) ->
      currentTime s == 0 ->
      forall note, In note (harmonyNotes s) -> Note.time note == 0 ->
        scheduled note = false
        /\ ~ In note (List.filter scheduled (harmonyNotes s))
        /\ In note (List.filter (fun note => Qle_bool (currentTime s) (Note.time note))
                                (harmonyNotes s))).
Proof.
  intros Hctx after noteTime source scheduled. subst after.
  unfold WebAudio.scheduleNotes. rewrite Hctx, web_schedule_fold. simpl.
  fold noteTime. fold source. fold scheduled.
  split; [reflexivity|]. split; [reflexivity|]. split; [reflexivity|].
  split; [reflexivity|]. split.
  - apply Forall_forall. intros src Hsrc.
    apply list_elem_of_In, in_map_iff in Hsrc as (n & <- & Hn).
    apply filter_In in Hn as (_ & Hn). apply andb_true_iff in Hn as [Hn _].
    apply qltb_iff in Hn. simpl. split; [exact Hn|].
    apply (Qle_trans _ 1.5); [apply Q.le_min_r | discriminate].
  - intros Hminus Hplus Hstart note Hin Htime.
    assert (Hnot : scheduled note = false).
    { unfold scheduled. apply andb_false_iff. left. apply qltb_false_iff.
      unfold noteTime.
      rewrite (Hplus _ _ Htime), (Hminus _ _ Hstart). apply Qle_refl. }
    split; [exact Hnot|]. split.
    + intros H. apply filter_In in H as (_ & H). congruence.
    + apply filter_In. split; [exact Hin|]. apply Qle_bool_iff.
      rewrite Hstart, Htime. apply Qle_refl.
Qed.

Lemma web_schedule_starts_after_now_witness :
  WebAudio.audioContext sampleAudio = Some 10
  /\ map Note.midi (harmonyNotes sampleLoaded) = [60; 48]%Z
  /\ map Note.time (harmonyNotes sampleLoaded) = [0 * (1 / 1); 0 * (1 / 1)]
  /\ WebAudio.scheduledNotes
       (fst (WebAudio.scheduleNotes Qminus Qplus (sampleAudio, sampleLoaded)))
     = []
  /\ map sch_midi (timeline (transport (scheduleNotes sampleLoaded))) = [60; 48]%Z
  /\ Forall (fun src => 10 < WebAudio.src_when src /\ WebAudio.src_gain src <= 1.5)
            (WebAudio.scheduledNotes
               (fst (WebAudio.scheduleNotes Qminus Qplus (sampleAudio, sampleLoaded)))).
Proof.
  assert (Hctx : WebAudio.audioContext sampleAudio = Some 10) by reflexivity.
  destruct (web_schedule_starts_after_now Qminus Qplus sampleAudio sampleLoaded 10 Hctx)
    as (_ & _ & _ & _ & Hall & _).
  split; [exact Hctx|]. split; [vm_compute; reflexivity|].
  split; [vm_compute; reflexivity|]. split; [vm_compute; reflexivity|].
  split; [vm_compute; reflexivity | exact Hall].
Defined.

(** X22. In the game with the sample player the frame that ends the
    song leaves [currentTime] at [duration]: [pausePlayback] there
    does not read a clock again. The game stops, the scheduled sources
    are dropped, no further frame is requested, and the score is the
    credited share of the melody notes. *)
Theorem web_song_end_is_clamped (a : WebAudio.Audio) (s : State) (now : Q) :
  isPlaying s = true ->
  WebAudio.audioContext a = Some now ->
  duration s <= now - WebAudio.startTime a ->
  let after := WebGame.animate (a, s) in
  currentTime (snd after) = duration s
  /\ isPlaying (snd after) = false
  /\ animating (snd after) = false
  /\ WebAudio.scheduledNotes (fst after) = []
  /\ playedMelodyIds (snd after) = playedMelodyIds s
  /\ touchedMelodyCount (snd after) = touchedMelodyCount s
  /\ finalScore (snd after)
     = if (0 <? length (melodyNotes s))%nat
       then inject_Z (Z.of_nat (touchedMelodyCount s))
            / inject_Z (Z.of_nat (length (melodyNotes s))) * 100
       else 0.
Proof.
  intros Hplay Hctx Hend after. unfold after, WebGame.animate. simpl.
  rewrite Hplay, Hctx. apply Qle_bool_iff in Hend. rewrite Hend. simpl.
  repeat split.
Qed.

Lemma web_song_end_is_clamped_witness :
  (isPlaying sampleOverrun = true
   /\ WebAudio.audioContext sampleAudio = Some 10
   /\ duration sampleOverrun <= 10 - WebAudio.startTime sampleAudio)
  /\ currentTime (snd (WebGame.animate (sampleAudio, sampleOverrun)))
     = duration sampleOverrun.
Proof.
  assert (Hplay : isPlaying sampleOverrun = true) by (vm_compute; reflexivity).
  assert (Hctx : WebAudio.audioContext sampleAudio = Some 10) by reflexivity.
  assert (Hend : duration sampleOverrun <= 10 - WebAudio.startTime sampleAudio)
    by (vm_compute; discriminate).
  destruct (web_song_end_is_clamped sampleAudio sampleOverrun 10 Hplay Hctx Hend)
    as (Hc & _).
  split; [repeat split; assumption | exact Hc].
Defined.

(** ** js/midi.js: the distance between melody notes *)

Lemma Sliding_concat l gs : Sliding l gs -> concat gs = l.
Proof. induction 1; simpl in *; congruence. Qed.

Lemma Sliding_head b rest g gs : Sliding (b :: rest) (g :: gs) -> exists g', g = b :: g'.
Proof. inversion 1; subst; eauto. Qed.

(** In a sliding grouping of sorted notes, every note of a group
    starts at least [timeWindow] before every note of a later group. *)
Lemma Sliding_apart l gs :
  Sliding l gs ->
  StronglySorted (fun a b => Note.time a <= Note.time b) l ->
  StronglySorted
    (fun g1 g2 => forall x y, In x g1 -> In y g2 ->
                              Note.time x + MidiJs.timeWindow <= Note.time y) gs.
Proof.
  induction 1 as [|n|a b rest g gs Hnear HS IH|a b rest gs Hfar HS IH]; intros Hsorted.
  - constructor.
  - constructor; constructor.
  - apply StronglySorted_inv in Hsorted as [Htail Ha].
    specialize (IH Htail). apply StronglySorted_inv in IH as [IHgs IHg].
    constructor; [exact IHgs|].
    destruct (Sliding_head _ _ _ _ HS) as (g' & ->).
    eapply Forall_impl; [exact IHg|]. simpl. intros g2 Hg2 x y [<-|Hx] Hy.
    + apply Forall_cons in Ha as [Hab _].
      specialize (Hg2 b y (or_introl eq_refl) Hy). lra.
    + now apply Hg2.
  - apply StronglySorted_inv in Hsorted as [Htail Ha].
    specialize (IH Htail). constructor; [exact IH|].
    apply Forall_forall. intros g2 Hg2 x y [<-|[]] Hy.
    assert (Hin : In y (b :: rest)).
    { rewrite <- (Sliding_concat _ _ HS). apply in_concat. exists g2.
      split; [now apply list_elem_of_In | exact Hy]. }
    assert (Hb : Note.time a + MidiJs.timeWindow <= Note.time b).
    { apply Forall_cons in Ha as [Hab _].
      destruct (Qlt_le_dec (Note.time b) (Note.time a + MidiJs.timeWindow)) as [Hlt|Hle];
        [|exact Hle].
      exfalso. apply Hfar. apply Qabs_Qlt_condition. unfold MidiJs.timeWindow in *.
      split; lra. }
    destruct Hin as [<-|Hin]; [exact Hb|].
    apply StronglySorted_inv in Htail as [_ Hrest].
    rewrite Forall_forall in Hrest. specialize (Hrest y).
    rewrite list_elem_of_In in Hrest. specialize (Hrest Hin). lra.
Qed.

Lemma chosen_apart (R : Note.t -> Note.t -> Prop) gs : forall mel,
  StronglySorted (fun g1 g2 => forall x y, In x g1 -> In y g2 -> R x y) gs ->
  Forall2 firstHighest gs mel ->
  StronglySorted R mel.
Proof.
  induction gs as [|g gs IH]; intros mel HS HF.
  - apply Forall2_nil_inv_l in HF as ->. constructor.
  - apply Forall2_cons_inv_l in HF as (m & mel' & Hm & HF & ->).
    apply StronglySorted_inv in HS as [HS Hg].
    constructor; [now apply IH|].
    clear IH HS. induction HF as [|g2 m2 gs mel' Hm2 HF IH]; [constructor|].
    apply Forall_cons in Hg as [Hg2 Hg]. constructor; [|now apply IH].
    apply Hg2; now apply firstHighest_In.
Qed.

(** X23. In the split of js/midi.js, on notes sorted by start time
    with no start before 0, every melody note starts at least 0.05 s
    after the melody note before it. So of the melody notes only one
    that starts exactly 0.05 s from a touched melody note can be played
    along with it; in script.js two melody notes can be closer. *)
Theorem midi_js_melody_notes_are_apart (notes : list Note.t) :
  Forall (fun n => 0 <= Note.time n) notes ->
  StronglySorted (fun a b => Note.time a <= Note.time b) notes ->
  let melodyNotes := fst (MidiJs.separateMelodyHarmony notes) in
  StronglySorted (fun a b => Note.time a + 0.05 <= Note.time b) melodyNotes
  /\ (forall i j a b, (i < j)%nat ->
         melodyNotes !! i = Some a -> melodyNotes !! j = Some b ->
         Qabs (Note.time b - Note.time a) <= 0.05 ->
         Note.time b == Note.time a + 0.05).
Proof.
  intros Hpos Hsorted melodyNotes.
  pose proof (groupNotes_sliding notes Hpos) as HS.
  destruct (split_fold (MidiJs.groupNotes notes) ([], []) (groupNotes_nonempty notes))
    as (ms & hs & Hfold & HF & _).
  assert (Hmel : melodyNotes = ms).
  { unfold melodyNotes, MidiJs.separateMelodyHarmony. now rewrite Hfold. }
  assert (Hgap : StronglySorted (fun a b => Note.time a + 0.05 <= Note.time b) ms).
  { apply (chosen_apart _ (MidiJs.groupNotes notes)); [|exact HF].
    apply (Sliding_apart notes); assumption. }
  rewrite Hmel. split; [exact Hgap|].
  intros i j a b Hij Ha Hb Hnear.
  assert (Hab : Note.time a + 0.05 <= Note.time b).
  { clear - Hgap Hij Ha Hb. revert i j Hij Ha Hb.
    induction Hgap as [|x l HSl IH Hx]; intros i j Hij Ha Hb; [discriminate|].
    destruct j as [|j]; [lia|]. simpl in Hb. destruct i as [|i].
    - injection Ha as <-. rewrite Forall_forall in Hx. apply Hx.
      now apply list_elem_of_lookup_2 in Hb.
    - simpl in Ha. apply (IH i j); [lia | assumption..]. }
  apply Qabs_Qle_condition in Hnear. lra.
Qed.

Lemma midi_js_melody_notes_are_apart_witness :
  (Forall (fun n => 0 <= Note.time n) apart50
   /\ StronglySorted (fun a b => Note.time a <= Note.time b) apart50)
  /\ fst (MidiJs.separateMelodyHarmony apart50) = apart50
  /\ StronglySorted (fun a b => Note.time a + 0.05 <= Note.time b)
       (fst (MidiJs.separateMelodyHarmony apart50)).
Proof.
  assert (Hpos : Forall (fun n => 0 <= Note.time n) apart50)
    by (repeat constructor; discriminate).
  assert (Hsorted : StronglySorted (fun a b => Note.time a <= Note.time b) apart50)
    by (repeat constructor; discriminate).
  destruct (midi_js_melody_notes_are_apart apart50 Hpos Hsorted) as [Hgap _].
  split; [split; assumption|]. split; [vm_compute; reflexivity | exact Hgap].
Defined.

(** ** js/midi.js: what loadMIDI makes of a file *)

Lemma scanEvent_notes (P : MidiLoad.LoadedNote -> Prop) spt ti sc e sc' :
  (forall note d, 0.05 <= d -> P (MidiLoad.withDuration note d)) ->
  MidiLoad.scanEvent spt ti sc e = Some sc' ->
  Forall P (MidiLoad.notes sc) -> Forall P (MidiLoad.notes sc').
Proof.
  intros HP Hstep Hall. unfold MidiLoad.scanEvent in Hstep.
  assert (Hoff : forall pitch,
             Forall P (MidiLoad.notes
               match pitch with
               | None => {| MidiLoad.currentTime :=
                              MidiLoad.currentTime sc
                              + inject_Z (MidiLoad.deltaTime e) * spt;
                            MidiLoad.activeNotes := MidiLoad.activeNotes sc;
                            MidiLoad.notes := MidiLoad.notes sc |}
               | Some pitch =>
                   match MidiLoad.mapGet (ti, pitch) (MidiLoad.activeNotes sc) with
                   | None => {| MidiLoad.currentTime :=
                                  MidiLoad.currentTime sc
                                  + inject_Z (MidiLoad.deltaTime e) * spt;
                                MidiLoad.activeNotes := MidiLoad.activeNotes sc;
                                MidiLoad.notes := MidiLoad.notes sc |}
                   | Some note =>
                       {| MidiLoad.currentTime :=
                            MidiLoad.currentTime sc
                            + inject_Z (MidiLoad.deltaTime e) * spt;
                          MidiLoad.activeNotes :=
                            MidiLoad.mapDelete (ti, pitch) (MidiLoad.activeNotes sc);
                          MidiLoad.notes :=
                            MidiLoad.notes sc
                            ++ [MidiLoad.withDuration note
                                  (Qmax 0.05
                                     (MidiLoad.currentTime sc
                                      + inject_Z (MidiLoad.deltaTime e) * spt
                                      - MidiLoad.time note))] |}
                   end
               end)).
  { intros [pitch|]; [|exact Hall].
    destruct (MidiLoad.mapGet _ _); [|exact Hall].
    simpl. apply Forall_app. split; [exact Hall|].
    constructor; [|constructor]. apply HP, Q.le_max_l. }
  destruct (MidiLoad.type e) as [|t|t]; [now injection Hstep as <- | | now injection Hstep as <-].
  do 4 (destruct t as [t|t|]; try (now injection Hstep as <-)).
  - destruct (MidiLoad.data e) as [|n|[|pitch [|v bytes]]]; try (now injection Hstep as <-).
    destruct (0 <? v)%Z; [now injection Hstep as <-|].
    destruct (v =? 0)%Z; injection Hstep as <-; [apply (Hoff (Some pitch)) | exact Hall].
  - destruct (MidiLoad.data e) as [|n|bytes]; [discriminate | |].
    + injection Hstep as <-. exact Hall.
    + injection Hstep as <-. apply Hoff.
Qed.

Lemma scanEvent_total spt ti sc e :
  (MidiLoad.type e = 8%Z -> MidiLoad.data e <> MidiLoad.NoData) ->
  exists sc', MidiLoad.scanEvent spt ti sc e = Some sc'.
Proof.
  intros Hdata. unfold MidiLoad.scanEvent.
  destruct (MidiLoad.type e) as [|t|t]; [eauto | | eauto].
  do 4 (destruct t as [t|t|]; eauto).
  - destruct (MidiLoad.data e) as [|n|[|pitch [|v bytes]]]; eauto.
    destruct (0 <? v)%Z; eauto. destruct (v =? 0)%Z; eauto.
  - destruct (MidiLoad.data e) as [|n|bytes]; eauto.
    now destruct (Hdata eq_refl).
Qed.

Lemma scanEvents_ok (P : MidiLoad.LoadedNote -> Prop) spt ti events : forall sc,
  (forall note d, 0.05 <= d -> P (MidiLoad.withDuration note d)) ->
  Forall (fun e => MidiLoad.type e = 8%Z -> MidiLoad.data e <> MidiLoad.NoData) events ->
  Forall P (MidiLoad.notes sc) ->
  exists sc',
    foldl (fun sc event => sc ≫= fun sc => MidiLoad.scanEvent spt ti sc event)
          (Some sc) events = Some sc'
    /\ Forall P (MidiLoad.notes sc').
Proof.
  induction events as [|e events IH]; intros sc HP Hdata Hall; simpl.
  - now exists sc.
  - apply Forall_cons in Hdata as [He Hdata].
    destruct (scanEvent_total spt ti sc e He) as (sc1 & Hsc1). rewrite Hsc1.
    apply (IH sc1 HP Hdata). now apply (scanEvent_notes P spt ti sc e sc1).
Qed.

Lemma scanTracks_ok (P : MidiLoad.LoadedNote -> Prop) spt
      (tracks : list (nat * list MidiLoad.MidiEvent)) : forall active notes,
  (forall note d, 0.05 <= d -> P (MidiLoad.withDuration note d)) ->
  Forall (fun t => Forall (fun e => MidiLoad.type e = 8%Z ->
                                    MidiLoad.data e <> MidiLoad.NoData) (snd t)) tracks ->
  Forall P notes ->
  exists active' notes',
    foldl (fun acc '(trackIndex, events) =>
             MidiLoad.scanTrack spt trackIndex acc events)
          (Some (active, notes)) tracks = Some (active', notes')
    /\ Forall P notes'.
Proof.
  induction tracks as [|[ti events] tracks IH]; intros active notes HP Hdata Hall.
  - now exists active, notes.
  - apply Forall_cons in Hdata as [He Hdata]. simpl in He.
    destruct (scanEvents_ok P spt ti events
                {| MidiLoad.currentTime := 0; MidiLoad.activeNotes := active;
                   MidiLoad.notes := notes |} HP He Hall) as (sc' & Hsc' & Hall').
    assert (Hstep : MidiLoad.scanTrack spt ti (Some (active, notes)) events
                    = Some (MidiLoad.activeNotes sc', MidiLoad.notes sc'))
      by (unfold MidiLoad.scanTrack; simpl; now rewrite Hsc').
    cbn [foldl]. rewrite Hstep. now apply IH.
Qed.

Lemma Forall_imap_pair {A} (Q : A -> Prop) (l : list A) : forall (f : nat -> nat),
  Forall Q l -> Forall (fun t => Q (snd t)) (imap (fun i x => (f i, x)) l).
Proof.
  induction l as [|x l IH]; intros f Hl; simpl; [constructor|].
  apply Forall_cons in Hl as [Hx Hl]. constructor; [exact Hx|].
  now apply (IH (fun i => f (S i))).
Qed.

Lemma sorted_last {A} (key : A -> Q) (l : list A) (x : A) :
  StronglySorted (fun a b => key a <= key b) l ->
  last l = Some x ->
  Forall (fun y => key y <= key x) l.
Proof.
  induction 1 as [|y l HS IH Hy]; [discriminate|].
  destruct l as [|z l].
  - intros [= ->]. constructor; [lra | constructor].
  - intros Hlast. change (last (y :: z :: l)) with (last (z :: l)) in Hlast.
    specialize (IH Hlast). constructor; [|exact IH].
    rewrite Forall_forall in Hy. apply Hy.
    apply list_elem_of_In. clear - Hlast.
    revert z Hlast. induction l as [|w l IH]; intros z Hlast.
    + injection Hlast as ->. now left.
    + right. apply (IH w). exact Hlast.
Qed.

(** X24. [loadMIDI] of js/midi.js returns a result for every file in
    which the events of type 8 (note off) have their data. In its
    result every note lasts at least 0.05 s, the notes are in the order
    of their start times, and the duration of the song is the end of
    the note that starts last; a file without notes leaves the duration
    as it was. No note starts after the end of the song, but a note
    that starts earlier may still sound then. *)
Theorem midi_js_load_result (m : MidiLoad.Parsed) (currentSpeed duration : Q) :
  Forall (Forall (fun e => MidiLoad.type e = 8%Z -> MidiLoad.data e <> MidiLoad.NoData))
         (MidiLoad.track m) ->
  exists notes duration',
    MidiLoad.loadMIDI m currentSpeed duration = Some (notes, duration')
    /\ Forall (fun n => 0.05 <= MidiLoad.duration n) notes
    /\ StronglySorted (fun a b => MidiLoad.time a <= MidiLoad.time b) notes
    /\ duration' = match last notes with
                   | Some lastNote => MidiLoad.time lastNote + MidiLoad.duration lastNote
                   | None => duration
                   end
    /\ (notes <> [] -> Forall (fun n => MidiLoad.time n < duration') notes).
Proof.
  intros Hdata.
  set (P := fun n => 0.05 <= MidiLoad.duration n).
  assert (HP : forall note d, 0.05 <= d -> P (MidiLoad.withDuration note d))
    by (intros note d Hd; exact Hd).
  destruct (scanTracks_ok P (MidiLoad.secondsPerTick m currentSpeed)
              (imap pair (MidiLoad.track m)) [] [] HP
              (Forall_imap_pair _ _ (fun i => i) Hdata) (Forall_nil_2 _))
    as (active & notes & Hscan & Hall).
  set (all := notes ++ map (fun entry => MidiLoad.withDuration (snd entry) 0.5) active).
  assert (Hall2 : Forall P all).
  { apply Forall_app. split; [exact Hall|].
    apply Forall_forall. intros n Hn.
    apply list_elem_of_In, in_map_iff in Hn as (entry & <- & _).
    apply HP. discriminate. }
  assert (Hsorted : StronglySorted (fun a b => MidiLoad.time a <= MidiLoad.time b)
                                   (sortBy MidiLoad.byTime all))
    by apply (sortBy_sorted_by MidiLoad.time).
  assert (Hall3 : Forall P (sortBy MidiLoad.byTime all))
    by (now rewrite <- (sortBy_perm MidiLoad.byTime all)).
  assert (Hload : MidiLoad.loadMIDI m currentSpeed duration
                  = Some (sortBy MidiLoad.byTime all,
                          match last (sortBy MidiLoad.byTime all) with
                          | Some lastNote =>
                              MidiLoad.time lastNote + MidiLoad.duration lastNote
                          | None => duration
                          end)).
  { unfold MidiLoad.loadMIDI. cbv zeta.
    match goal with |- context [foldl ?f ?a ?l] =>
      destruct (foldl f a l) as [[active' notes']|] eqn:E;
      pose proof (eq_trans (eq_sym E) Hscan) as Heq end;
      [|discriminate].
    injection Heq as -> ->. reflexivity. }
  eexists _, _. split; [exact Hload|].
  split; [exact Hall3|]. split; [exact Hsorted|]. split; [reflexivity|].
  intros Hne. destruct (last (sortBy MidiLoad.byTime all)) as [lastNote|] eqn:Hlast.
  - pose proof (sorted_last MidiLoad.time _ _ Hsorted Hlast) as Hle.
    assert (Hd : P lastNote).
    { rewrite Forall_forall in Hall3. apply Hall3.
      now apply last_Some_elem_of in Hlast. }
    unfold P in Hd. eapply Forall_impl; [exact Hle|]. simpl. intros n Hn. lra.
  - apply last_None in Hlast. congruence.
Qed.

Lemma midi_js_load_result_witness :
  Forall (Forall (fun e => MidiLoad.type e = 8%Z -> MidiLoad.data e <> MidiLoad.NoData))
         (MidiLoad.track sampleParsed)
  /\ match MidiLoad.loadMIDI sampleParsed 1 0 with
     | Some (notes, duration') =>
         map (fun n => (MidiLoad.midi n, Qred (MidiLoad.time n),
                        Qred (MidiLoad.duration n))) notes
         = [(60%Z, 0, 3); (64%Z, 1 # 2, 1 # 2)]
         /\ Qred duration' = 1
     | None => False
     end
  /\ exists notes duration',
       MidiLoad.loadMIDI sampleParsed 1 0 = Some (notes, duration')
       /\ Forall (fun n => 0.05 <= MidiLoad.duration n) notes.
Proof.
  assert (Hdata : Forall (Forall (fun e => MidiLoad.type e = 8%Z ->
                                           MidiLoad.data e <> MidiLoad.NoData))
                         (MidiLoad.track sampleParsed))
    by (repeat constructor; discriminate).
  destruct (midi_js_load_result sampleParsed 1 0 Hdata) as (notes & d & Hload & Hdur & _).
  split; [exact Hdata|]. split; [vm_compute; split; reflexivity|].
  exists notes, d. split; [exact Hload | exact Hdur].
Defined.

(** ** js/midi.js: the tempo *)

Lemma toInt32_small z : (0 <= z < 2147483648)%Z -> MidiLoad.toInt32 z = z.
Proof.
  intros Hz. unfold MidiLoad.toInt32.
  change (2 ^ 32)%Z with 4294967296%Z. change (2 ^ 31)%Z with 2147483648%Z.
  rewrite Z.mod_small by lia.
  destruct (z <? 2147483648)%Z eqn:E; [reflexivity|]. apply Z.ltb_ge in E. lia.
Qed.

Lemma lor_shift_add a b n :
  (0 <= n)%Z -> (0 <= b < 2 ^ n)%Z -> Z.lor (a * 2 ^ n) b = (a * 2 ^ n + b)%Z.
Proof.
  intros Hn Hb.
  assert (Hland : Z.land (a * 2 ^ n) b = 0%Z).
  { apply Z.bits_inj'. intros k Hk. rewrite Z.land_spec, Z.bits_0.
    destruct (Z.lt_ge_cases k n) as [Hlt|Hge].
    - rewrite Z.mul_pow2_bits_low by exact Hlt. reflexivity.
    - assert (Hbk : Z.testbit b k = false).
      { destruct (Z.eq_dec b 0%Z) as [->|Hb0]; [apply Z.bits_0|].
        apply Z.bits_above_log2; [lia|].
        apply Z.lt_le_trans with n; [|exact Hge].
        apply Z.log2_lt_pow2; lia. }
      rewrite Hbk. apply andb_false_r. }
  rewrite <- Z.lxor_lor by exact Hland. symmetry. now apply Z.add_nocarry_lxor.
Qed.

Lemma lor_byte a b : (0 <= b < 256)%Z -> Z.lor (a * 256) b = (a * 256 + b)%Z.
Proof. intros Hb. apply (lor_shift_add a b 8); [lia | exact Hb]. Qed.

Lemma microsecondsPerBeat_bytes d0 d1 d2 :
  (0 <= d0 <= 255)%Z -> (0 <= d1 <= 255)%Z -> (0 <= d2 <= 255)%Z ->
  MidiLoad.microsecondsPerBeat d0 d1 d2 = (65536 * d0 + 256 * d1 + d2)%Z.
Proof.
  intros H0 H1 H2. unfold MidiLoad.microsecondsPerBeat.
  rewrite (toInt32_small d0), (toInt32_small d1), (toInt32_small d2) by lia.
  rewrite (Z.shiftl_mul_pow2 d1 8), (Z.shiftl_mul_pow2 d0 16) by lia.
  change (2 ^ 8)%Z with 256%Z. change (2 ^ 16)%Z with 65536%Z.
  rewrite (toInt32_small (d1 * 256)), (toInt32_small (d0 * 65536)) by lia.
  change 65536%Z with (2 ^ 16)%Z.
  rewrite (lor_shift_add d0 (d1 * 256) 16) by (change (2 ^ 16)%Z with 65536%Z; lia).
  change (2 ^ 16)%Z with 65536%Z.
  rewrite (toInt32_small (d0 * 65536 + d1 * 256)) by lia.
  replace (d0 * 65536 + d1 * 256)%Z with ((d0 * 256 + d1) * 256)%Z by lia.
  rewrite lor_byte by lia.
  rewrite toInt32_small by lia. lia.
Qed.

(** X25. [loadMIDI] of js/midi.js takes the tempo from the first
    event of type 81 of the first track, when its data is an array:
    three bytes give the microseconds of a beat, the first byte the
    most significant. When that event's data is a number, or no track
    has an event of type 81, the tempo is 120 beats a minute, and a
    tick lasts 1 / (2 * speed * timeDivision) seconds. Later events of
    type 81 in the same track are not looked at. *)
Theorem midi_js_tempo (m : MidiLoad.Parsed) (currentSpeed : Q)
        (before after : list MidiLoad.MidiEvent) (tempoEvent : MidiLoad.MidiEvent)
        (tracks : list (list MidiLoad.MidiEvent)) :
  MidiLoad.track m = (before ++ tempoEvent :: after) :: tracks ->
  Forall (fun e => MidiLoad.type e <> 81%Z) before ->
  MidiLoad.type tempoEvent = 81%Z ->
  (forall d0 d1 d2 more,
      MidiLoad.data tempoEvent = MidiLoad.Bytes (d0 :: d1 :: d2 :: more) ->
      (0 <= d0 <= 255)%Z -> (0 <= d1 <= 255)%Z -> (0 <= d2 <= 255)%Z ->
      MidiLoad.secondsPerTick m currentSpeed
      = 60 / (60000000 / inject_Z (65536 * d0 + 256 * d1 + d2) * currentSpeed
              * inject_Z (MidiLoad.timeDivision m)))
  /\ (forall n, MidiLoad.data tempoEvent = MidiLoad.Number n ->
                Forall (Forall (fun e => MidiLoad.type e <> 81%Z)) tracks ->
                MidiLoad.secondsPerTick m currentSpeed
                = 60 / (120 * currentSpeed * inject_Z (MidiLoad.timeDivision m)))
  /\ (forall n, MidiLoad.data tempoEvent = MidiLoad.Number n ->
                Forall (Forall (fun e => MidiLoad.type e <> 81%Z)) tracks ->
                ~ currentSpeed == 0 -> MidiLoad.timeDivision m <> 0%Z ->
                MidiLoad.secondsPerTick m currentSpeed
                == 1 / (2 * currentSpeed * inject_Z (MidiLoad.timeDivision m))).
Proof.
  intros Htrack Hbefore Htype.
  assert (Hfind : find (fun e => (MidiLoad.type e =? 81)%Z) (before ++ tempoEvent :: after)
                  = Some tempoEvent).
  { apply find_first; [|now apply Z.eqb_eq].
    eapply Forall_impl; [exact Hbefore|]. simpl. intros e He. now apply Z.eqb_neq. }
  assert (Hnone : Forall (Forall (fun e => MidiLoad.type e <> 81%Z)) tracks ->
                  MidiLoad.findTempo tracks = None).
  { clear. induction tracks as [|events tracks IH]; intros H; [reflexivity|].
    apply Forall_cons in H as [He H]. simpl.
    assert (Hf : find (fun e => (MidiLoad.type e =? 81)%Z) events = None).
    { apply find_none_all. intros e Hin. apply Z.eqb_neq.
      rewrite Forall_forall in He. apply He. now apply list_elem_of_In. }
    rewrite Hf. now apply IH. }
  assert (Hnumber : forall n, MidiLoad.data tempoEvent = MidiLoad.Number n ->
                      Forall (Forall (fun e => MidiLoad.type e <> 81%Z)) tracks ->
                      MidiLoad.secondsPerTick m currentSpeed
                      = 60 / (120 * currentSpeed * inject_Z (MidiLoad.timeDivision m))).
  { intros n Hdata Hrest. unfold MidiLoad.secondsPerTick. rewrite Htrack. simpl.
    rewrite Hfind. destruct tempoEvent as [dt ty da]. simpl in Hdata. subst da.
    now rewrite (Hnone Hrest). }
  split; [|split; [exact Hnumber|]].
  - intros d0 d1 d2 more Hdata H0 H1 H2.
    unfold MidiLoad.secondsPerTick. rewrite Htrack. simpl. rewrite Hfind.
    destruct tempoEvent as [dt ty da]. simpl in Hdata. subst da. simpl.
    now rewrite microsecondsPerBeat_bytes.
  - intros n Hdata Hrest Hspeed Hdiv. rewrite (Hnumber n Hdata Hrest).
    assert (Hq : ~ inject_Z (MidiLoad.timeDivision m) == 0).
    { change 0 with (inject_Z 0). rewrite inject_Z_injective. exact Hdiv. }
    field. split; assumption.
Qed.

Lemma midi_js_tempo_witness :
  (MidiLoad.track sampleTempoFile = ([] ++ sampleTempoEvent :: []) :: []
   /\ Forall (fun e => MidiLoad.type e <> 81%Z) []
   /\ MidiLoad.type sampleTempoEvent = 81%Z)
  /\ MidiLoad.secondsPerTick sampleTempoFile 1
     = 60 / (60000000 / inject_Z (65536 * 7 + 256 * 161 + 32) * 1 * inject_Z 480)
  /\ 60 / (60000000 / inject_Z (65536 * 7 + 256 * 161 + 32) * 1 * inject_Z 480)
     == 1 / 960.
Proof.
  assert (Htrack : MidiLoad.track sampleTempoFile = ([] ++ sampleTempoEvent :: []) :: [])
    by reflexivity.
  assert (Hbefore : Forall (fun e : MidiLoad.MidiEvent => MidiLoad.type e <> 81%Z) [])
    by constructor.
  assert (Htype : MidiLoad.type sampleTempoEvent = 81%Z) by reflexivity.
  destruct (midi_js_tempo sampleTempoFile 1 [] [] sampleTempoEvent [] Htrack Hbefore Htype)
    as (Hbytes & _).
  split; [repeat split; assumption|]. split; [|vm_compute; reflexivity].
  apply (Hbytes 7%Z 161%Z 32%Z []); [reflexivity | lia..].
Defined.

(** ** js/audio.js: the transposing copy of loadMIDI *)

Lemma imap_map {A B C} (f : B -> C) (l : list A) : forall (g : nat -> A -> B),
  imap (fun i x => f (g i x)) l = map f (imap g l).
Proof.
  induction l as [|x l IH]; intros g; simpl; [reflexivity|].
  f_equal. apply (IH (fun i => g (S i))).
Qed.

Lemma transposed_extract c m k :
  concat (imap (fun trackIndex track =>
            imap (fun idx note =>
                    {| Note.id := (trackIndex, idx);
                       Note.midi := (raw_midi note + c)%Z;
                       Note.time := raw_time note * k;
                       Note.duration := raw_duration note * k;
                       Note.velocity := raw_velocity note;
                       Note.name := raw_name note;
                       Note.trackIndex := trackIndex |})
                 track)
          (Midi.tracks m))
  = map (transposed c) (extractNotes m k).
Proof.
  unfold extractNotes. rewrite concat_map. f_equal.
  rewrite <- imap_map. apply imap_ext. intros i track _. simpl.
  now rewrite <- imap_map.
Qed.

Lemma insertSorted_transposed c x l :
  insertSorted byTime (transposed c x) (map (transposed c) l)
  = map (transposed c) (insertSorted byTime x l).
Proof.
  induction l as [|y l IH]; simpl; [reflexivity|].
  change (byTime (transposed c x) (transposed c y)) with (byTime x y).
  destruct (byTime x y); simpl; [reflexivity|]. now rewrite IH.
Qed.

Lemma sortBy_transposed c l :
  sortBy byTime (map (transposed c) l) = map (transposed c) (sortBy byTime l).
Proof.
  induction l as [|x l IH]; simpl; [reflexivity|].
  unfold sortBy in *. simpl. rewrite IH. apply insertSorted_transposed.
Qed.

Lemma takeGroup_transposed c t l :
  takeGroup t (map (transposed c) l)
  = (map (transposed c) (fst (takeGroup t l)), map (transposed c) (snd (takeGroup t l))).
Proof.
  induction l as [|n l IH]; simpl; [reflexivity|].
  change (nearStart t (transposed c n)) with (nearStart t n).
  destruct (nearStart t n); [|reflexivity].
  rewrite IH. now destruct (takeGroup t l).
Qed.

Lemma pickMelody_transposed c g : forall a,
  pickMelody (map (transposed c) g) (transposed c a) = transposed c (pickMelody g a).
Proof.
  unfold pickMelody. induction g as [|n g IH]; intros a; simpl; [reflexivity|].
  assert (E : (Note.midi a + c <? Note.midi n + c)%Z = (Note.midi a <? Note.midi n)%Z).
  { destruct (Note.midi a <? Note.midi n)%Z eqn:E; [apply Z.ltb_lt in E | apply Z.ltb_ge in E].
    - apply Z.ltb_lt. lia.
    - apply Z.ltb_ge. lia. }
  rewrite E. destruct (Note.midi a <? Note.midi n)%Z; apply IH.
Qed.

Lemma others_transposed c m g :
  others (transposed c m) (map (transposed c) g) = map (transposed c) (others m g).
Proof.
  unfold others. induction g as [|n g IH]; simpl; [reflexivity|].
  change (sameId (transposed c n) (transposed c m)) with (sameId n m).
  destruct (sameId n m); simpl; [exact IH | now rewrite IH].
Qed.

Lemma separate_transposed c fuel : forall rest mel har,
  separate fuel (map (transposed c) rest) (map (transposed c) mel) (map (transposed c) har)
  = match separate fuel rest mel har with
    | Some (melodyNotes, harmonyNotes) =>
        Some (map (transposed c) melodyNotes, map (transposed c) harmonyNotes)
    | None => None
    end.
Proof.
  induction fuel as [|fuel IH]; intros [|first rest] mel har; try reflexivity.
  change (map (transposed c) (first :: rest))
    with (transposed c first :: map (transposed c) rest).
  cbn [separate].
  change (Note.time (transposed c first)) with (Note.time first).
  change (transposed c first :: map (transposed c) rest)
    with (map (transposed c) (first :: rest)).
  rewrite takeGroup_transposed.
  destruct (takeGroup (Note.time first) (first :: rest)) as [group after].
  cbn [fst snd]. destruct group as [|g0 group]; [reflexivity|].
  change (map (transposed c) (g0 :: group))
    with (transposed c g0 :: map (transposed c) group).
  cbv iota.
  change (transposed c g0 :: map (transposed c) group)
    with (map (transposed c) (g0 :: group)).
  rewrite pickMelody_transposed, others_transposed.
  change [transposed c (pickMelody (g0 :: group) g0)]
    with (map (transposed c) [pickMelody (g0 :: group) g0]).
  rewrite <- !map_app. apply IH.
Qed.

Lemma sortBy_of_sorted (l : list Note.t) :
  StronglySorted (fun a b => Note.time a <= Note.time b) l -> sortBy byTime l = l.
Proof.
  induction 1 as [|x l HS IH Hx]; [reflexivity|].
  unfold sortBy in *. simpl. rewrite IH.
  destruct l as [|y l]; [reflexivity|]. simpl.
  apply Forall_cons in Hx as [Hxy _]. apply Qle_bool_iff in Hxy.
  unfold byTime at 1. now rewrite Hxy.
Qed.

(** X26. The copy of [loadMIDI] in js/audio.js loads a file whose
    name does not contain "jumping machine", in any case of the
    letters, exactly as [loadMIDI] of script.js does. For a file whose
    name contains it, every note is taken six semitones lower, the
    same notes are chosen as melody, the harmony is dropped and the
    notes of the song are the melody notes alone. *)
Theorem jumping_machine_keeps_the_melody (filename : string) (m : Midi.t) (currentSpeed : Q) :
  TransposeLoad.loadMIDI filename m currentSpeed
  = if TransposeLoad.isJumpingMachine filename
    then option_map
           (fun sc => {| sc_notes := map (transposed (-6)) (sc_melodyNotes sc);
                         sc_melodyNotes := map (transposed (-6)) (sc_melodyNotes sc);
                         sc_harmonyNotes := [];
                         sc_duration := sc_duration sc |})
           (parseScore m currentSpeed)
    else parseScore m currentSpeed.
Proof.
  unfold TransposeLoad.loadMIDI, TransposeLoad.extractNotes. cbv zeta.
  rewrite transposed_extract.
  destruct (parseScore_groups m currentSpeed) as (gs & mel & _ & HA & HF & Hsc).
  rewrite Hsc. unfold parseScore in Hsc. cbv zeta in Hsc.
  set (N := sortBy byTime (extractNotes m (1 / currentSpeed))) in *.
  destruct (separate (length N) N [] []) as [[melodyNotes harmonyNotes]|] eqn:Esep;
    [|discriminate Hsc].
  injection Hsc as -> ->.
  destruct (TransposeLoad.isJumpingMachine filename).
  - rewrite sortBy_transposed, length_map. fold N.
    pose proof (separate_transposed (-6) (length N) N [] []) as Hsep.
    rewrite Esep in Hsep. simpl in Hsep. rewrite Hsep.
    simpl. f_equal. f_equal.
    apply sortBy_of_sorted.
    assert (Hmel : StronglySorted (fun a b => Note.time a < Note.time b) mel)
      by (eapply melody_sorted; [exact HA | apply sortBy_sorted | exact HF]).
    clear - Hmel. induction Hmel as [|x l HS IH Hx]; simpl; constructor; [exact IH|].
    apply Forall_forall. intros y Hy.
    apply list_elem_of_In, in_map_iff in Hy as (z & <- & Hz). simpl.
    rewrite Forall_forall in Hx. apply Qlt_le_weak, Hx. now apply list_elem_of_In.
  - assert (Hid : forall l, map (transposed 0) l = l).
    { intros l. induction l as [|[i p t d v nm ti] l IH]; simpl; [reflexivity|].
      rewrite IH. unfold transposed. simpl. now rewrite Z.add_0_r. }
    rewrite Hid. fold N. now rewrite Esep.
Qed.

(** ** The clock of the progress bar *)

Lemma Qfloor_unique (x : Q) (z : Z) :
  inject_Z z <= x -> x < inject_Z (z + 1) -> Qfloor x = z.
Proof.
  intros Hle Hlt.
  pose proof (Qfloor_le x) as H1. pose proof (Qlt_floor x) as H2.
  assert (Ha : (z < Qfloor x + 1)%Z).
  { rewrite Zlt_Qlt. eapply Qle_lt_trans; [exact Hle | exact H2]. }
  assert (Hb : (Qfloor x < z + 1)%Z).
  { rewrite Zlt_Qlt. eapply Qle_lt_trans; [exact H1 | exact Hlt]. }
  lia.
Qed.

Lemma padStart_two_digits (i : nat) :
  (i < 60)%nat ->
  padStart 2 (pretty (Z.of_nat i))
  = String (digit (Z.of_nat i / 10)) (String (digit (Z.of_nat i mod 10)) EmptyString).
Proof.
  intros Hi. do 60 (destruct i as [|i]; [vm_compute; reflexivity|]). lia.
Qed.

(** X27. For a time of at least 0 s and below 2^53 s, where
    JavaScript numbers hold every whole number and print it in
    decimal, [formatTime] gives the whole minutes, a colon, and the
    remaining whole seconds as exactly two digits: with [t] the whole
    seconds of the time, the minutes are t / 60 and the two digits are
    those of t mod 60. *)
Theorem format_time_minutes_and_seconds (seconds : Q) :
  0 <= seconds ->
  seconds < 9007199254740992 ->
  let t := Qfloor seconds in
  formatTime seconds
  = (pretty (t / 60)%Z ++ ":"
     ++ String (digit (t mod 60 / 10)) (String (digit (t mod 60 mod 10)) EmptyString))%string
  /\ (0 <= t mod 60 < 60)%Z
  /\ (60 * (t / 60) + t mod 60 = t)%Z.
Proof.
  intros Hpos _ t.
  pose proof (Qfloor_le seconds) as H1. pose proof (Qlt_floor seconds) as H2. fold t in H1, H2.
  rewrite inject_Z_plus in H2. change (inject_Z 1) with 1 in H2.
  assert (Ht : (0 <= t)%Z).
  { assert (H : (-1 < t)%Z); [|lia].
    rewrite Zlt_Qlt. change (inject_Z (-1)) with (-1 # 1). lra. }
  pose proof (Z.div_mod t 60 ltac:(lia)) as Hdm.
  pose proof (Z.mod_pos_bound t 60 ltac:(lia)) as Hmod.
  assert (Hq : inject_Z t == 60 * inject_Z (t / 60) + inject_Z (t mod 60)).
  { rewrite Hdm at 1. rewrite inject_Z_plus, inject_Z_mult. reflexivity. }
  assert (Hm0 : 0 <= inject_Z (t mod 60)).
  { change 0 with (inject_Z 0). rewrite <- Zle_Qle. lia. }
  assert (Hm59 : inject_Z (t mod 60) <= 59).
  { change 59 with (inject_Z 59). rewrite <- Zle_Qle. lia. }
  assert (Hmins : Qfloor (seconds / 60) = (t / 60)%Z).
  { apply Qfloor_unique.
    - apply Qle_shift_div_l; [reflexivity|]. lra.
    - apply Qlt_shift_div_r; [reflexivity|].
      rewrite inject_Z_plus. change (inject_Z 1) with 1. lra. }
  assert (Htrunc : truncate (seconds / 60) = (t / 60)%Z).
  { unfold truncate.
    assert (H0 : Qle_bool 0 (seconds / 60) = true).
    { apply Qle_bool_iff. apply Qle_shift_div_l; [reflexivity | lra]. }
    now rewrite H0. }
  assert (Hsecs : Qfloor (remainder seconds 60) = (t mod 60)%Z).
  { unfold remainder. rewrite Htrunc. apply Qfloor_unique.
    - lra.
    - rewrite inject_Z_plus. change (inject_Z 1) with 1. lra. }
  split; [|split; [exact Hmod | lia]].
  unfold formatTime. cbv zeta. rewrite Hmins, Hsecs.
  rewrite <- (Z2Nat.id (t mod 60)) by lia.
  rewrite padStart_two_digits by lia. reflexivity.
Qed.

Lemma format_time_minutes_and_seconds_witness :
  (0 <= 125.7 /\ 125.7 < 9007199254740992)
  /\ formatTime 125.7 = "2:05"%string.
Proof.
  assert (Hpos : 0 <= 125.7) by discriminate.
  assert (Hbound : 125.7 < 9007199254740992) by reflexivity.
  destruct (format_time_minutes_and_seconds 125.7 Hpos Hbound) as (Hfmt & _).
  split; [split; assumption|]. rewrite Hfmt. vm_compute. reflexivity.
Defined.

(** ** The window of a touch while the game plays *)

(** X28. While the game plays, a frame marks the melody notes that
    started more than 0.1 s ago before it runs the gate. So the note
    under a finger that the gate of that frame sees started no more
    than 0.1 s before the time of the frame, and less than 3 s after
    it: the 0.5 s that [getTouchedNote] allows after the start of a
    note are cut to 0.1 s. *)
Theorem playing_touch_window (s : State) (n : Note.t) :
  isPlaying s = true ->
  seconds (transport s) < duration s ->
  let marked := autoMark (set_currentTime (seconds (transport s)) (set_animating false s)) in
  getTouchedNote marked = Some n ->
  animate s = gateAndDraw marked
  /\ currentTime marked = seconds (transport s)
  /\ seconds (transport s) - 0.1 <= Note.time n
  /\ Note.time n < seconds (transport s) + 3.
Proof.
  intros Hplay Hend marked Htouch.
  assert (Hanimate : animate s = gateAndDraw marked).
  { unfold animate. simpl. rewrite Hplay.
    assert (E : Qle_bool (duration s) (seconds (transport s)) = false).
    { destruct (Qle_bool _ _) eqn:E; [|reflexivity]. apply Qle_bool_iff in E. lra. }
    now rewrite E. }
  destruct (autoMark_fold
              (melodyNotes s)
              (set_currentTime (seconds (transport s)) (set_animating false s)))
    as (_ & Hc & Hm & _ & _ & Hi).
  assert (Hc' : currentTime marked = seconds (transport s)) by exact Hc.
  assert (Hm' : melodyNotes marked = melodyNotes s) by exact Hm.
  assert (Hi' : forall x, In x (melodyNotes s) ->
                          Note.time x < seconds (transport s) - 0.1 ->
                          Note.id x ∈ playedMelodyIds marked).
  { intros x Hx Hlt. apply (proj2 (Hi (Note.id x))). right. exists x. now repeat split. }
  rewrite getTouchedNote_firstTouched in Htouch.
  destruct (firstTouched_some _ _ _ Htouch) as (? & p & ? & bn & an & _ & _ & Hmel & _ & Hn).
  apply touches_inv in Hn as (Hid & _ & Hahead & _).
  assert (Hin : In n (melodyNotes s)) by (rewrite <- Hm', Hmel; apply in_elt).
  split; [exact Hanimate|]. split; [exact Hc'|]. split.
  - destruct (Qlt_le_dec (Note.time n) (seconds (transport s) - 0.1)) as [Hlt|Hle];
      [|exact Hle].
    exfalso. apply Hid. now apply Hi'.
  - rewrite Hc' in Hahead. unfold lookAhead in Hahead. lra.
Qed.

Lemma playing_touch_window_witness :
  (isPlaying samplePlaying = true
   /\ seconds (transport samplePlaying) < duration samplePlaying
   /\ getTouchedNote
        (autoMark (set_currentTime (seconds (transport samplePlaying))
                                   (set_animating false samplePlaying)))
      = Some (loadedNote 0 1 64 0.04 0.5))
  /\ seconds (transport samplePlaying) - 0.1 <= Note.time (loadedNote 0 1 64 0.04 0.5).
Proof.
  assert (Hplay : isPlaying samplePlaying = true) by (vm_compute; reflexivity).
  assert (Hend : seconds (transport samplePlaying) < duration samplePlaying)
    by (vm_compute; reflexivity).
  assert (Htouch : getTouchedNote
                     (autoMark (set_currentTime (seconds (transport samplePlaying))
                                                (set_animating false samplePlaying)))
                   = Some (loadedNote 0 1 64 0.04 0.5)) by (vm_compute; reflexivity).
  destruct (playing_touch_window samplePlaying _ Hplay Hend Htouch) as (_ & _ & Hlow & _).
  split; [repeat split; assumption | exact Hlow].
Defined.

(** ** The transport follows the game *)

Lemma autoMark_transport s :
  transport (autoMark s) = transport s /\ isPlaying (autoMark s) = isPlaying s.
Proof. unfold autoMark. split; keeps. Qed.

Lemma handleMelodyGate_transport s :
  transport (handleMelodyGate s) = transport s
  /\ isPlaying (handleMelodyGate s) = isPlaying s.
Proof.
  unfold handleMelodyGate. destruct (getTouchedNote s); [|now split].
  destruct (gatedPause s); [simpl; split; keeps|].
  destruct (isPlaying s) eqn:E; [|now split].
  split; [|rewrite <- E]; keeps.
Qed.

Lemma gateAndDraw_transport s :
  transport (gateAndDraw s) = transport s /\ isPlaying (gateAndDraw s) = isPlaying s.
Proof.
  unfold gateAndDraw. destruct (_ || _); [|now split].
  destruct (handleMelodyGate_transport s) as [T P]. simpl. now rewrite T, P.
Qed.

Lemma transport_follows_step (fetchMidi : string -> option Midi.t) e s s' :
  (started (transport s) = isPlaying s
   /\ (isPlaying s = false -> timeline (transport s) = [])) ->
  handle fetchMidi e s = Some s' ->
  started (transport s') = isPlaying s'
  /\ (isPlaying s' = false -> timeline (transport s') = []).
Proof.
  intros [Hst Htl]. destruct e; simpl.
  - intros [= <-]. destruct (animating s); [|now split].
    unfold animate.
    change (isPlaying (set_animating false s)) with (isPlaying s).
    destruct (isPlaying s) eqn:Hplay.
    + destruct (Qle_bool _ _); [now split|].
      match goal with |- context [autoMark ?st] => set (s1 := st) end.
      destruct (gateAndDraw_transport (autoMark s1)) as [T P].
      destruct (autoMark_transport s1) as [T1 P1].
      rewrite T, P, T1, P1. simpl. rewrite Hplay. now split.
    + destruct (gateAndDraw_transport (set_animating false s)) as [T P].
      rewrite T, P. simpl. rewrite Hplay. now split.
  - intros [= <-]. unfold clockAdvance.
    destruct (started (transport s)) eqn:E; simpl; rewrite ?E; split; assumption.
  - intros [= <-]. now split.
  - intros [= <-]. now split.
  - intros [= <-]. unfold togglePlayback. destruct (_ && _); now split.
  - intros [= <-]. unfold timerFire.
    destruct (timers s !! i) as [[c|]|]; [| now split..].
    destruct (_ <? 0)%Z; [|now split].
    destruct (beginPlaying_effect (set_timers (delete i (timers s)) s))
      as (H1 & _ & _ & H4 & _).
    rewrite H1, H4. split; [reflexivity | discriminate].
  - intros [= <-]. unfold seekTo.
    match goal with |- context [markBefore ?st] => set (s3 := st) end.
    assert (T : transport (markBefore s3) = transport s3) by (unfold markBefore; keeps).
    assert (P : isPlaying (markBefore s3) = isPlaying s3) by (unfold markBefore; keeps).
    change (isPlaying s3) with (isPlaying s) in P.
    rewrite P. destruct (isPlaying s) eqn:Hplay; simpl; [now split|].
    rewrite T, P. simpl. split; [exact Hst | exact Htl].
  - unfold songChange, loadMIDI. destruct (fetchMidi song) as [m|].
    + destruct (parseScore m _) as [sc|]; [|discriminate].
      intros [= <-]. destruct (isPlaying s) eqn:Hplay; simpl; [now split|].
      rewrite Hplay. now split.
    + intros [= <-]. destruct (isPlaying s) eqn:Hplay; simpl; [now split|].
      rewrite Hplay. now split.
  - unfold speedChange, loadMIDI. simpl. destruct (fetchMidi _) as [m|].
    + destruct (parseScore m _) as [sc|]; [|discriminate].
      intros [= <-]. simpl. destruct (isPlaying s) eqn:Hplay; simpl; [now split|].
      rewrite Hplay. now split.
    + intros [= <-]. now split.
  - intros [= <-]. unfold instrumentChange.
    destruct (isPlaying s) eqn:Hplay; simpl; [now split|].
    rewrite Hplay. split; [exact Hst | reflexivity].
Qed.

(** X29. In every state of the page the transport runs exactly while
    the game is playing, and while the game is not playing nothing is
    scheduled on it: the harmony cannot sound, and the clock of the
    song cannot advance, while the game is stopped or paused. *)
Theorem transport_runs_only_while_playing
        (fetchMidi : string -> option Midi.t) (s : State) :
  reachable fetchMidi s ->
  started (transport s) = isPlaying s
  /\ (isPlaying s = false ->
      timeline (transport s) = []
      /\ forall dt, handle fetchMidi (Clock dt) s = Some s).
Proof.
  intros Hreach.
  assert (H : started (transport s) = isPlaying s
              /\ (isPlaying s = false -> timeline (transport s) = [])).
  { induction Hreach as [p s Hinit | s e s' Hreach IH Hstep].
    - unfold init, loadMIDI in Hinit. destruct (fetchMidi _) as [m|]; [|discriminate].
      destruct (parseScore m _) as [sc|]; [|discriminate].
      injection Hinit as <-. now split.
    - now apply (transport_follows_step fetchMidi e s s'). }
  destruct H as [Hst Htl]. split; [exact Hst|].
  intros Hplay. split; [now apply Htl|].
  intros dt. simpl. unfold clockAdvance. now rewrite Hst, Hplay.
Qed.

Lemma transport_runs_only_while_playing_witness :
  reachable sampleServer sampleOverrun
  /\ started (transport sampleOverrun) = isPlaying sampleOverrun
  /\ isPlaying sampleOverrun = true.
Proof.
  split; [exact sampleOverrun_reachable|].
  split; [|vm_compute; reflexivity].
  exact (proj1 (transport_runs_only_while_playing sampleServer sampleOverrun
                  sampleOverrun_reachable)).
Defined.
